(** * morelibc ELF tools: a shallow embedding of [elfmodel.py] and [mkextmod.py]

    The development follows the two Python sources:
    - [src/morelib/tools/elfmodel.py]: the object model and the pipeline
      passes ([align], [StrtabSection], [PurgeDeleted], [ComputeAddresses],
      [ComputeOffsets], [ReadData.visit_ArmAttributesSection]);
    - [src/morelib/tools/mkextmod.py]: the rewriter policy ([mk_dyn], the
      veneer loop, [decode_addend], [undo_relocation], the relocation
      conversion loop and the dynamic entries).

    Python integers are [Z]; a ctypes field is a [Z] reduced on every store
    the way ctypes does it.  A Python [str] is the list of its code points,
    [bytes] the list of its byte values.  Exceptions are the [Raise] side of
    a small error monad. *)

From Stdlib Require Import ZArith List Lia Bool.
From stdpp Require Import base option list strings gmap.

Open Scope Z_scope.

(** ** Exceptions and the error monad *)

Inductive exn : Type :=
| AssertionError
| ValueError
| IndexError
| TypeError
| AttributeError
| UnicodeEncodeError
| UnicodeDecodeError.

Inductive result (A : Type) : Type :=
| Ok (a : A)
| Raise (e : exn).

Arguments Ok {A} a.
Arguments Raise {A} e.

#[global] Instance result_ret : MRet result := fun A a => Ok a.
#[global] Instance result_bind : MBind result := fun A B f m =>
  match m with
  | Ok a => f a
  | Raise e => Raise e
  end.

Definition assert (b : bool) : result unit :=
  if b then Ok tt else Raise AssertionError.

(** ** ctypes integer fields

    A store into a ctypes field keeps the low bits and does no range check. *)

Definition c_ubyte (x : Z) : Z := x mod 2 ^ 8.
Definition c_uint16 (x : Z) : Z := x mod 2 ^ 16.
Definition c_uint32 (x : Z) : Z := x mod 2 ^ 32.
Definition c_int32 (x : Z) : Z := (x + 2 ^ 31) mod 2 ^ 32 - 2 ^ 31.

(** ** Python sequences *)

Abbreviation pystr := (list Z).
Abbreviation bytes := (list Z).

Definition len {A} (l : list A) : Z := Z.of_nat (length l).

(** Index normalisation of a slice bound: negative bounds count from the
    end, and the result is clamped to [0, len]. *)
Definition slice_bound (n i : Z) : Z :=
  if i <? 0 then Z.max 0 (i + n) else Z.min i n.

(** [l[start:stop]] *)
Definition py_slice {A} (l : list A) (start stop : Z) : list A :=
  let a := slice_bound (len l) start in
  let b := slice_bound (len l) stop in
  take (Z.to_nat (b - a)) (drop (Z.to_nat a) l).

(** [l[start:]] *)
Definition py_slice_from {A} (l : list A) (start : Z) : list A :=
  drop (Z.to_nat (slice_bound (len l) start)) l.

(** [l[:stop]] *)
Definition py_slice_to {A} (l : list A) (stop : Z) : list A :=
  take (Z.to_nat (slice_bound (len l) stop)) l.

(** [l[i]] for [0 <= i]; the callers below never index from the end. *)
Definition py_index {A} (l : list A) (i : nat) : result A :=
  match l !! i with
  | Some x => Ok x
  | None => Raise IndexError
  end.

(** [int.from_bytes(bs, "little")] *)
Fixpoint from_bytes_little (bs : bytes) : Z :=
  match bs with
  | [] => 0
  | b :: r => b + 256 * from_bytes_little r
  end.

(** [l.index(x)] counted from the head of [l]: position of the first [x]. *)
Fixpoint find_index (x : Z) (l : list Z) : option nat :=
  match l with
  | [] => None
  | y :: r => if y =? x then Some O else S <$> find_index x r
  end.

(** [data.index(x, start)] *)
Definition index_from (data : bytes) (x : Z) (start : Z) : result Z :=
  let a := slice_bound (len data) start in
  match find_index x (drop (Z.to_nat a) data) with
  | Some k => Ok (a + Z.of_nat k)
  | None => Raise ValueError
  end.

Definition list_eqb (a b : list Z) : bool := bool_decide (a = b).

(** [s.startswith(p)] and [s.endswith(p)] *)
Fixpoint startswith (s p : list Z) : bool :=
  match p, s with
  | [], _ => true
  | _ :: _, [] => false
  | x :: p', y :: s' => (x =? y) && startswith s' p'
  end.

Definition endswith (s p : list Z) : bool := startswith (reverse s) (reverse p).

(** [a < b] on [str]: lexicographic on code points. *)
Fixpoint str_lt (a b : pystr) : bool :=
  match a, b with
  | _, [] => false
  | [], _ :: _ => true
  | x :: a', y :: b' => (x <? y) || ((x =? y) && str_lt a' b')
  end.

(** ** UTF-8, the codec of [str.encode()] and [bytes.decode()] *)

Definition utf8_encode_char (c : Z) : result bytes :=
  if (c <? 0) || (0x10FFFF <? c) then Raise UnicodeEncodeError
  else if c <? 0x80 then Ok [c]
  else if c <? 0x800 then Ok [0xC0 + c / 64; 0x80 + c mod 64]
  else if (0xD800 <=? c) && (c <=? 0xDFFF) then Raise UnicodeEncodeError
  else if c <? 0x10000 then
    Ok [0xE0 + c / 4096; 0x80 + (c / 64) mod 64; 0x80 + c mod 64]
  else
    Ok [0xF0 + c / 262144; 0x80 + (c / 4096) mod 64;
        0x80 + (c / 64) mod 64; 0x80 + c mod 64].

Fixpoint utf8_encode (s : pystr) : result bytes :=
  match s with
  | [] => Ok []
  | c :: r => b ← utf8_encode_char c; bs ← utf8_encode r; Ok (b ++ bs)
  end.

Definition is_cont (b : Z) : bool := (0x80 <=? b) && (b <=? 0xBF).

Fixpoint utf8_decode (bs : bytes) : result pystr :=
  match bs with
  | [] => Ok []
  | b0 :: r0 =>
    if (0 <=? b0) && (b0 <? 0x80) then
      cs ← utf8_decode r0; Ok (b0 :: cs)
    else if (0xC2 <=? b0) && (b0 <=? 0xDF) then
      match r0 with
      | b1 :: r1 =>
        if is_cont b1 then
          cs ← utf8_decode r1; Ok ((b0 - 0xC0) * 64 + (b1 - 0x80) :: cs)
        else Raise UnicodeDecodeError
      | _ => Raise UnicodeDecodeError
      end
    else if (0xE0 <=? b0) && (b0 <=? 0xEF) then
      match r0 with
      | b1 :: b2 :: r2 =>
        let lo1 := if b0 =? 0xE0 then 0xA0 else 0x80 in
        let hi1 := if b0 =? 0xED then 0x9F else 0xBF in
        if (lo1 <=? b1) && (b1 <=? hi1) && is_cont b2 then
          cs ← utf8_decode r2;
          Ok ((b0 - 0xE0) * 4096 + (b1 - 0x80) * 64 + (b2 - 0x80) :: cs)
        else Raise UnicodeDecodeError
      | _ => Raise UnicodeDecodeError
      end
    else if (0xF0 <=? b0) && (b0 <=? 0xF4) then
      match r0 with
      | b1 :: b2 :: b3 :: r3 =>
        let lo1 := if b0 =? 0xF0 then 0x90 else 0x80 in
        let hi1 := if b0 =? 0xF4 then 0x8F else 0xBF in
        if (lo1 <=? b1) && (b1 <=? hi1) && is_cont b2 && is_cont b3 then
          cs ← utf8_decode r3;
          Ok ((b0 - 0xF0) * 262144 + (b1 - 0x80) * 4096
              + (b2 - 0x80) * 64 + (b3 - 0x80) :: cs)
        else Raise UnicodeDecodeError
      | _ => Raise UnicodeDecodeError
      end
    else Raise UnicodeDecodeError
  end.

(** An ASCII literal as a [str] / [bytes] value. *)
Definition lit (s : String.string) : list Z :=
  (fun a => Z.of_N (Ascii.N_of_ascii a)) <$> String.list_ascii_of_string s.

Arguments lit s%_string.

(** ** [elf.py]: the constants the two sources use *)

Module elf32.
Definition SHN_UNDEF : Z := 0.
Definition STN_UNDEF : Z := 0.
Definition SHN_LORESERVE : Z := 0xFF00.
Definition SHT_NULL : Z := 0.
Definition SHT_PROGBITS : Z := 1.
Definition SHT_SYMTAB : Z := 2.
Definition SHT_STRTAB : Z := 3.
Definition SHT_RELA : Z := 4.
Definition SHT_HASH : Z := 5.
Definition SHT_DYNAMIC : Z := 6.
Definition SHT_NOBITS : Z := 8.
Definition SHT_REL : Z := 9.
Definition SHT_DYNSYM : Z := 11.
Definition SHF_WRITE : Z := 1.
Definition SHF_ALLOC : Z := 2.
Definition STB_LOCAL : Z := 0.
Definition STV_DEFAULT : Z := 0.
Definition R_ARM_ABS32 : Z := 2.
Definition R_ARM_THM_PC22 : Z := 10.
Definition R_ARM_THM_JUMP24 : Z := 30.
Definition R_ARM_TARGET1 : Z := 38.
Definition R_ARM_PREL31 : Z := 42.
Definition DT_NULL : Z := 0.
Definition DT_HASH : Z := 4.
Definition DT_STRTAB : Z := 5.
Definition DT_SYMTAB : Z := 6.
Definition DT_RELA : Z := 7.
Definition DT_RELASZ : Z := 8.
Definition DT_RELAENT : Z := 9.
Definition DT_STRSZ : Z := 10.
Definition DT_SYMENT : Z := 11.
Definition DT_INIT : Z := 12.
Definition DT_FINI : Z := 13.
Definition DT_SONAME : Z := 14.
Definition DT_REL : Z := 17.
Definition DT_RELSZ : Z := 18.
Definition DT_RELENT : Z := 19.
Definition DT_FLAGS : Z := 30.
Definition DF_TEXTREL : Z := 4.
Definition DF_BIND_NOW : Z := 8.
(** [sizeof] and [alignment] of the ctypes structures *)
Definition sizeof_Sym : Z := 16.
Definition sizeof_Rel : Z := 8.
Definition sizeof_Rela : Z := 12.
Definition sizeof_Dyn : Z := 8.
Definition alignment_Phdr : Z := 4.
Definition alignment_Shdr : Z := 4.
Definition ST_BIND (info : Z) : Z := Z.shiftr info 4.
Definition ST_VISIBILITY (other : Z) : Z := Z.land other 3.
Definition R_SYM (info : Z) : Z := Z.shiftr info 8.
Definition R_TYPE (info : Z) : Z := Z.land info 0xFF.
Definition R_INFO (sym type : Z) : Z := Z.lor (Z.shiftl sym 8) (Z.land type 0xFF).
End elf32.

(** ** [elfmodel.align] *)

Definition align (address alignment : Z) : result Z :=
  _ ← assert (0 <? alignment);
  _ ← assert (Z.land alignment (alignment - 1) =? 0);
  Ok (Z.land (address + alignment - 1) (Z.lnot (alignment - 1))).

(** ** [bisect] of the Python standard library

    [bisect_left], [bisect_right] and [insort_right] with a [key], as
    [Lib/bisect.py] has them: the loop halves the interval [lo, hi) until it
    is empty.  [fuel] bounds the number of iterations; [length a] is always
    enough (see [bisect_loop_fuel]). *)

Fixpoint bisect_loop {A} (go_right : A → bool) (a : list A) (fuel lo hi : nat) : nat :=
  match fuel with
  | O => lo
  | S f =>
    if (lo <? hi)%nat then
      let mid := ((lo + hi) / 2)%nat in
      match a !! mid with
      | Some y =>
        if go_right y then bisect_loop go_right a f (S mid) hi
        else bisect_loop go_right a f lo mid
      | None => lo
      end
    else lo
  end.

Definition bisect_left {A K} (lt : K → K → bool) (key : A → K) (a : list A) (x : K) : nat :=
  bisect_loop (fun y => lt (key y) x) a (length a) 0 (length a).

Definition bisect_right {A K} (lt : K → K → bool) (key : A → K) (a : list A) (x : K) : nat :=
  bisect_loop (fun y => negb (lt x (key y))) a (length a) 0 (length a).

(** [a.insert(i, x)] for [0 <= i] *)
Definition list_insert_at {A} (i : nat) (x : A) (a : list A) : list A :=
  take i a ++ x :: drop i a.

Definition insort_right {A K} (lt : K → K → bool) (key : A → K) (a : list A) (x : A) : list A :=
  list_insert_at (bisect_right lt key a (key x)) x a.

(** ** [elfmodel.StrtabSection] *)

Module StrtabSection.

(** An entry of the list [d] of [build]: the reversed longest string and the
    originals that share it, shortest first. *)
Abbreviation Group := (list Z * list (list Z))%type.

(** [self.strings], an [OrderedDict], in insertion order. *)
Abbreviation Strings := (list (list Z * Z)).

Fixpoint dict_set (k : pystr) (v : Z) (d : Strings) : Strings :=
  match d with
  | [] => [(k, v)]
  | (k', v') :: r =>
    if list_eqb k' k then (k', v) :: r else (k', v') :: dict_set k v r
  end.

Fixpoint dict_get (k : pystr) (d : Strings) : option Z :=
  match d with
  | [] => None
  | (k', v') :: r => if list_eqb k' k then Some v' else dict_get k r
  end.

(** [register]: the keys of [self.strings] before [build], in insertion
    order; the empty string is not enrolled. *)
Definition register (keys : list pystr) (s : pystr) : list pystr :=
  if list_eqb s [] then keys
  else if bool_decide (s ∈ keys) then keys
  else keys ++ [s].

(** [lookup] *)
Definition lookup (data : bytes) (index : Z) : result pystr :=
  end_index ← index_from data 0 index;
  utf8_decode (py_slice data index end_index).

(** One iteration of the first loop of [build]. *)
Definition build_step (d : list Group) (s : pystr) : list Group :=
  let rev_s := reverse s in
  let i := bisect_left str_lt fst d rev_s in
  let fresh := list_insert_at i (rev_s, [s]) d in
  let extend :=
    match (if (0 <? i)%nat then d !! (i - 1)%nat else None) with
    | Some (key, value) =>
      if startswith rev_s key
      then <[(i - 1)%nat := (rev_s, insort_right Z.ltb len value s)]> d
      else fresh
    | None => fresh
    end in
  match (if (i <? length d)%nat then d !! i else None) with
  | Some (key, value) =>
    if startswith key rev_s
    then <[i := (key, insort_right Z.ltb len value s)]> d
    else extend
  | None => extend
  end.

Definition build_groups (keys : list pystr) : list Group :=
  foldl build_step [] keys.

(** The body of the second loop of [build] for one [(key, value)]. *)
Definition emit_group (st : bytes * Strings) (g : Group) : result (bytes * Strings) :=
  longest ← py_index g.2 (length g.2 - 1);
  enc ← utf8_encode longest;
  let data := st.1 ++ enc in
  let strings := foldl (fun acc s => dict_set s (len data - len s) acc) st.2 g.2 in
  Ok (data ++ [0], strings).

Fixpoint emit (d : list Group) (st : bytes * Strings) : result (bytes * Strings) :=
  match d with
  | [] => Ok st
  | g :: r => st' ← emit_group st g; emit r st'
  end.

(** The closing loop of [build]: [assert key == self.lookup(value)]. *)
Fixpoint check (data : bytes) (items : Strings) : result unit :=
  match items with
  | [] => Ok tt
  | (key, value) :: r =>
    s ← lookup data value;
    _ ← assert (list_eqb key s);
    check data r
  end.

(** [self.data] and [self.strings] after the two loops of [build]. *)
Definition build_data (keys : list pystr) : result (bytes * Strings) :=
  emit (build_groups keys) ([0], [([], 0)]).

(** [build], from registered keys to [(self.data, self.strings)]. *)
Definition build (keys : list pystr) : result (bytes * Strings) :=
  st ← build_data keys;
  _ ← check st.1 st.2;
  Ok st.

End StrtabSection.

(** ** Sections as the layout passes see them

    The fields [ComputeAddresses] and [ComputeOffsets] read or write.
    [cls] is the Python class of the node, which selects the visitor method
    and the [size] property; [entries] is [len(self._entries)] of an entry
    section; [paddr] is [None] while the attribute is not set. *)

Inductive SectionClass : Type :=
| Section_
| SymtabSection_
| RelSection_
| RelaSection_
| StrtabSection_
| DynamicSection_
| EhdrSection_
| PhdrsSection_
| ArmAttributesSection_.

#[global] Instance SectionClass_eq_dec : EqDecision SectionClass.
Proof. solve_decision. Defined.

(** [_entry_size] of the entry-section classes; [None] for the others. *)
Definition entry_size (c : SectionClass) : option Z :=
  match c with
  | SymtabSection_ => Some elf32.sizeof_Sym
  | RelSection_ => Some elf32.sizeof_Rel
  | RelaSection_ => Some elf32.sizeof_Rela
  | DynamicSection_ => Some elf32.sizeof_Dyn
  | _ => None
  end.

Record Section : Type := mkSection {
  cls : SectionClass;
  fixed : bool;
  deleted : bool;
  sh_type : Z;
  sh_flags : Z;
  sh_addr : Z;
  sh_offset : Z;
  sh_size : Z;
  sh_addralign : Z;
  data : option bytes;
  entries : nat;
  paddr : option Z
}.

Definition set_sh_size (v : Z) (s : Section) : Section :=
  mkSection (cls s) (fixed s) (deleted s) (sh_type s) (sh_flags s) (sh_addr s)
    (sh_offset s) (c_uint32 v) (sh_addralign s) (data s) (entries s) (paddr s).

Definition set_sh_addr (v : Z) (s : Section) : Section :=
  mkSection (cls s) (fixed s) (deleted s) (sh_type s) (sh_flags s) (c_uint32 v)
    (sh_offset s) (sh_size s) (sh_addralign s) (data s) (entries s) (paddr s).

Definition set_sh_offset (v : Z) (s : Section) : Section :=
  mkSection (cls s) (fixed s) (deleted s) (sh_type s) (sh_flags s) (sh_addr s)
    (c_uint32 v) (sh_size s) (sh_addralign s) (data s) (entries s) (paddr s).

(** [paddr] is a plain Python attribute: the integer is kept as it is. *)
Definition set_paddr (v : Z) (s : Section) : Section :=
  mkSection (cls s) (fixed s) (deleted s) (sh_type s) (sh_flags s) (sh_addr s)
    (sh_offset s) (sh_size s) (sh_addralign s) (data s) (entries s) (Some v).

(** The [size] property: [EntrySection.size] for the entry classes,
    [Section.size] ([len(self.data) if self.data else sh_size]) otherwise. *)
Definition size (s : Section) : Z :=
  match entry_size (cls s) with
  | Some k => Z.of_nat (entries s) * k
  | None =>
    match data s with
    | Some (b :: r) => len (b :: r)
    | _ => sh_size s
    end
  end.

(** The [psize] property. *)
Definition psize (s : Section) : Z :=
  if sh_type s =? elf32.SHT_NOBITS then 0 else size s.

(** [flags & bit] as a truth value *)
Definition has_flag (flags bit : Z) : bool := negb (Z.land flags bit =? 0).

(** [section.paddr], an [AttributeError] while it is unset. *)
Definition get_paddr (s : Section) : result Z :=
  match paddr s with
  | Some p => Ok p
  | None => Raise AttributeError
  end.

(** [Visitor.visit] on a list: the nodes not marked deleted are visited in
    order, the state of the visitor threaded through. *)
Fixpoint visit_list {St N} (is_deleted : N → bool)
    (f : St → N → result (St * N)) (st : St) (l : list N) : result (St * list N) :=
  match l with
  | [] => Ok (st, [])
  | n :: r =>
    if is_deleted n then
      '(st', r') ← visit_list is_deleted f st r; Ok (st', n :: r')
    else
      '(st1, n') ← f st n;
      '(st2, r') ← visit_list is_deleted f st1 r;
      Ok (st2, n' :: r')
  end.

(** The fields of the file header the layout passes use. *)
Record Ehdr : Type := mkEhdr {
  e_phoff : Z;
  e_shoff : Z;
  e_ehsize : Z;
  e_phentsize : Z;
  e_phnum : Z;
  e_shentsize : Z;
  e_shnum : Z
}.

(** A segment: its program header fields and its member sections, each a
    position in [elffile.sections]. *)
Record Segment : Type := mkSegment {
  seg_fixed : bool;
  seg_deleted : bool;
  p_vaddr : Z;
  p_paddr : Z;
  seg_sections : list nat
}.

Record Elf : Type := mkElf {
  ehdr : Ehdr;
  sections : list Section;
  segments : list Segment
}.

(** ** [elfmodel.ComputeAddresses] *)

Module ComputeAddresses.

(** The visitor's two cursors. *)
Record State : Type := mkState {
  next_flash : Z;
  next_ram : Z
}.

(** [__init__] *)
Definition init : State := mkState 0x10000000 0x20000000.

(** [visit_Segment]: a fixed segment gives each member its [paddr]. *)
Definition visit_Segment (secs : list Section) (segment : Segment) : list Section :=
  if negb (seg_fixed segment) then secs
  else
    let delta := p_paddr segment - p_vaddr segment in
    foldl (fun acc i => alter (fun sh => set_paddr (sh_addr sh + delta) sh) i acc)
      secs (seg_sections segment).

Definition visit_Section (st : State) (section : Section) : result (State * Section) :=
  let section := set_sh_size (size section) section in
  if negb (has_flag (sh_flags section) elf32.SHF_ALLOC) then Ok (st, section)
  else
    let w := has_flag (sh_flags section) elf32.SHF_WRITE in
    let nobits := sh_type section =? elf32.SHT_NOBITS in
    '(st, section) ←
      (if w then
         section ←
           (if negb (fixed section) then
              a ← align (next_ram st) (sh_addralign section);
              Ok (set_sh_addr a section)
            else Ok section);
         a ← align (size section) (sh_addralign section);
         Ok (mkState (next_flash st) (sh_addr section + a), section)
       else Ok (st, section));
    '(st, section) ←
      (if negb w || negb nobits then
         section ←
           (if negb (fixed section) then
              a ← align (next_flash st) (sh_addralign section);
              Ok (set_paddr a section)
            else Ok section);
         p ← get_paddr section;
         a ← align (psize section) (sh_addralign section);
         Ok (mkState (p + a) (next_ram st), section)
       else Ok (st, section));
    if negb (fixed section) then
      if negb w then
        p ← get_paddr section; Ok (st, set_sh_addr p section)
      else if nobits then Ok (st, set_paddr (sh_addr section) section)
      else Ok (st, section)
    else Ok (st, section).

Definition visit_PhdrsSection (elffile : Ehdr) (st : State) (section : Section) : result (State * Section) :=
  visit_Section st (set_sh_size (e_phnum elffile * e_phentsize elffile) section).

Definition visit_EhdrSection (elffile : Ehdr) (st : State) (section : Section) : result (State * Section) :=
  visit_Section st (set_sh_size (e_ehsize elffile) section).

(** [Visitor.visit] on one section: the method of the node's class; every
    class but the two pseudo-sections falls back to [visit_Section]
    (through [Visitor.visit_EntrySection] for the entry classes, whose
    entries this visitor leaves alone). *)
Definition visit (elffile : Ehdr) (st : State) (section : Section) : result (State * Section) :=
  match cls section with
  | PhdrsSection_ => visit_PhdrsSection elffile st section
  | EhdrSection_ => visit_EhdrSection elffile st section
  | _ => visit_Section st section
  end.

Definition visit_sections (elffile : Ehdr) (st : State) (secs : list Section) : result (State * list Section) :=
  visit_list deleted (visit elffile) st secs.

Definition visit_segments (secs : list Section) (segs : list Segment) : list Section :=
  foldl (fun acc p => if seg_deleted p then acc else visit_Segment acc p) secs segs.

(** [visit_Elf]: segments first, then sections. *)
Definition visit_Elf (st : State) (elffile : Elf) : result (State * Elf) :=
  let secs := visit_segments (sections elffile) (segments elffile) in
  '(st', secs') ← visit_sections (ehdr elffile) st secs;
  Ok (st', mkElf (ehdr elffile) secs' (segments elffile)).

End ComputeAddresses.

(** ** [elfmodel.ComputeOffsets] *)

Module ComputeOffsets.

(** [self.offset]; [self.sh_align] is a parameter of the pass. *)
Abbreviation State := Z.

(** [self.align(alignment)] *)
Definition align_offset (offset alignment : Z) : result Z := align offset alignment.

Definition visit_Section (offset : State) (section : Section) : result (State * Section) :=
  if negb (sh_type section =? elf32.SHT_NULL) then
    o ← align_offset offset (sh_addralign section);
    let section := set_sh_offset o section in
    Ok (o + psize section, section)
  else Ok (offset, section).

Definition visit_PhdrsSection (phoff : Z) (offset : State) (section : Section) : result (State * Section) :=
  Ok (offset, set_sh_offset phoff section).

Definition visit_EhdrSection (offset : State) (section : Section) : result (State * Section) :=
  Ok (offset, set_sh_offset 0 section).

Definition visit (phoff : Z) (offset : State) (section : Section) : result (State * Section) :=
  match cls section with
  | PhdrsSection_ => visit_PhdrsSection phoff offset section
  | EhdrSection_ => visit_EhdrSection offset section
  | _ => visit_Section offset section
  end.

Definition visit_sections (phoff : Z) (offset : State) (secs : list Section) : result (State * list Section) :=
  visit_list deleted (visit phoff) offset secs.

(** [visit_Elf]; the result carries the final [self.offset]. *)
Definition visit_Elf (sh_align : Z) (elffile : Elf) : result (State * Elf) :=
  let h := ehdr elffile in
  let offset := e_ehsize h in
  offset ← align_offset offset elf32.alignment_Phdr;
  let phoff := c_uint32 offset in
  let offset := offset + e_phnum h * e_phentsize h in
  offset ← align_offset offset sh_align;
  '(offset, secs) ← visit_sections phoff offset (sections elffile);
  offset ← align_offset offset elf32.alignment_Shdr;
  let shoff := c_uint32 offset in
  let offset := offset + e_shnum h * e_shentsize h in
  Ok (offset,
      mkElf (mkEhdr phoff shoff (e_ehsize h) (e_phentsize h) (e_phnum h)
               (e_shentsize h) (e_shnum h))
        secs (segments elffile)).

End ComputeOffsets.

(** ** [elfmodel.PurgeDeleted]

    The pass works on the object graph.  A node is an identity ([nat]) of
    its kind; the cross-references ([section.link], [section.info],
    [symbol.section], [relocation.symbol]) never change during the pass and
    are kept in [Refs]; the [deleted] flags, the entry lists
    ([section._entries]), the member lists ([segment.sections]), the two
    lists of the [Elf] and [self.again] are the mutable state.  An entry
    list holds nodes of the [_entry_class] of its section. *)

Module PurgeDeleted.

Inductive Kind : Type :=
| KSection
| KSymbol
| KRelocation
| KDynEntry
| KSegment.

#[global] Instance Kind_eq_dec : EqDecision Kind.
Proof. solve_decision. Defined.

Definition Kind_to_nat (k : Kind) : nat :=
  match k with
  | KSection => 0 | KSymbol => 1 | KRelocation => 2 | KDynEntry => 3 | KSegment => 4
  end%nat.

Definition Kind_of_nat (n : nat) : option Kind :=
  match n with
  | 0 => Some KSection | 1 => Some KSymbol | 2 => Some KRelocation
  | 3 => Some KDynEntry | 4 => Some KSegment | _ => None
  end%nat.

#[global] Instance Kind_countable : Countable Kind.
Proof.
  apply (inj_countable Kind_to_nat Kind_of_nat).
  intros []; reflexivity.
Defined.

Abbreviation NodeId := (Kind * nat)%type.

Record Refs : Type := mkRefs {
  sec_cls : nat → SectionClass;
  sec_link : nat → option nat;
  sec_info : nat → option nat;
  sym_section : nat → option nat;
  rel_symbol : nat → option nat
}.

Record State : Type := mkState {
  deleted_nodes : gset NodeId;
  sec_entries : gmap nat (list nat);
  seg_members : gmap nat (list nat);
  elf_sections : list nat;
  elf_segments : list nat;
  again : bool
}.

(** [_entry_class] of a section class: the relocations of a [RelSection]
    and of a [RelaSection] carry the same cross-reference and are visited
    by two methods with the same body. *)
Definition entry_kind (c : SectionClass) : option Kind :=
  match c with
  | SymtabSection_ => Some KSymbol
  | RelSection_ | RelaSection_ => Some KRelocation
  | DynamicSection_ => Some KDynEntry
  | _ => None
  end.

(** [section._entries]; the property creates the empty list on first use. *)
Definition entries_of (st : State) (n : nat) : list nat :=
  default [] (sec_entries st !! n).

Definition members_of (st : State) (p : nat) : list nat :=
  default [] (seg_members st !! p).

Definition is_deleted (st : State) (x : NodeId) : bool :=
  bool_decide (x ∈ deleted_nodes st).

(** [ref and ref.deleted] *)
Definition ref_deleted (st : State) (k : Kind) (r : option nat) : bool :=
  match r with
  | Some i => is_deleted st (k, i)
  | None => false
  end.

Definition mark (xs : list NodeId) (st : State) : State :=
  mkState (list_to_set xs ∪ deleted_nodes st) (sec_entries st) (seg_members st)
    (elf_sections st) (elf_segments st) (again st).

Definition set_again (b : bool) (st : State) : State :=
  mkState (deleted_nodes st) (sec_entries st) (seg_members st)
    (elf_sections st) (elf_segments st) b.

(** [node.delete()]: [Node.delete] sets the flag; [EntrySection.delete]
    also deletes every entry of the section. *)
Definition node_delete (refs : Refs) (x : NodeId) (st : State) : State :=
  match x with
  | (KSection, n) =>
    match entry_kind (sec_cls refs n) with
    | Some ek => mark ((KSection, n) :: ((fun e => (ek, e)) <$> entries_of st n)) st
    | None => mark [(KSection, n)] st
    end
  | _ => mark [x] st
  end.

(** [self.delete(node)] *)
Definition delete (refs : Refs) (x : NodeId) (st : State) : State :=
  set_again true (node_delete refs x st).

Definition visit_Section (refs : Refs) (n : nat) (st : State) : State :=
  if ref_deleted st KSection (sec_link refs n) || ref_deleted st KSection (sec_info refs n)
  then delete refs (KSection, n) st
  else st.

Definition visit_Symbol (refs : Refs) (n : nat) (st : State) : State :=
  if ref_deleted st KSection (sym_section refs n) then delete refs (KSymbol, n) st else st.

(** [visit_Relocation] and [visit_RelocationWithAddend] *)
Definition visit_Relocation (refs : Refs) (n : nat) (st : State) : State :=
  if ref_deleted st KSymbol (rel_symbol refs n) then delete refs (KRelocation, n) st else st.

(** The method an entry of kind [ek] is dispatched to; [visit_DynEntry] is
    the inherited no-op. *)
Definition visit_entry (refs : Refs) (ek : Kind) (n : nat) (st : State) : State :=
  match ek with
  | KSymbol => visit_Symbol refs n st
  | KRelocation => visit_Relocation refs n st
  | _ => st
  end.

(** [Visitor.visit] on a list of nodes of kind [k]: the nodes not deleted
    when their turn comes are visited in order. *)
Definition visit_nodes (k : Kind) (f : nat → State → State) (l : list nat) (st : State) : State :=
  foldl (fun acc n => if is_deleted acc (k, n) then acc else f n acc) st l.

Definition set_entries (n : nat) (l : list nat) (st : State) : State :=
  mkState (deleted_nodes st) (<[n := l]> (sec_entries st)) (seg_members st)
    (elf_sections st) (elf_segments st) (again st).

Definition set_members (p : nat) (l : list nat) (st : State) : State :=
  mkState (deleted_nodes st) (sec_entries st) (<[p := l]> (seg_members st))
    (elf_sections st) (elf_segments st) (again st).

Definition live (st : State) (k : Kind) (l : list nat) : list nat :=
  filter (fun n => is_deleted st (k, n) = false) l.

(** [visit_EntrySection]: [Visitor.visit_EntrySection] (the section, then
    its entries), then the entry list is filtered. *)
Definition visit_EntrySection (refs : Refs) (ek : Kind) (n : nat) (st : State) : State :=
  let st := visit_Section refs n st in
  let st := visit_nodes ek (visit_entry refs ek) (entries_of st n) st in
  set_entries n (live st ek (entries_of st n)) st.

Definition visit_Segment (refs : Refs) (p : nat) (st : State) : State :=
  let st := set_members p (live st KSection (members_of st p)) st in
  match members_of st p with
  | [] => delete refs (KSegment, p) st
  | _ :: _ => st
  end.

(** [Visitor.visit] on one section: the method found for its class.  The
    base [Visitor] defines [visit_EhdrSection] and [visit_PhdrsSection]
    (both [pass]); [PurgeDeleted] does not override them. *)
Definition visit_section_node (refs : Refs) (n : nat) (st : State) : State :=
  match sec_cls refs n with
  | EhdrSection_ | PhdrsSection_ => st
  | c =>
    match entry_kind c with
    | Some ek => visit_EntrySection refs ek n st
    | None => visit_Section refs n st
    end
  end.

(** One round of the [while self.again] loop of [visit_Elf]. *)
Definition round (refs : Refs) (st : State) : State :=
  let st := set_again false st in
  let st := visit_nodes KSection (visit_section_node refs) (elf_sections st) st in
  let st := visit_nodes KSegment (visit_Segment refs) (elf_segments st) st in
  mkState (deleted_nodes st) (sec_entries st) (seg_members st)
    (live st KSection (elf_sections st)) (live st KSegment (elf_segments st)) (again st).

Fixpoint loop (refs : Refs) (fuel : nat) (st : State) : option State :=
  match fuel with
  | O => None
  | S f =>
    let st := round refs st in
    if again st then loop refs f st else Some st
  end.

(** The nodes the pass can reach: the sections and segments of the [Elf]
    and the entries of its sections. *)
Definition universe (refs : Refs) (st : State) : list NodeId :=
  ((fun n => (KSection, n)) <$> elf_sections st)
  ++ ((fun p => (KSegment, p)) <$> elf_segments st)
  ++ (elf_sections st ≫= fun n =>
        match entry_kind (sec_cls refs n) with
        | Some ek => (fun e => (ek, e)) <$> entries_of st n
        | None => []
        end).

(** Each round but the last deletes a live node of the universe, so one
    round more than there are live nodes always suffices. *)
Definition rounds (refs : Refs) (st : State) : nat :=
  S (base.size (list_to_set (universe refs st) ∖ deleted_nodes st : gset NodeId)).

(** [visit_Elf]; [None] would mean that the loop ran out of rounds. *)
Definition visit_Elf (refs : Refs) (st : State) : option State :=
  loop refs (rounds refs st) st.

End PurgeDeleted.

(** ** [elfmodel.ReadData.visit_ArmAttributesSection]

    From the bytes read into [section.data] to [section.tags.get("CPU_name")].
    [section.tags] is set to the empty dict first and written only by the
    last line. *)

Module ReadData.

Definition visit_ArmAttributesSection (data : bytes) : result (option pystr) :=
  if len data =? 0 then Ok None
  else
    b ← py_index data 0;
    if negb (b =? 0x41) then Ok None
    else
      let data := py_slice_from data 1 in
      let size := from_bytes_little (py_slice_to data 4) in
      let data := py_slice data 4 size in
      size ← index_from data 0 0;
      if negb (list_eqb (py_slice_to data size) (lit "aeabi")) then Ok None
      else
        let data := py_slice_from data (size + 1) in
        b ← py_index data 0;
        if negb (b =? 1) then Ok None
        else
          let data := py_slice_from data 1 in
          let size := from_bytes_little (py_slice_to data 4) in
          let data := py_slice data 4 size in
          b ← py_index data 0;
          if negb (b =? 5) then Ok None
          else
            let data := py_slice_from data 1 in
            size ← index_from data 0 0;
            name ← utf8_decode (py_slice_to data size);
            Ok (Some name).

End ReadData.

(** ** [mkextmod.py] *)

Module Rel.
Record t : Type := mk { r_offset : Z; r_info : Z }.
Definition r_type (r : t) : Z := elf32.R_TYPE (r_info r).
End Rel.

Module Rela.
Record t : Type := mk { r_offset : Z; r_info : Z; r_addend : Z }.
Definition r_type (r : t) : Z := elf32.R_TYPE (r_info r).
Definition r_sym (r : t) : Z := elf32.R_SYM (r_info r).
End Rela.

Module mkextmod.

(** The identity of a [Symbol] object: one read from the input, or one
    created by [mk_dyn]. *)
Inductive Ident : Type :=
| Loaded (n : nat)
| Created (n : nat).

#[global] Instance Ident_eq_dec : EqDecision Ident.
Proof. solve_decision. Defined.

#[global] Instance Ident_countable : Countable Ident.
Proof.
  apply (inj_countable'
    (fun i => match i with Loaded n => inl n | Created n => inr n end)
    (fun s => match s with inl n => Loaded n | inr n => Created n end)).
  intros []; reflexivity.
Defined.

Record Sym : Type := mkSym {
  st_name : Z;
  st_value : Z;
  st_size : Z;
  st_info : Z;
  st_other : Z;
  st_shndx : Z
}.

Definition st_bind (s : Sym) : Z := elf32.ST_BIND (st_info s).
Definition st_type (s : Sym) : Z := Z.land (st_info s) 0xF.
Definition st_visibility (s : Sym) : Z := elf32.ST_VISIBILITY (st_other s).
Definition STT_SECTION : Z := 3.

(** A [Symbol]: [section] is the section object the symbol resolves to
    (the loops below only read it), [name] may be [None]. *)
Record Symbol : Type := mkSymbol {
  ident : Ident;
  name : option pystr;
  section : option Section;
  struct : Sym
}.

Record Relocation : Type := mkRelocation {
  rel_symbol : Symbol;
  rel_struct : Rel.t
}.

Record RelocationWithAddend : Type := mkRelocationWithAddend {
  rela_symbol : Symbol;
  rela_struct : Rela.t
}.

(** The sections a late-bound [DynEntry] value captures. *)
Inductive DynTarget : Type := dynhash | dynstr | dynsym | dynrela | dynrel.

(** [DynEntry.value]: [None], a string, or one of the two shapes of
    lambda the script builds. *)
Inductive DynValue : Type :=
| VNone
| VStr (s : pystr)
| VAddrOf (t : DynTarget)
| VSizeOf (t : DynTarget).

Record DynEntry : Type := mkDynEntry {
  d_tag : Z;
  d_val : Z;
  value : DynValue
}.

(** What the script builds: [dynsym.symbols], the [dyn] attribute of the
    symbols (by identity), [dynrela.relocs], [dynrel.relocs],
    [dynamic.dyns], and the input [SHT_REL] sections marked deleted (by
    position among them). *)
Record State : Type := mkState {
  next_ident : nat;
  dyn : gmap Ident Symbol;
  dynsym_symbols : list Symbol;
  dynrela_relocs : list RelocationWithAddend;
  dynrel_relocs : list Relocation;
  dynamic_dyns : list DynEntry;
  deleted_rel : list nat
}.

(** An input [SHT_SYMTAB] section: its [symbols]. *)
Abbreviation SymtabIn := (list Symbol).

(** An input [SHT_REL] section: [section.info], [section.link.symbols]
    and [section.relocs]. *)
Record RelIn : Type := mkRelIn {
  info : option Section;
  link_symbols : option (list Symbol);
  relocs : list Relocation
}.

(** What the script reads: the CPU name found in [.ARM.attributes], the
    symbol tables, the [SHT_REL] sections, [os.path.basename(module_name)]
    and [args.dyn_entries] with each tag already through [int(tag, 16)]. *)
Record Input : Type := mkInput {
  cpu_name : option pystr;
  symtabs : list SymtabIn;
  reltabs : list RelIn;
  soname : pystr;
  dyn_entries : option (list (Z * pystr))
}.

Definition cpu_config (cpu : option pystr) : result Z :=
  match cpu with
  | None => Raise ValueError
  | Some n =>
    if list_eqb n (lit "6S-M") then Ok 12
    else if list_eqb n (lit "8-M.MAIN") then Ok 4
    else Raise ValueError
  end.

(** The sections created before the loops: [dynsym] holds the null symbol,
    the relocation sections and [dynamic] are empty. *)
Definition init : State :=
  mkState 1 ∅ [mkSymbol (Created 0) None None (mkSym 0 0 0 0 0 0)] [] [] [] [].

Definition mk_dyn (sym : Symbol) (st : State) : State * Symbol :=
  match dyn st !! ident sym with
  | Some d => (st, d)
  | None =>
    let s := struct sym in
    let dsym :=
      mkSymbol (Created (next_ident st)) (name sym) (section sym)
        (mkSym 0 (c_uint32 (st_value s)) (c_uint32 (st_size s))
           (c_ubyte (st_info s)) (c_ubyte (st_other s))
           (c_uint16 (match section sym with
                      | Some _ => st_shndx s
                      | None => elf32.SHN_UNDEF
                      end))) in
    (mkState (S (next_ident st)) (<[ident sym := dsym]> (dyn st))
       (dynsym_symbols st ++ [dsym]) (dynrela_relocs st) (dynrel_relocs st)
       (dynamic_dyns st) (deleted_rel st),
     dsym)
  end.

Definition append_rela (r : RelocationWithAddend) (st : State) : State :=
  mkState (next_ident st) (dyn st) (dynsym_symbols st) (dynrela_relocs st ++ [r])
    (dynrel_relocs st) (dynamic_dyns st) (deleted_rel st).

Definition append_dyn (d : DynEntry) (st : State) : State :=
  mkState (next_ident st) (dyn st) (dynsym_symbols st) (dynrela_relocs st)
    (dynrel_relocs st) (dynamic_dyns st ++ [d]) (deleted_rel st).

Definition delete_rel (i : nat) (st : State) : State :=
  mkState (next_ident st) (dyn st) (dynsym_symbols st) (dynrela_relocs st)
    (dynrel_relocs st) (dynamic_dyns st) (deleted_rel st ++ [i]).

(** [section.get_all_symbols(name)] *)
Definition get_all_symbols (symbols : list Symbol) (n : pystr) : list Symbol :=
  filter (fun st => name st = Some n) symbols.

(** [section.data[off : off + 4]] read as a little-endian integer; [data]
    being [None] is a [TypeError]. *)
Definition read_word (sec : Section) (off : Z) : result Z :=
  match data sec with
  | Some d => Ok (from_bytes_little (py_slice d off (off + 4)))
  | None => Raise TypeError
  end.

(** The body of the loop over the symbols of a [SHT_SYMTAB] section
    (lines 94-129). *)
Definition promote (sym_offset : Z) (symbols : SymtabIn) (st : State) (sym : Symbol) : result State :=
  match section sym with
  | None => Ok st
  | Some sec =>
    let s := struct sym in
    let st :=
      if negb (st_bind s =? elf32.STB_LOCAL) && (st_visibility s =? elf32.STV_DEFAULT)
      then (mk_dyn sym st).1 else st in
    match name sym with
    | None => Raise AttributeError
    | Some n =>
      if startswith n (lit "__") && endswith n (lit "_veneer") then
        _ ← assert (sym_offset + 4 <=? st_size s);
        let r_offset := Z.land (st_value s) 0xFFFFFFFE + sym_offset in
        let file_offset := r_offset - sh_addr sec in
        real_sym_value ← read_word sec file_offset;
        let real_sym_name := py_slice n 2 (-7) in
        let real_sym :=
          filter (fun x => st_value (struct x) = real_sym_value)
            (get_all_symbols symbols real_sym_name) in
        match real_sym with
        | [] => Raise ValueError
        | rs :: _ =>
          let '(st, d) := mk_dyn rs st in
          Ok (append_rela
                (mkRelocationWithAddend d
                   (Rela.mk (c_uint32 r_offset)
                      (c_uint32 (elf32.R_INFO (elf32.R_SYM 0) elf32.R_ARM_ABS32))
                      (c_int32 0)))
                st)
        end
      else Ok st
    end
  end.

(** A [for] loop whose body may raise. *)
Fixpoint for_each {A St} (body : St → A → result St) (l : list A) (st : St) : result St :=
  match l with
  | [] => Ok st
  | x :: r => st' ← body st x; for_each body r st'
  end.

Definition promote_symtab (sym_offset : Z) (st : State) (symbols : SymtabIn) : result State :=
  for_each (promote sym_offset symbols) symbols st.

Definition is_abs (r_type : Z) : bool :=
  (r_type =? elf32.R_ARM_ABS32) || (r_type =? elf32.R_ARM_TARGET1).

Definition is_thm (r_type : Z) : bool :=
  (r_type =? elf32.R_ARM_THM_PC22) || (r_type =? elf32.R_ARM_THM_JUMP24).

Definition decode_addend (r_type insn : Z) : result Z :=
  if is_abs r_type then Ok insn
  else if r_type =? elf32.R_ARM_PREL31 then
    let insn := Z.land insn 0x7FFFFFFF in
    Ok (if negb (Z.land insn 0x40000000 =? 0) then insn - 0x80000000 else insn)
  else if is_thm r_type then
    let insn :=
      Z.lor (Z.shiftl (Z.land insn 0x7FF) 11) (Z.shiftr (Z.land insn 0x7FF0000) 16) in
    let insn := if negb (Z.land insn 0x200000 =? 0) then insn - 0x400000 else insn in
    Ok (insn * 2)
  else Raise ValueError.

Definition undo_relocation (r_type S P A : Z) : result Z :=
  if is_abs r_type then Ok (A - S)
  else if is_thm r_type || (r_type =? elf32.R_ARM_PREL31) then
    let S := Z.land S (-2) in
    Ok (A - (S - P))
  else Raise ValueError.

(** [f"__{sym.name}_veneer"] *)
Definition veneer_name (sym : Symbol) : pystr :=
  lit "__" ++ default (lit "None") (name sym) ++ lit "_veneer".

(** The body of the loop over [section.relocs] (lines 177-235). *)
Definition convert (sec : RelIn) (target : Section) (st : State) (rel : Relocation) : result State :=
  let r := rel_struct rel in
  let r_type := Rel.r_type r in
  let r_offset := Rel.r_offset r in
  let sym := rel_symbol rel in
  if st_shndx (struct sym) =? elf32.STN_UNDEF then Ok st
  else
    sym ←
      (if is_thm r_type
          && negb (Z.shiftr (st_value (struct sym)) 28 =? Z.shiftr r_offset 28)
       then
         match link_symbols sec with
         | None => Raise AttributeError
         | Some symbols =>
           match filter (fun x => name x = Some (veneer_name sym)) symbols with
           | [] => Raise ValueError
           | v :: _ => Ok v
           end
         end
       else Ok sym);
    _ ←
      (if is_abs r_type || is_thm r_type || (r_type =? elf32.R_ARM_PREL31) then Ok tt
       else
         match section sym with
         | None => if st_type (struct sym) =? STT_SECTION
                   then Raise AttributeError else Raise ValueError
         | Some _ => Raise ValueError
         end);
    let file_offset := r_offset - sh_addr target in
    insn ← read_word target file_offset;
    addend ← decode_addend r_type insn;
    addend ← undo_relocation r_type (st_value (struct sym)) r_offset addend;
    let emit :=
      let '(st, d) := mk_dyn sym st in
      append_rela
        (mkRelocationWithAddend d
           (Rela.mk (c_uint32 r_offset) (c_uint32 (Rel.r_info r)) (c_int32 addend)))
        st in
    match section sym with
    | Some _ =>
      if is_abs r_type then Ok emit
      else if is_thm r_type || (r_type =? elf32.R_ARM_PREL31) then
        _ ← assert (Z.shiftr (st_value (struct sym)) 28 =? Z.shiftr r_offset 28);
        Ok st
      else Raise ValueError
    | None =>
      _ ← (if is_thm r_type then assert (Z.abs addend <? 0x00400000) else Ok tt);
      Ok emit
    end.

(** The body of the loop over the [SHT_REL] sections (lines 173-237);
    [i] is the position of the section among them. *)
Definition convert_section (st : State) (isec : nat * RelIn) : result State :=
  let '(i, sec) := isec in
  match info sec with
  | None => Raise AttributeError
  | Some target =>
    if negb (has_flag (sh_flags target) elf32.SHF_ALLOC) then Ok (delete_rel i st)
    else
      st ← for_each (convert sec target) (relocs sec) st;
      Ok (delete_rel i st)
  end.

Definition get_first_symbol (symbols : list Symbol) (n : pystr) : option Symbol :=
  head (get_all_symbols symbols n).

(** [DynEntry(d_tag=..., d_val=... / d_ptr=..., value=...)] *)
Definition DynEntry_ (tag val : Z) (v : DynValue) : DynEntry :=
  mkDynEntry (c_int32 tag) (c_uint32 val) v.

(** Lines 279-283, one [--entry] pair. *)
Definition user_entry (st : State) (e : Z * pystr) : result State :=
  match get_first_symbol (dynsym_symbols st) e.2 with
  | Some symbol => Ok (append_dyn (DynEntry_ e.1 (st_value (struct symbol)) VNone) st)
  | None => Ok st
  end.

(** Lines 240-285: the entries of [.dynamic]. *)
Definition dynamic_entries (inp : Input) (st : State) : result State :=
  let st := append_dyn (DynEntry_ elf32.DT_HASH 0 (VAddrOf dynhash)) st in
  let st := append_dyn (DynEntry_ elf32.DT_STRTAB 0 (VAddrOf dynstr)) st in
  let st := append_dyn (DynEntry_ elf32.DT_SYMTAB 0 (VAddrOf dynsym)) st in
  let st :=
    if negb (len (dynrela_relocs st) =? 0) then
      let st := append_dyn (DynEntry_ elf32.DT_RELA 0 (VAddrOf dynrela)) st in
      let st := append_dyn (DynEntry_ elf32.DT_RELAENT elf32.sizeof_Rela VNone) st in
      append_dyn (DynEntry_ elf32.DT_RELASZ 0 (VSizeOf dynrela)) st
    else st in
  let st := append_dyn (DynEntry_ elf32.DT_STRSZ 0 (VSizeOf dynstr)) st in
  let st := append_dyn (DynEntry_ elf32.DT_SYMENT elf32.sizeof_Sym VNone) st in
  let st := append_dyn (DynEntry_ elf32.DT_SONAME 0 (VStr (soname inp))) st in
  let st :=
    if negb (len (dynrel_relocs st) =? 0) then
      let st := append_dyn (DynEntry_ elf32.DT_REL 0 (VAddrOf dynrel)) st in
      let st := append_dyn (DynEntry_ elf32.DT_RELENT elf32.sizeof_Rel VNone) st in
      append_dyn (DynEntry_ elf32.DT_RELSZ 0 (VSizeOf dynrel)) st
    else st in
  let st :=
    append_dyn (DynEntry_ elf32.DT_FLAGS (Z.lor elf32.DF_BIND_NOW elf32.DF_TEXTREL) VNone) st in
  let st :=
    match get_first_symbol (dynsym_symbols st) (lit "__dl_init") with
    | Some init => append_dyn (DynEntry_ elf32.DT_INIT (st_value (struct init)) VNone) st
    | None => st
    end in
  let st :=
    match get_first_symbol (dynsym_symbols st) (lit "__dl_fini") with
    | Some fini => append_dyn (DynEntry_ elf32.DT_FINI (st_value (struct fini)) VNone) st
    | None => st
    end in
  match dyn_entries inp with
  | None => Raise TypeError
  | Some l =>
    st ← for_each user_entry l st;
    Ok (append_dyn (DynEntry_ 0 0 VNone) st)
  end.

(** The script from the CPU lookup (line 41) to the last dynamic entry
    (line 285). *)
Definition main (inp : Input) : result State :=
  sym_offset ← cpu_config (cpu_name inp);
  st ← for_each (promote_symtab sym_offset) (symtabs inp) init;
  st ← for_each convert_section (imap (fun i s => (i, s)) (reltabs inp)) st;
  dynamic_entries inp st.

(** [dynrel.size], the [EntrySection.size] of [.rel.dyn]. *)
Definition dynrel_size (st : State) : Z :=
  len (dynrel_relocs st) * elf32.sizeof_Rel.

End mkextmod.

(** ** [elf.py]: the packed fields [st_info] and [r_info] *)

Module elf.

Definition ST_TYPE (info : Z) : Z := Z.land info 0xF.

(** [ST_INFO] returns a [c_ubyte]; stored in the [st_info] field it is the
    value reduced to 8 bits. *)
Definition ST_INFO (bind type : Z) : Z :=
  c_ubyte (Z.lor (Z.shiftl bind 4) (Z.land type 0xF)).

(** The property setters of [Sym]. *)
Definition Sym_set_st_bind (value : Z) (s : mkextmod.Sym) : mkextmod.Sym :=
  mkextmod.mkSym (mkextmod.st_name s) (mkextmod.st_value s) (mkextmod.st_size s)
    (ST_INFO value (ST_TYPE (mkextmod.st_info s)))
    (mkextmod.st_other s) (mkextmod.st_shndx s).

Definition Sym_set_st_type (value : Z) (s : mkextmod.Sym) : mkextmod.Sym :=
  mkextmod.mkSym (mkextmod.st_name s) (mkextmod.st_value s) (mkextmod.st_size s)
    (ST_INFO (elf32.ST_BIND (mkextmod.st_info s)) value)
    (mkextmod.st_other s) (mkextmod.st_shndx s).

Definition Sym_set_st_visibility (value : Z) (s : mkextmod.Sym) : mkextmod.Sym :=
  mkextmod.mkSym (mkextmod.st_name s) (mkextmod.st_value s) (mkextmod.st_size s)
    (mkextmod.st_info s) (c_ubyte value) (mkextmod.st_shndx s).

(** The property setters of [Rel] and [Rela]: [r_info] is a [Word]. *)
Definition Rel_r_sym (r : Rel.t) : Z := elf32.R_SYM (Rel.r_info r).

Definition Rel_set_r_sym (value : Z) (r : Rel.t) : Rel.t :=
  Rel.mk (Rel.r_offset r) (c_uint32 (elf32.R_INFO value (Rel.r_type r))).

Definition Rel_set_r_type (value : Z) (r : Rel.t) : Rel.t :=
  Rel.mk (Rel.r_offset r) (c_uint32 (elf32.R_INFO (Rel_r_sym r) value)).

Definition Rela_set_r_sym (value : Z) (r : Rela.t) : Rela.t :=
  Rela.mk (Rela.r_offset r) (c_uint32 (elf32.R_INFO value (Rela.r_type r)))
    (Rela.r_addend r).

Definition Rela_set_r_type (value : Z) (r : Rela.t) : Rela.t :=
  Rela.mk (Rela.r_offset r) (c_uint32 (elf32.R_INFO (Rela.r_sym r) value))
    (Rela.r_addend r).

End elf.

(** ** [mkextmod.py]: the footer of the module *)

(** [x.to_bytes(n, "little")]; [None] is the [OverflowError] of a negative
    or too large [x]. *)
Fixpoint le_bytes (n : nat) (x : Z) : bytes :=
  match n with
  | O => []
  | S k => x mod 256 :: le_bytes k (x / 256)
  end.

Definition to_bytes_little (n : nat) (x : Z) : option bytes :=
  if (x <? 0) || (256 ^ Z.of_nat n <=? x) then None else Some (le_bytes n x).

(** [footer.data]: the physical address of the program headers and its
    one's complement, four bytes each. *)
Definition footer_data (phdr_addr : Z) : option bytes :=
  a ← to_bytes_little 4 phdr_addr;
  b ← to_bytes_little 4 (Z.land (Z.lnot phdr_addr) 0xFFFFFFFF);
  Some (a ++ b).

(** ** [elfmodel.IndexNodes]

    The pass numbers the sections and the symbols and puts symbols and
    relocations in their final order. *)

Module IndexNodes.

(** [list.sort(key=f)]: the built-in sort is stable and ascending.  It is
    not code of the repository; it is embedded as the stable insertion sort,
    which returns the one list that is sorted by key, a permutation of the
    input and keeps elements of equal key in their order. *)
Section sort.
Context {A : Type} (key : A → Z).

Fixpoint insert (x : A) (l : list A) : list A :=
  match l with
  | [] => [x]
  | y :: r => if key x <=? key y then x :: y :: r else y :: insert x r
  end.

Definition sort (l : list A) : list A := foldr insert [] l.

End sort.

(** A symbol as the pass sees it: the [deleted] flag, the two fields of
    the struct it reads and the [index] attribute it sets. *)
Record Symbol : Type := mkSymbol {
  sym_deleted : bool;
  st_info : Z;
  st_value : Z;
  sym_index : option Z
}.

(** A relocation ([Relocation] or [RelocationWithAddend]). *)
Record Reloc : Type := mkReloc {
  rel_deleted : bool;
  r_offset : Z;
  r_info : Z
}.

Record Section : Type := mkSection {
  cls : SectionClass;
  deleted : bool;
  index : option Z;
  sh_info : Z;
  symbols : list Symbol;
  relocs : list Reloc
}.

(** [elffile]: the two counts of the header, the sections and
    [len(elffile.segments)]. *)
Record Elf : Type := mkElf {
  e_phnum : Z;
  e_shnum : Z;
  sections : list Section;
  segments : nat
}.

Definition st_bind (st : Symbol) : Z := elf32.ST_BIND (st_info st).

(** [visit_Symbol] over [section.symbols] with a counter from 0: the
    symbols that are not deleted take the next number. *)
Fixpoint visit_symbols (c : Z) (l : list Symbol) : list Symbol :=
  match l with
  | [] => []
  | st :: r =>
    if sym_deleted st then st :: visit_symbols c r
    else mkSymbol (sym_deleted st) (st_info st) (st_value st) (Some c)
           :: visit_symbols (c + 1) r
  end.

Definition visit_Section (c : Z) (s : Section) : Z * Section :=
  (c + 1, mkSection (cls s) (deleted s) (Some c) (sh_info s) (symbols s) (relocs s)).

Definition visit_SymtabSection (c : Z) (s : Section) : Z * Section :=
  let '(c, s) := visit_Section c s in
  let local_symbols :=
    filter (fun st => st_bind st = elf32.STB_LOCAL) (symbols s) in
  let nonlocal_symbols :=
    filter (fun st => st_bind st ≠ elf32.STB_LOCAL) (symbols s) in
  let local_symbols := sort st_value local_symbols in
  let nonlocal_symbols := sort st_value nonlocal_symbols in
  (c, mkSection (cls s) (deleted s) (index s) (c_uint32 (len local_symbols))
        (visit_symbols 0 (local_symbols ++ nonlocal_symbols)) (relocs s)).

(** [visit_RelSection]; [visit_RelaSection] calls it.  The visit of the
    sorted relocations reaches the inherited [visit_Relocation], a [pass]. *)
Definition visit_RelSection (c : Z) (s : Section) : Z * Section :=
  let '(c, s) := visit_Section c s in
  (c, mkSection (cls s) (deleted s) (index s) (sh_info s) (symbols s)
        (sort r_offset (relocs s))).

(** [Visitor.visit] on one section.  The two pseudo-sections reach the
    inherited [visit_EhdrSection] and [visit_PhdrsSection], both [pass]; a
    [DynamicSection] reaches [visit_Section] through
    [Visitor.visit_EntrySection]. *)
Definition visit (c : Z) (s : Section) : Z * Section :=
  match cls s with
  | EhdrSection_ | PhdrsSection_ => (c, s)
  | SymtabSection_ => visit_SymtabSection c s
  | RelSection_ | RelaSection_ => visit_RelSection c s
  | _ => visit_Section c s
  end.

Fixpoint visit_sections (c : Z) (l : list Section) : Z * list Section :=
  match l with
  | [] => (c, [])
  | s :: r =>
    if deleted s then
      let '(c', r') := visit_sections c r in (c', s :: r')
    else
      let '(c1, s') := visit c s in
      let '(c2, r') := visit_sections c1 r in (c2, s' :: r')
  end.

Definition visit_Elf (elffile : Elf) : Elf :=
  let '(c, secs) := visit_sections 0 (sections elffile) in
  mkElf (c_uint16 (Z.of_nat (segments elffile))) (c_uint16 c) secs (segments elffile).

End IndexNodes.

(** ** [elfmodel.ComputeSegments]

    The pass derives the program header of each segment from the sections
    the segment holds, after addresses and offsets are computed. *)

Module ComputeSegments.

(** Constants of [elf32] the pass uses. *)
Definition SHF_EXECINSTR : Z := 4.
Definition PF_X : Z := 1.
Definition PF_W : Z := 2.
Definition PF_R : Z := 4.

(** A segment: the [fixed] flag, the fields of its [Phdr] the pass reads or
    writes, and [segment.sections]. *)
(** [section.fixed] *)
Definition section_fixed (section : Section) : bool := fixed section.

Record Segment : Type := mkSegment {
  fixed : bool;
  p_offset : Z;
  p_vaddr : Z;
  p_paddr : Z;
  p_filesz : Z;
  p_memsz : Z;
  p_flags : Z;
  p_align : Z;
  sections : list Section
}.

(** The body of the loop for one section. *)
Definition visit_member (segment : Segment) (section : Section) : result Segment :=
  if negb (fixed segment) then
    _ ← assert (p_offset segment + p_filesz segment <=? sh_offset section);
    let filesz := c_uint32 (sh_offset section + psize section - p_offset segment) in
    p ← get_paddr section;
    _ ← assert (p_paddr segment + p_memsz segment <=? p);
    _ ← assert (p_vaddr segment + p_memsz segment <=? sh_addr section);
    let memsz := c_uint32 (sh_addr section + size section - p_vaddr segment) in
    let flags := p_flags segment in
    let flags :=
      if has_flag (sh_flags section) elf32.SHF_WRITE
      then c_uint32 (Z.lor flags PF_W) else flags in
    let flags :=
      if has_flag (sh_flags section) SHF_EXECINSTR
      then c_uint32 (Z.lor flags PF_X) else flags in
    let align := c_uint32 (Z.max (p_align segment) (sh_addralign section)) in
    Ok (mkSegment (fixed segment) (p_offset segment) (p_vaddr segment) (p_paddr segment)
          filesz memsz flags align (sections segment))
  else
    _ ← assert (section_fixed section);
    Ok segment.

(** [for section in segment.sections] *)
Fixpoint visit_members (segment : Segment) (l : list Section) : result Segment :=
  match l with
  | [] => Ok segment
  | section :: r =>
    segment ← visit_member segment section;
    visit_members segment r
  end.

Definition visit_Segment (segment : Segment) : result Segment :=
  section0 ← py_index (sections segment) 0;
  let segment :=
    mkSegment (fixed segment) (c_uint32 (sh_offset section0)) (p_vaddr segment)
      (p_paddr segment) (p_filesz segment) (p_memsz segment) (p_flags segment)
      (p_align segment) (sections segment) in
  segment ←
    (if negb (fixed segment) then
       p ← get_paddr section0;
       Ok (mkSegment (fixed segment) (p_offset segment) (c_uint32 (sh_addr section0))
             (c_uint32 p) 0 0 PF_R 1 (sections segment))
     else Ok segment);
  visit_members segment (sections segment).

End ComputeSegments.

(** * Theorems *)


Lemma land_pred_pow2 a :
  0 < a → Z.land a (a - 1) = 0 → ∃ k, 0 ≤ k ∧ a = 2 ^ k.
Proof.
  intros Ha Hl. exists (Z.log2 a). split; [apply Z.log2_nonneg|].
  destruct (Z.log2_spec a Ha) as [Hlo Hhi].
  destruct (Z.eq_dec a (2 ^ Z.log2 a)) as [|Hne]; [done|]. exfalso.
  assert (Hb1 : Z.testbit a (Z.log2 a) = true) by (apply Z.bit_log2; lia).
  assert (Hlog : Z.log2 (a - 1) = Z.log2 a).
  { apply Z.log2_unique; [apply Z.log2_nonneg|]. rewrite Z.pow_succ_r in Hhi by apply Z.log2_nonneg.
    rewrite Z.pow_succ_r by apply Z.log2_nonneg. lia. }
  assert (Hb2 : Z.testbit (a - 1) (Z.log2 a) = true).
  { rewrite <- Hlog. apply Z.bit_log2.
    pose proof (Z.pow_pos_nonneg 2 (Z.log2 a) ltac:(lia) (Z.log2_nonneg a)). lia. }
  assert (Hb : Z.testbit (Z.land a (a - 1)) (Z.log2 a) = true)
    by (rewrite Z.land_spec, Hb1, Hb2; done).
  rewrite Hl, Z.bits_0 in Hb. done.
Qed.

Lemma land_lnot_pow2 x k :
  0 ≤ k → Z.land x (Z.lnot (2 ^ k - 1)) = 2 ^ k * (x / 2 ^ k).
Proof.
  intros Hk. rewrite <- Z.ldiff_land.
  replace (2 ^ k - 1) with (Z.ones k) by (rewrite Z.ones_equiv; lia).
  rewrite Z.ldiff_ones_r by done.
  rewrite Z.shiftl_mul_pow2, Z.shiftr_div_pow2 by done. lia.
Qed.

Lemma align_Ok address alignment v :
  align address alignment = Ok v →
  0 < alignment ∧ (∃ k, 0 ≤ k ∧ alignment = 2 ^ k)
  ∧ v = alignment * ((address + alignment - 1) / alignment).
Proof.
  unfold align, assert. 
  destruct (0 <? alignment) eqn:H1; [|done].
  destruct (Z.land alignment (alignment - 1) =? 0) eqn:H2; [|done].
  cbn. intros [= <-].
  apply Z.ltb_lt in H1. apply Z.eqb_eq in H2.
  destruct (land_pred_pow2 _ H1 H2) as (k & Hk & ->).
  split; [done|]. split; [eauto|]. by apply land_lnot_pow2.
Qed.

Lemma align_bounds address alignment v :
  align address alignment = Ok v →
  address ≤ v < address + alignment ∧ (alignment | v).
Proof.
  intros H. apply align_Ok in H as (Ha & _ & ->).
  split; [|by apply Z.divide_factor_l].
  pose proof (Z.div_mod (address + alignment - 1) alignment ltac:(lia)).
  pose proof (Z.mod_pos_bound (address + alignment - 1) alignment Ha). lia.
Qed.

Lemma align_Raise address alignment :
  alignment ≤ 0 ∨ Z.land alignment (alignment - 1) ≠ 0 →
  align address alignment = Raise AssertionError.
Proof.
  unfold align, assert. intros [H|H].
  - destruct (0 <? alignment) eqn:E; [apply Z.ltb_lt in E; lia|done].
  - destruct (0 <? alignment); [|done].
    destruct (Z.land alignment (alignment - 1) =? 0) eqn:E; [apply Z.eqb_eq in E; done|done].
Qed.

Lemma align_result address alignment :
  (∃ v, align address alignment = Ok v) ∨ align address alignment = Raise AssertionError.
Proof.
  unfold align, assert.
  destruct (0 <? alignment); [|by right].
  destruct (Z.land alignment (alignment - 1) =? 0); [|by right].
  left. eauto.
Qed.


(** ** Binary search *)

Section bisect.
Context {A : Type} (go_right : A → bool) (a : list A).

Lemma bisect_loop_O lo hi : bisect_loop go_right a 0 lo hi = lo.
Proof. reflexivity. Qed.

Lemma bisect_loop_S fuel lo hi :
  bisect_loop go_right a (S fuel) lo hi =
  if (lo <? hi)%nat then
    match a !! ((lo + hi) / 2)%nat with
    | Some y =>
      if go_right y then bisect_loop go_right a fuel (S ((lo + hi) / 2)) hi
      else bisect_loop go_right a fuel lo ((lo + hi) / 2)%nat
    | None => lo
    end
  else lo.
Proof. reflexivity. Qed.

Lemma bisect_loop_spec fuel lo hi :
  (lo ≤ hi)%nat → (hi ≤ length a)%nat → (hi - lo ≤ fuel)%nat →
  (lo = 0%nat ∨ ∃ y, a !! (lo - 1)%nat = Some y ∧ go_right y = true) →
  (hi = length a ∨ ∃ y, a !! hi = Some y ∧ go_right y = false) →
  let r := bisect_loop go_right a fuel lo hi in
  (lo ≤ r ≤ hi)%nat
  ∧ (r = 0%nat ∨ ∃ y, a !! (r - 1)%nat = Some y ∧ go_right y = true)
  ∧ (r = length a ∨ ∃ y, a !! r = Some y ∧ go_right y = false).
Proof.
  revert lo hi. induction fuel as [|f IH]; intros lo hi Hle Hhi Hf Hl Hr r; subst r.
  - rewrite bisect_loop_O. assert (lo = hi) as -> by lia. split; [lia|]. split; assumption.
  - rewrite bisect_loop_S. destruct (lo <? hi)%nat eqn:E.
    + apply Nat.ltb_lt in E.
      pose proof (Nat.div_mod_eq (lo + hi) 2) as Hd.
      pose proof (Nat.mod_upper_bound (lo + hi) 2 ltac:(lia)) as Hm.
      set (mid := ((lo + hi) / 2)%nat) in *.
      assert (lo ≤ mid < hi)%nat as [Hm1 Hm2] by lia.
      destruct (lookup_lt_is_Some_2 a mid ltac:(lia)) as [y Hy].
      rewrite Hy. destruct (go_right y) eqn:Eg.
      * destruct (IH (S mid) hi) as (H1 & H2 & H3); try lia; try done.
        { right. exists y. by replace (S mid - 1)%nat with mid by lia. }
        split; [lia|done].
      * destruct (IH lo mid) as (H1 & H2 & H3); try lia; try done.
        { right. eauto. }
        split; [lia|done].
    + apply Nat.ltb_ge in E. assert (lo = hi) as -> by lia. split; [lia|]. split; assumption.
Qed.

(** [length a] rounds are enough: more fuel gives the same index. *)
Lemma bisect_loop_fuel fuel lo hi :
  (lo ≤ hi)%nat → (hi ≤ length a)%nat → (hi - lo ≤ fuel)%nat →
  bisect_loop go_right a (S fuel) lo hi = bisect_loop go_right a fuel lo hi.
Proof.
  revert lo hi. induction fuel as [|f IH]; intros lo hi Hle Hhi Hf.
  - assert (lo = hi) as -> by lia.
    rewrite bisect_loop_S, bisect_loop_O. by rewrite Nat.ltb_irrefl.
  - rewrite (bisect_loop_S (S f) lo hi), (bisect_loop_S f lo hi).
    destruct (lo <? hi)%nat eqn:E; [|done].
    apply Nat.ltb_lt in E.
    pose proof (Nat.div_mod_eq (lo + hi) 2) as Hd.
    pose proof (Nat.mod_upper_bound (lo + hi) 2 ltac:(lia)) as Hm.
    destruct (a !! ((lo + hi) / 2)%nat) as [y|]; [|done].
    destruct (go_right y); apply IH; lia.
Qed.

End bisect.

Lemma bisect_right_spec {A K} (lt : K → K → bool) (key : A → K) (a : list A) (x : K) :
  let r := bisect_right lt key a x in
  (r ≤ length a)%nat
  ∧ (r = 0%nat ∨ ∃ y, a !! (r - 1)%nat = Some y ∧ lt x (key y) = false)
  ∧ (r = length a ∨ ∃ y, a !! r = Some y ∧ lt x (key y) = true).
Proof.
  unfold bisect_right.
  destruct (bisect_loop_spec (fun y => negb (lt x (key y))) a (length a) 0 (length a))
    as (H1 & H2 & H3); try lia; try (by left).
  split; [lia|]. split.
  - destruct H2 as [|(y & ? & ?%negb_true_iff)]; eauto.
  - destruct H3 as [|(y & ? & ?%negb_false_iff)]; eauto.
Qed.

Lemma bisect_left_le {A K} (lt : K → K → bool) (key : A → K) (a : list A) (x : K) :
  (bisect_left lt key a x ≤ length a)%nat.
Proof.
  unfold bisect_left.
  destruct (bisect_loop_spec (fun y => lt (key y) x) a (length a) 0 (length a))
    as (H1 & _); try lia; by left.
Qed.

Section strtab_groups.
Import StrtabSection.

(** ** Strings *)

Lemma startswith_prefix (s p : list Z) : startswith s p = true ↔ p `prefix_of` s.
Proof.
  revert s. induction p as [|x p IH]; intros [|y s]; cbn.
  - split; [intros _; apply prefix_nil | done].
  - split; [intros _; apply prefix_nil | done].
  - split; [done | intros H; by apply prefix_nil_not in H].
  - rewrite andb_true_iff, Z.eqb_eq, IH. split.
    + intros [-> H]. by apply prefix_cons.
    + intros H. split; [by apply prefix_cons_inv_1 in H | by apply prefix_cons_inv_2 in H].
Qed.

Lemma len_app {A} (a b : list A) : len (a ++ b) = len a + len b.
Proof. unfold len. rewrite length_app. lia. Qed.

Lemma len_nonneg {A} (a : list A) : 0 ≤ len a.
Proof. unfold len. lia. Qed.

Lemma list_eqb_true a b : list_eqb a b = true ↔ a = b.
Proof. unfold list_eqb. apply bool_decide_eq_true. Qed.

Lemma list_eqb_refl a : list_eqb a a = true.
Proof. by apply list_eqb_true. Qed.

(** ** The shape of one [build] step *)

Lemma insort_right_shape (value : list pystr) (s : pystr) :
  ∃ p, insort_right Z.ltb len value s = take p value ++ s :: drop p value
     ∧ (p ≤ length value)%nat
     ∧ (p = 0%nat ∨ ∃ y, value !! (p - 1)%nat = Some y ∧ len y ≤ len s)
     ∧ (p = length value ∨ ∃ y, value !! p = Some y ∧ len s < len y).
Proof.
  exists (bisect_right Z.ltb len value (len s)).
  destruct (bisect_right_spec Z.ltb len value (len s)) as (H1 & H2 & H3).
  split; [done|]. split; [done|]. split.
  - destruct H2 as [|(y & ? & ?%Z.ltb_ge)]; eauto.
  - destruct H3 as [|(y & ? & ?%Z.ltb_lt)]; eauto.
Qed.

Lemma build_step_cases (d : list Group) (s : pystr) :
  (∃ i key value, d !! i = Some (key, value)
     ∧ startswith key (reverse s) = true
     ∧ build_step d s = <[i := (key, insort_right Z.ltb len value s)]> d)
  ∨ (∃ i key value, d !! i = Some (key, value)
     ∧ startswith (reverse s) key = true
     ∧ build_step d s = <[i := (reverse s, insort_right Z.ltb len value s)]> d)
  ∨ (∃ i, build_step d s = list_insert_at i (reverse s, [s]) d).
Proof.
  unfold build_step.
  set (i := bisect_left str_lt fst d (reverse s)).
  assert (Hext :
    (∃ j key value, d !! j = Some (key, value)
       ∧ startswith (reverse s) key = true
       ∧ match (if (0 <? i)%nat then d !! (i - 1)%nat else None) with
         | Some (key, value) =>
           if startswith (reverse s) key
           then <[(i - 1)%nat := (reverse s, insort_right Z.ltb len value s)]> d
           else list_insert_at i (reverse s, [s]) d
         | None => list_insert_at i (reverse s, [s]) d
         end = <[j := (reverse s, insort_right Z.ltb len value s)]> d)
    ∨ match (if (0 <? i)%nat then d !! (i - 1)%nat else None) with
      | Some (key, value) =>
        if startswith (reverse s) key
        then <[(i - 1)%nat := (reverse s, insort_right Z.ltb len value s)]> d
        else list_insert_at i (reverse s, [s]) d
      | None => list_insert_at i (reverse s, [s]) d
      end = list_insert_at i (reverse s, [s]) d).
  { destruct (0 <? i)%nat; [|by right].
    destruct (d !! (i - 1)%nat) as [[key value]|] eqn:E; [|by right].
    destruct (startswith (reverse s) key) eqn:E2; [|by right].
    left. by exists (i - 1)%nat, key, value. }
  destruct (i <? length d)%nat.
  - destruct (d !! i) as [[key value]|] eqn:E.
    + destruct (startswith key (reverse s)) eqn:E2.
      * left. by exists i, key, value.
      * right. destruct Hext as [H|H]; [left; exact H | right; eauto].
    + right. destruct Hext as [H|H]; [left; exact H | right; eauto].
  - right. destruct Hext as [H|H]; [left; exact H | right; eauto].
Qed.

(** ** The groups of [build]: every member is a suffix of the last one *)

Definition good_group (g : Group) : Prop :=
  ∃ longest, last g.2 = Some longest ∧ g.1 = reverse longest
    ∧ Forall (fun s => s `suffix_of` longest) g.2.

Lemma last_insert_middle {A} (l : list A) (p : nat) (x : A) :
  (p < length l)%nat → last (take p l ++ x :: drop p l) = last l.
Proof.
  intros Hp. rewrite last_app_cons.
  destruct (drop p l) as [|y r] eqn:E.
  { apply (f_equal length) in E. rewrite length_drop in E. cbn in E. lia. }
  rewrite last_cons_cons. rewrite <- E.
  rewrite <- (take_drop p l) at 2. rewrite last_app.
  rewrite E. destruct (last (y :: r)) eqn:E2; [done|].
  apply last_None in E2. done.
Qed.

Lemma last_insert_end {A} (l : list A) (p : nat) (x : A) :
  (length l ≤ p)%nat → last (take p l ++ x :: drop p l) = Some x.
Proof.
  intros Hp. rewrite drop_ge by done. rewrite last_snoc. done.
Qed.

Lemma Forall_insert_at {A} (P : A → Prop) (l : list A) (p : nat) (x : A) :
  P x → Forall P l → Forall P (take p l ++ x :: drop p l).
Proof.
  intros Hx Hl. apply Forall_app. split; [by apply Forall_take|].
  constructor; [done | by apply Forall_drop].
Qed.

Lemma suffix_ge_eq (a b : pystr) : a `suffix_of` b → len b ≤ len a → a = b.
Proof.
  intros Hs Hl. apply suffix_length_eq; [done|].
  unfold len in Hl. lia.
Qed.

Lemma good_group_suffix key value s :
  good_group (key, value) → startswith key (reverse s) = true →
  good_group (key, insort_right Z.ltb len value s).
Proof.
  intros (longest & Hlast & Hkey & Hall) Hsw. cbn in *.
  apply startswith_prefix in Hsw. rewrite Hkey in Hsw.
  apply prefix_suffix_reverse in Hsw. rewrite !reverse_involutive in Hsw.
  destruct (insort_right_shape value s) as (p & -> & Hp & Hlo & Hhi).
  exists longest. cbn. split; [|split; [done | by apply Forall_insert_at]].
  destruct (decide (p < length value)%nat) as [Hlt|Hge].
  - by rewrite last_insert_middle.
  - rewrite last_insert_end by lia. f_equal.
    apply suffix_ge_eq; [done|].
    destruct Hlo as [->|(y & Hy & Hle)].
    + assert (length value = 0%nat) as ->%nil_length_inv by lia. done.
    + rewrite last_lookup in Hlast.
      assert (Nat.pred (length value) = (p - 1)%nat) as Heq by lia.
      rewrite Heq in Hlast. pose proof (eq_trans (eq_sym Hlast) Hy) as [= ->]. done.
Qed.

Lemma good_group_extend key value s :
  good_group (key, value) → startswith (reverse s) key = true →
  good_group (reverse s, insort_right Z.ltb len value s).
Proof.
  intros (longest & Hlast & Hkey & Hall) Hsw. cbn in *.
  apply startswith_prefix in Hsw. rewrite Hkey in Hsw.
  apply prefix_suffix_reverse in Hsw. rewrite !reverse_involutive in Hsw.
  destruct (insort_right_shape value s) as (p & -> & Hp & Hlo & Hhi).
  exists s. cbn. split; [|split; [done|]].
  - destruct Hhi as [->|(y & Hy & Hlt)]; [by rewrite last_insert_end|].
    exfalso. rewrite Forall_forall in Hall.
    assert (y `suffix_of` s) as Hys.
    { transitivity longest; [|exact Hsw]. apply Hall. exact (list_elem_of_lookup_2 _ _ _ Hy). }
    apply suffix_length in Hys. unfold len in Hlt. lia.
  - apply Forall_insert_at; [done|].
    eapply Forall_impl; [exact Hall|]. intros x Hx. cbn in Hx.
    transitivity longest; [exact Hx | exact Hsw].
Qed.

Lemma good_group_fresh s : good_group (reverse s, [s]).
Proof. exists s. cbn. split; [done|]. split; [done|]. by constructor. Qed.

Lemma Forall_list_insert_at {A} (P : A → Prop) (l : list A) (i : nat) (x : A) :
  P x → Forall P l → Forall P (list_insert_at i x l).
Proof. apply Forall_insert_at. Qed.

Lemma good_build_step d s : Forall good_group d → Forall good_group (build_step d s).
Proof.
  intros Hd.
  destruct (build_step_cases d s) as
    [(i & key & value & Hi & Hsw & ->)|[(i & key & value & Hi & Hsw & ->)|(i & ->)]].
  - apply Forall_insert; [done|]. apply good_group_suffix; [|done].
    rewrite Forall_forall in Hd. apply Hd. by eapply list_elem_of_lookup_2.
  - apply Forall_insert; [done|]. eapply good_group_extend; [|done].
    rewrite Forall_forall in Hd. apply Hd. by eapply list_elem_of_lookup_2.
  - apply Forall_list_insert_at; [apply good_group_fresh | done].
Qed.

Lemma good_build_groups keys : Forall good_group (build_groups keys).
Proof.
  unfold build_groups.
  assert (H : ∀ d, Forall good_group d → Forall good_group (foldl build_step d keys)).
  { induction keys as [|s keys IH]; intros d Hd; cbn; [done|].
    apply IH. by apply good_build_step. }
  apply H. constructor.
Qed.

(** ** Every registered string is a member of exactly the groups built *)

Definition members (d : list Group) : list pystr := d ≫= snd.

Lemma members_insert d i key value key' value' :
  d !! i = Some (key, value) →
  members (<[i := (key', value')]> d)
  = members (take i d) ++ value' ++ members (drop (S i) d)
  ∧ members d = members (take i d) ++ value ++ members (drop (S i) d).
Proof.
  intros Hi. unfold members. split.
  - rewrite insert_take_drop by (by eapply lookup_lt_Some).
    rewrite !bind_app. done.
  - rewrite <- (take_drop_middle d i (key, value)) at 1 by done.
    rewrite !bind_app. done.
Qed.

Lemma members_insert_at d i g :
  members (list_insert_at i g d) = members (take i d) ++ g.2 ++ members (drop i d)
  ∧ members d = members (take i d) ++ members (drop i d).
Proof.
  unfold members, list_insert_at. split.
  - rewrite bind_app. done.
  - rewrite <- (take_drop i d) at 1. rewrite bind_app. done.
Qed.

Lemma insort_right_perm (value : list pystr) (s : pystr) : insort_right Z.ltb len value s ≡ₚ s :: value.
Proof.
  destruct (insort_right_shape value s) as (p & -> & _).
  rewrite <- Permutation_middle. by rewrite take_drop.
Qed.

Lemma members_build_step d s : members (build_step d s) ≡ₚ s :: members d.
Proof.
  destruct (build_step_cases d s) as
    [(i & key & value & Hi & Hsw & ->)|[(i & key & value & Hi & Hsw & ->)|(i & ->)]].
  - destruct (members_insert d i key value key (insort_right Z.ltb len value s) Hi) as [-> ->].
    rewrite insort_right_perm. cbn. by rewrite <- Permutation_middle.
  - destruct (members_insert d i key value (reverse s) (insort_right Z.ltb len value s) Hi) as [-> ->].
    rewrite insort_right_perm. cbn. by rewrite <- Permutation_middle.
  - destruct (members_insert_at d i (reverse s, [s])) as [-> ->]. cbn.
    by rewrite <- Permutation_middle.
Qed.

Lemma members_build_groups keys : members (build_groups keys) ≡ₚ keys.
Proof.
  unfold build_groups.
  assert (H : ∀ d, members (foldl build_step d keys) ≡ₚ keys ++ members d).
  { induction keys as [|s keys IH]; intros d; cbn; [done|].
    rewrite IH, members_build_step. by rewrite <- Permutation_middle. }
  rewrite H. cbn. by rewrite app_nil_r.
Qed.

End strtab_groups.

Section strtab_emit.
Import StrtabSection.

(** ** ASCII strings and the codec *)

Definition ascii (s : pystr) : Prop := Forall (fun c => 0 < c < 128) s.

Lemma utf8_encode_ascii s : ascii s → utf8_encode s = Ok s.
Proof.
  induction 1 as [|c s Hc _ IH]; [done|].
  cbn. unfold utf8_encode_char.
  destruct (c <? 0) eqn:E1; [apply Z.ltb_lt in E1; lia|].
  destruct (1114111 <? c) eqn:E2; [apply Z.ltb_lt in E2; lia|].
  destruct (c <? 128) eqn:E3; [|apply Z.ltb_ge in E3; lia].
  cbn. rewrite IH. done.
Qed.

Lemma utf8_decode_ascii s : ascii s → utf8_decode s = Ok s.
Proof.
  induction 1 as [|c s Hc _ IH]; [done|].
  cbn. destruct (0 <=? c) eqn:E1; [|apply Z.leb_gt in E1; lia].
  destruct (c <? 128) eqn:E3; [|apply Z.ltb_ge in E3; lia].
  cbn. rewrite IH. done.
Qed.

(** ** Reading a string back from the buffer *)

(** [s], followed by a NUL, sits in [data] at byte offset [off]. *)
Definition at_offset (data : bytes) (off : Z) (s : pystr) : Prop :=
  ∃ pre post, data = pre ++ s ++ 0 :: post ∧ len pre = off.

Lemma at_offset_app data x off s : at_offset data off s → at_offset (data ++ x) off s.
Proof.
  intros (pre & post & -> & Hl). exists pre, (post ++ x). split; [|done].
  by rewrite <- !app_assoc.
Qed.

Lemma slice_bound_id n i : 0 ≤ i ≤ n → slice_bound n i = i.
Proof. intros H. unfold slice_bound. destruct (i <? 0) eqn:E; [apply Z.ltb_lt in E|]; lia. Qed.

Lemma at_offset_slice data off s :
  at_offset data off s →
  0 ≤ off ∧ py_slice data off (off + len s) = s
  ∧ data !! Z.to_nat (off + len s) = Some 0.
Proof.
  intros (pre & post & -> & Hl). subst off. split; [apply len_nonneg|]. split.
  - unfold py_slice. rewrite !len_app.
    pose proof (len_nonneg pre). pose proof (len_nonneg s).
    pose proof (len_nonneg (0 :: post)).
    rewrite !slice_bound_id by lia.
    replace (Z.to_nat (len pre)) with (length pre) by (unfold len; lia).
    rewrite drop_app_length.
    replace (Z.to_nat (len pre + len s - len pre)) with (length s) by (unfold len; lia).
    by rewrite take_app_length.
  - replace (Z.to_nat (len pre + len s)) with (length pre + length s)%nat
      by (unfold len; lia).
    rewrite lookup_app_r by lia. rewrite lookup_app_r by lia.
    by replace (length pre + length s - length pre - length s)%nat with 0%nat by lia.
Qed.

Lemma find_index_app s post :
  Forall (fun c => c ≠ 0) s → find_index 0 (s ++ 0 :: post) = Some (length s).
Proof.
  induction 1 as [|c s Hc _ IH]; [done|].
  cbn. destruct (c =? 0) eqn:E; [apply Z.eqb_eq in E; done|].
  by rewrite IH.
Qed.

Lemma ascii_no_nul s : ascii s → Forall (fun c => c ≠ 0) s.
Proof. intros H. eapply Forall_impl; [exact H|]. cbn. lia. Qed.

Lemma lookup_at_offset data off s :
  at_offset data off s → ascii s → lookup data off = Ok s.
Proof.
  intros Hat Ha. destruct (at_offset_slice _ _ _ Hat) as (H0 & Hs & _).
  destruct Hat as (pre & post & -> & Hl). subst off.
  unfold lookup, index_from. rewrite !len_app.
  pose proof (len_nonneg pre). pose proof (len_nonneg s).
  pose proof (len_nonneg (0 :: post)).
  rewrite slice_bound_id by lia.
  replace (Z.to_nat (len pre)) with (length pre) by (unfold len; lia).
  rewrite drop_app_length. rewrite find_index_app by by apply ascii_no_nul.
  cbn. change (Z.of_nat (length s)) with (len s). rewrite Hs.
  by apply utf8_decode_ascii.
Qed.

(** ** The dictionary [self.strings] *)

Lemma dict_set_Forall (P : list Z * Z → Prop) k v d :
  P (k, v) → Forall P d → Forall P (dict_set k v d).
Proof.
  intros Hk. induction 1 as [|[k' v'] d Hkv Hd IH]; cbn.
  - constructor; [done | constructor].
  - destruct (list_eqb k' k) eqn:E.
    + apply list_eqb_true in E as ->. constructor; done.
    + constructor; done.
Qed.

Lemma dict_get_set_eq k v d : dict_get k (dict_set k v d) = Some v.
Proof.
  induction d as [|[k' v'] d IH]; cbn.
  - by rewrite list_eqb_refl.
  - destruct (list_eqb k' k) eqn:E; cbn; rewrite E; done.
Qed.

Lemma dict_get_set_ne k k' v d : k ≠ k' → dict_get k' (dict_set k v d) = dict_get k' d.
Proof.
  intros Hne. induction d as [|[k0 v0] d IH]; cbn.
  - destruct (list_eqb k k') eqn:E; [by apply list_eqb_true in E|done].
  - destruct (list_eqb k0 k) eqn:E; cbn.
    + apply list_eqb_true in E as ->.
      destruct (list_eqb k k') eqn:E'; [by apply list_eqb_true in E'|done].
    + by rewrite IH.
Qed.

Lemma dict_get_elem_of k v d : dict_get k d = Some v → (k, v) ∈ d.
Proof.
  induction d as [|[k0 v0] d IH]; cbn; [done|].
  destruct (list_eqb k0 k) eqn:E.
  - apply list_eqb_true in E as ->. intros [= ->]. by left.
  - intros H. right. by apply IH.
Qed.

Lemma dict_get_set_is_Some k k' v d :
  is_Some (dict_get k' d) → is_Some (dict_get k' (dict_set k v d)).
Proof.
  intros H. destruct (decide (k = k')) as [->|Hne].
  - rewrite dict_get_set_eq. eauto.
  - by rewrite dict_get_set_ne.
Qed.

(** ** The emission loop on groups of ASCII strings *)

Definition valid_item (data : bytes) (kv : list Z * Z) : Prop :=
  ascii kv.1 ∧ at_offset data kv.2 kv.1.

Lemma valid_item_app data x kv : valid_item data kv → valid_item (data ++ x) kv.
Proof. intros [? ?]. split; [done | by apply at_offset_app]. Qed.

Lemma set_offsets_spec (data1 : bytes) (longest : pystr) (value : list pystr) strings :
  Forall (fun s => s `suffix_of` longest) value →
  Forall (fun s => s ≠ [] ∧ ascii s) value →
  ∀ data0, data1 = data0 ++ longest →
  Forall (valid_item (data1 ++ [0])) strings →
  let strings' := foldl (fun acc s => dict_set s (len data1 - len s) acc) strings value in
  Forall (valid_item (data1 ++ [0])) strings'
  ∧ (∀ s, s ∈ value → is_Some (dict_get s strings'))
  ∧ (∀ s, is_Some (dict_get s strings) → is_Some (dict_get s strings'))
  ∧ (dict_get [] strings = Some 0 → dict_get [] strings' = Some 0).
Proof.
  intros Hsuf Hasc data0 ->. revert strings.
  induction value as [|s value IH]; intros strings Hval; cbn.
  - split; [done|]. split; [by intros ? ?%elem_of_nil|]. done.
  - apply Forall_cons in Hsuf as [[k Hk] Hsuf]. apply Forall_cons in Hasc as [[Hne Has] Hasc].
    destruct (IH Hsuf Hasc (dict_set s (len (data0 ++ longest) - len s) strings))
      as (H1 & H2 & H3 & H4).
    { apply dict_set_Forall; [|done]. split; [done|]. cbn.
      exists (data0 ++ k), []. subst longest. split.
      - by rewrite <- !app_assoc.
      - rewrite !len_app. lia. }
    split; [done|]. split; [|split].
    + intros x [->|Hx]%elem_of_cons; [|by apply H2].
      apply H3. rewrite dict_get_set_eq. eauto.
    + intros x Hx. apply H3. by apply dict_get_set_is_Some.
    + intros H. apply H4. rewrite dict_get_set_ne by done. done.
Qed.

Lemma emit_group_spec data strings key value :
  good_group (key, value) →
  Forall (fun s => s ≠ [] ∧ ascii s) value →
  Forall (valid_item data) strings →
  ∃ x strings',
    emit_group (data, strings) (key, value) = Ok (data ++ x, strings')
    ∧ Forall (valid_item (data ++ x)) strings'
    ∧ (∀ s, s ∈ value → is_Some (dict_get s strings'))
    ∧ (∀ s, is_Some (dict_get s strings) → is_Some (dict_get s strings'))
    ∧ (dict_get [] strings = Some 0 → dict_get [] strings' = Some 0).
Proof.
  intros (longest & Hlast & _ & Hsuf) Hasc Hval. cbn in *.
  unfold emit_group, py_index. cbn.
  rewrite last_lookup in Hlast.
  replace (length value - 1)%nat with (Nat.pred (length value)) by lia.
  rewrite Hlast. cbn.
  assert (ascii longest) as Hal.
  { rewrite Forall_forall in Hasc. apply Hasc. by eapply list_elem_of_lookup_2. }
  rewrite utf8_encode_ascii by done. cbn.
  destruct (set_offsets_spec (data ++ longest) longest value strings Hsuf Hasc data eq_refl)
    as (H1 & H2 & H3 & H4).
  { eapply Forall_impl; [exact Hval|]. intros kv Hkv.
    rewrite <- app_assoc. by apply valid_item_app. }
  exists (longest ++ [0]), (foldl (fun acc s => dict_set s (len (data ++ longest) - len s) acc) strings value).
  rewrite !app_assoc. done.
Qed.

Lemma emit_spec d :
  Forall good_group d →
  Forall (fun s => s ≠ [] ∧ ascii s) (members d) →
  ∀ data strings, Forall (valid_item data) strings →
  ∃ data' strings',
    emit d (data, strings) = Ok (data', strings')
    ∧ Forall (valid_item data') strings'
    ∧ data `prefix_of` data'
    ∧ (∀ s, s ∈ members d → is_Some (dict_get s strings'))
    ∧ (∀ s, is_Some (dict_get s strings) → is_Some (dict_get s strings'))
    ∧ (dict_get [] strings = Some 0 → dict_get [] strings' = Some 0).
Proof.
  induction d as [|[key value] d IH]; intros Hg Hm data strings Hval.
  - exists data, strings. cbn. repeat split; try done. by intros ? ?%elem_of_nil.
  - apply Forall_cons in Hg as [Hg Hgd].
    unfold members in Hm. cbn in Hm. apply Forall_app in Hm as [Hmv Hmd].
    destruct (emit_group_spec data strings key value Hg Hmv Hval)
      as (x & strings1 & He & Hv1 & Hc1 & Hk1 & Hz1).
    destruct (IH Hgd Hmd (data ++ x) strings1 Hv1)
      as (data' & strings' & He' & Hv' & Hp' & Hc' & Hk' & Hz').
    exists data', strings'. cbn [emit]. rewrite He. cbn. rewrite He'.
    split; [done|]. split; [done|]. split; [|split; [|split]].
    + etrans; [|exact Hp']. by apply prefix_app_r.
    + intros s Hs. unfold members in Hs. cbn in Hs.
      apply elem_of_app in Hs as [Hs|Hs]; [apply Hk', Hc1, Hs | by apply Hc'].
    + intros s Hs. by apply Hk', Hk1.
    + intros H. by apply Hz', Hz1.
Qed.

Lemma check_valid data strings :
  Forall (valid_item data) strings → check data strings = Ok tt.
Proof.
  induction 1 as [|[k v] strings [Ha Hat] _ IH]; [done|].
  cbn in *. rewrite (lookup_at_offset _ _ _ Hat Ha). cbn.
  rewrite list_eqb_refl. cbn. done.
Qed.

(** The table built from ASCII strings: [build] returns, the buffer starts
    with a NUL, the empty string is at offset 0 and every registered string
    is found at its offset, NUL-terminated. *)
Theorem build_ascii_correct keys :
  Forall (fun s => s ≠ [] ∧ ascii s) keys →
  ∃ data strings,
    build keys = Ok (data, strings)
    ∧ data !! 0%nat = Some 0
    ∧ dict_get [] strings = Some 0
    ∧ ∀ s, s ∈ keys →
        ∃ off, dict_get s strings = Some off
          ∧ 0 ≤ off
          ∧ utf8_encode s = Ok (py_slice data off (off + len s))
          ∧ data !! Z.to_nat (off + len s) = Some 0.
Proof.
  intros Hkeys.
  pose proof (good_build_groups keys) as Hg.
  pose proof (members_build_groups keys) as Hm.
  assert (Forall (fun s => s ≠ [] ∧ ascii s) (members (build_groups keys))) as Hma
    by (by rewrite Hm).
  destruct (emit_spec (build_groups keys) Hg Hma [0] [([], 0)])
    as (data & strings & He & Hv & Hp & Hc & _ & Hz).
  { constructor; [|constructor]. split; [constructor|]. by exists [], []. }
  exists data, strings. unfold build, build_data. rewrite He. cbn.
  rewrite (check_valid _ _ Hv). cbn.
  split; [done|]. split.
  { destruct Hp as [x ->]. done. }
  split; [by apply Hz; cbn; rewrite list_eqb_refl|].
  intros s Hs.
  destruct (Hc s) as [off Hoff]; [by rewrite Hm|].
  exists off. split; [done|].
  apply dict_get_elem_of in Hoff.
  rewrite Forall_forall in Hv. destruct (Hv _ Hoff) as [Ha Hat]. cbn in *.
  destruct (at_offset_slice _ _ _ Hat) as (H0 & Hsl & Hnul).
  rewrite Hsl. split; [done|]. split; [by apply utf8_encode_ascii|done].
Qed.

End strtab_emit.

Section strtab_size.
Import StrtabSection.

(** ** The size of the buffer *)

(** [len(s.encode())] *)
Definition utf8_len (s : pystr) : Z :=
  match utf8_encode s with
  | Ok b => len b
  | Raise _ => 0
  end.

(** [s.encode()] returns. *)
Definition encodable (s : pystr) : Prop := ∃ b, utf8_encode s = Ok b.

Fixpoint Zsum {A} (f : A → Z) (l : list A) : Z :=
  match l with
  | [] => 0
  | x :: r => f x + Zsum f r
  end.

Lemma Zsum_app {A} (f : A → Z) l1 l2 : Zsum f (l1 ++ l2) = Zsum f l1 + Zsum f l2.
Proof. induction l1 as [|x l1 IH]; cbn; lia. Qed.

Lemma Zsum_perm {A} (f : A → Z) l1 l2 : l1 ≡ₚ l2 → Zsum f l1 = Zsum f l2.
Proof. induction 1; cbn; lia. Qed.

Lemma Zsum_nonneg {A} (f : A → Z) l : (∀ x, 0 ≤ f x) → 0 ≤ Zsum f l.
Proof. intros Hf. induction l as [|x l IH]; cbn; [lia|]. specialize (Hf x). lia. Qed.

Lemma Zsum_elem_of {A} (f : A → Z) l x : (∀ y, 0 ≤ f y) → x ∈ l → f x ≤ Zsum f l.
Proof.
  intros Hf. induction 1 as [x l|x y l _ IH]; cbn.
  - pose proof (Zsum_nonneg f l Hf). lia.
  - specialize (Hf y). lia.
Qed.

Lemma utf8_len_nonneg s : 0 ≤ utf8_len s.
Proof. unfold utf8_len. destruct (utf8_encode s); [apply len_nonneg|lia]. Qed.

(** What a group adds to the buffer: its longest member and a NUL. *)
Definition group_cost (g : Group) : Z :=
  match last g.2 with
  | Some longest => utf8_len longest + 1
  | None => 0
  end.

Lemma group_cost_le g : group_cost g ≤ Zsum (fun s => utf8_len s + 1) g.2.
Proof.
  unfold group_cost. destruct (last g.2) as [longest|] eqn:E.
  - apply (Zsum_elem_of (fun s => utf8_len s + 1)).
    + intros y. pose proof (utf8_len_nonneg y). lia.
    + by apply last_Some_elem_of.
  - apply Zsum_nonneg. intros y. pose proof (utf8_len_nonneg y). lia.
Qed.

Lemma Zsum_members d :
  Zsum (fun s => utf8_len s + 1) (members d)
  = Zsum (fun g => Zsum (fun s => utf8_len s + 1) g.2) d.
Proof.
  unfold members. induction d as [|g d IH]; [done|].
  cbn. rewrite Zsum_app. cbn in IH. lia.
Qed.

Lemma Zsum_group_cost d :
  Zsum group_cost d ≤ Zsum (fun s => utf8_len s + 1) (members d).
Proof.
  rewrite Zsum_members. induction d as [|g d IH]; cbn; [lia|].
  pose proof (group_cost_le g). lia.
Qed.

Lemma emit_group_length st g :
  good_group g → Forall encodable g.2 →
  ∃ st', emit_group st g = Ok st' ∧ len st'.1 = len st.1 + group_cost g.
Proof.
  intros (longest & Hlast & _ & _) Henc.
  unfold emit_group, py_index, group_cost. rewrite Hlast.
  rewrite last_lookup in Hlast.
  replace (length g.2 - 1)%nat with (Nat.pred (length g.2)) by lia.
  rewrite Hlast. cbn.
  rewrite Forall_forall in Henc.
  destruct (Henc longest) as [b Hb]; [by eapply list_elem_of_lookup_2|].
  unfold utf8_len. rewrite Hb. cbn. eexists. split; [done|].
  cbn. rewrite !len_app. change (len [0]) with 1. lia.
Qed.

Lemma emit_length d :
  Forall good_group d → Forall encodable (members d) →
  ∀ st, ∃ st', emit d st = Ok st' ∧ len st'.1 = len st.1 + Zsum group_cost d.
Proof.
  induction d as [|g d IH]; intros Hg Hm st.
  - exists st. cbn. split; [done|lia].
  - apply Forall_cons in Hg as [Hg Hgd].
    unfold members in Hm. cbn in Hm. apply Forall_app in Hm as [Hmv Hmd].
    destruct (emit_group_length st g Hg Hmv) as (st1 & He1 & Hl1).
    destruct (IH Hgd Hmd st1) as (st' & He' & Hl').
    exists st'. cbn [emit]. rewrite He1. cbn. rewrite He'. split; [done|].
    cbn. lia.
Qed.

Lemma build_data_length keys :
  Forall encodable keys →
  ∃ data strings,
    build_data keys = Ok (data, strings)
    ∧ len data ≤ 1 + Zsum (fun s => utf8_len s + 1) keys.
Proof.
  intros Hkeys.
  pose proof (good_build_groups keys) as Hg.
  pose proof (members_build_groups keys) as Hm.
  assert (Forall encodable (members (build_groups keys))) as Hme by (by rewrite Hm).
  destruct (emit_length (build_groups keys) Hg Hme ([0], [([], 0)])) as ([data strings] & He & Hl).
  exists data, strings. split; [done|].
  cbn in Hl. pose proof (Zsum_group_cost (build_groups keys)) as Hc.
  rewrite (Zsum_perm _ _ _ Hm) in Hc. unfold len in *. cbn in Hl. lia.
Qed.

(** C3, as the code has it: one NUL per string is part of the bound. *)
Theorem build_length_bound keys :
  Forall encodable keys →
  ∃ data strings,
    build_data keys = Ok (data, strings)
    ∧ len data ≤ 1 + Zsum (fun s => utf8_len s + 1) keys
    ∧ (∀ st, build keys = Ok st → st.1 = data).
Proof.
  intros Hkeys. destruct (build_data_length keys Hkeys) as (data & strings & He & Hl).
  exists data, strings. split; [done|]. split; [done|].
  intros st. unfold build. rewrite He. cbn.
  destruct (check data strings); cbn; [|done]. by intros [= <-].
Qed.

Lemma build_length_bound_witness :
  ∃ data strings,
    build_data [lit "bar"; lit "foobar"] = Ok (data, strings)
    ∧ len data ≤ 1 + Zsum (fun s => utf8_len s + 1) [lit "bar"; lit "foobar"]
    ∧ (∀ st, build [lit "bar"; lit "foobar"] = Ok st → st.1 = data).
Proof.
  apply (build_length_bound [lit "bar"; lit "foobar"]).
  repeat constructor; eexists; vm_compute; reflexivity.
Defined.

(** The bound of the specification, [1 + Σ|s|], fails on a single
    one-letter string: the buffer is [\0 a \0]. *)
Lemma build_length_counterexample :
  ∃ data strings,
    build [lit "a"] = Ok (data, strings)
    ∧ ¬ (len data ≤ 1 + Zsum len [lit "a"]).
Proof.
  exists [0; 97; 0], [([], 0); ([97], 1)]. split; [vm_compute; reflexivity|].
  vm_compute. intros H. apply H. reflexivity.
Qed.

(** C2 at a string that is not ASCII: the offset recorded for ["é"] is one
    byte past the start of its two encoded bytes, and the closing loop of
    [build] raises. *)
Theorem build_non_ascii :
  build_data [[233]] = Ok ([0; 195; 169; 0], [([], 0); ([233], 2)])
  ∧ utf8_encode [233] = Ok [195; 169]
  ∧ py_slice [0; 195; 169; 0] 2 (2 + len [233]) = [169]
  ∧ build [[233]] = Raise UnicodeDecodeError.
Proof. repeat split; vm_compute; reflexivity. Qed.

End strtab_size.


Section mkextmod_facts.
Import mkextmod.

(** ** [mk_dyn] *)

Lemma mk_dyn_dynrela sym st : dynrela_relocs (mk_dyn sym st).1 = dynrela_relocs st.
Proof. unfold mk_dyn. by destruct (dyn st !! ident sym). Qed.

Lemma mk_dyn_dynrel sym st : dynrel_relocs (mk_dyn sym st).1 = dynrel_relocs st.
Proof. unfold mk_dyn. by destruct (dyn st !! ident sym). Qed.

Lemma mk_dyn_dyns sym st : dynamic_dyns (mk_dyn sym st).1 = dynamic_dyns st.
Proof. unfold mk_dyn. by destruct (dyn st !! ident sym). Qed.

(** After [mk_dyn(sym)] the symbol carries its copy, and the call returns it. *)
Lemma mk_dyn_memo sym st : dyn (mk_dyn sym st).1 !! ident sym = Some (mk_dyn sym st).2.
Proof.
  unfold mk_dyn. destruct (dyn st !! ident sym) eqn:E; cbn; [done|].
  by rewrite lookup_insert_eq.
Qed.

(** A copy made once is never replaced. *)
Lemma mk_dyn_keeps sym' sym st d :
  dyn st !! ident sym' = Some d → dyn (mk_dyn sym st).1 !! ident sym' = Some d.
Proof.
  intros H. unfold mk_dyn. destruct (dyn st !! ident sym) eqn:E; cbn; [done|].
  rewrite lookup_insert_ne; [done|]. intros Heq. rewrite Heq in E. congruence.
Qed.

(** The copy is in [dynsym.symbols] when every recorded copy is. *)
Lemma mk_dyn_in_dynsym sym st :
  (∀ i d, dyn st !! i = Some d → d ∈ dynsym_symbols st) →
  (mk_dyn sym st).2 ∈ dynsym_symbols (mk_dyn sym st).1.
Proof.
  intros H. unfold mk_dyn. destruct (dyn st !! ident sym) eqn:E; cbn; [by eapply H|].
  apply elem_of_app. right. by left.
Qed.

(** ** Loops *)

Lemma for_each_inv {A St} (I : St → Prop) (body : St → A → result St) l st st' :
  (∀ s x s', I s → body s x = Ok s' → I s') →
  I st → for_each body l st = Ok st' → I st'.
Proof.
  intros Hb. revert st. induction l as [|x l IH]; intros st Hst; cbn.
  - by intros [= <-].
  - destruct (body st x) as [s1|] eqn:E; cbn; [|done].
    apply IH. by eapply Hb.
Qed.

(** ** Slices inside the data *)

Lemma py_slice_in_range {A} (l : list A) (off n : Z) :
  0 ≤ off → 0 ≤ n → off + n ≤ len l →
  py_slice l off (off + n) = take (Z.to_nat n) (drop (Z.to_nat off) l)
  ∧ len (py_slice l off (off + n)) = n.
Proof.
  intros H0 Hn Hl. unfold py_slice. rewrite !slice_bound_id by lia.
  replace (off + n - off) with n by lia. split; [done|].
  unfold len in *. rewrite length_take, length_drop. lia.
Qed.

Lemma c_int32_in_range x : - 2 ^ 31 ≤ x < 2 ^ 31 → c_int32 x = x.
Proof. intros H. unfold c_int32. rewrite Z.mod_small; lia. Qed.

Lemma c_int32_congr x : (c_int32 x - x) mod 2 ^ 32 = 0.
Proof.
  unfold c_int32.
  pose proof (Z.div_mod (x + 2 ^ 31) (2 ^ 32) ltac:(lia)) as H.
  replace ((x + 2 ^ 31) mod 2 ^ 32 - 2 ^ 31 - x)
    with ((- ((x + 2 ^ 31) / 2 ^ 32)) * 2 ^ 32) by lia.
  apply Z.mod_mul. lia.
Qed.

Lemma c_uint32_in_range x : 0 ≤ x < 2 ^ 32 → c_uint32 x = x.
Proof. intros H. unfold c_uint32. by apply Z.mod_small. Qed.

(** ** C1: the conversion of an [R_ARM_ABS32] / [R_ARM_TARGET1] relocation *)


(** Scenario 2 of the specification: [.text] at 0x10000000 holds
    [DE AD BE EF]; [target] is a global symbol with value 0x10001000. *)
Definition scenario2_text : Section :=
  mkSection Section_ true false elf32.SHT_PROGBITS elf32.SHF_ALLOC
    0x10000000 0x1000 4 4 (Some [0xDE; 0xAD; 0xBE; 0xEF]) 0 None.

Definition scenario2_target : Symbol :=
  mkSymbol (Loaded 1) (Some (lit "target")) (Some scenario2_text)
    (mkSym 1 0x10001000 0 0x10 0 1).

Definition scenario2_rel : Relocation :=
  mkRelocation scenario2_target (Rel.mk 0x10000000 (elf32.R_INFO 1 elf32.R_ARM_ABS32)).

Definition scenario2_reltab : RelIn :=
  mkRelIn (Some scenario2_text) (Some [scenario2_target]) [scenario2_rel].



End mkextmod_facts.


Section mkextmod_veneer.
Import mkextmod.

(** ** Veneer names *)

Lemma startswith_app (p q : list Z) : startswith (p ++ q) p = true.
Proof. apply startswith_prefix. by apply prefix_app_r. Qed.

Lemma endswith_app (p q : list Z) : endswith (p ++ q) q = true.
Proof. unfold endswith. rewrite reverse_app. apply startswith_app. Qed.

Lemma veneer_name_matches (X : pystr) :
  let n := lit "__" ++ X ++ lit "_veneer" in
  startswith n (lit "__") = true
  ∧ endswith n (lit "_veneer") = true
  ∧ py_slice n 2 (-7) = X.
Proof.
  intros n. split; [apply startswith_app|]. split.
  { subst n. rewrite app_assoc. apply endswith_app. }
  subst n. unfold py_slice. rewrite !len_app.
  change (len (lit "__")) with 2. change (len (lit "_veneer")) with 7.
  pose proof (len_nonneg X).
  unfold slice_bound. cbn [Z.ltb Z.compare].
  replace (Z.min 2 (2 + (len X + 7))) with 2 by lia.
  replace (Z.max 0 (-7 + (2 + (len X + 7))) - 2) with (len X) by lia.
  change (Z.to_nat 2) with 2%nat. change (lit "__") with [95; 95].
  cbn [app skipn]. rewrite drop_0. unfold len. rewrite Nat2Z.id. by rewrite take_app_length.
Qed.

(** ** C4: the relocation synthesized for a veneer *)

(** C4 (amended). For a defined input symbol named [__<X>_veneer] whose
    size covers the literal word and for which a symbol [<X>] with the
    value of that word exists, the loop body appends exactly one
    R_ARM_ABS32 entry with addend 0 to [.rela.dyn], against the dyn copy of
    the first such symbol; its [r_offset] is the veneer's [st_value] with
    bit 0 cleared plus the CPU's [veneer_symbol_offset]. *)
Theorem promote_veneer_appends_one sym_offset symbols st sym sec X d rs rest :
  let s := struct sym in
  let r_offset := Z.land (st_value s) 0xFFFFFFFE + sym_offset in
  let off := r_offset - sh_addr sec in
  section sym = Some sec →
  name sym = Some (lit "__" ++ X ++ lit "_veneer") →
  sym_offset + 4 ≤ st_size s →
  data sec = Some d →
  filter (fun x => st_value (struct x) = from_bytes_little (py_slice d off (off + 4)))
    (get_all_symbols symbols X) = rs :: rest →
  ∃ st' dsym r,
    promote sym_offset symbols st sym = Ok st'
    ∧ dynrela_relocs st' = dynrela_relocs st ++ [mkRelocationWithAddend dsym r]
    ∧ dyn st' !! ident rs = Some dsym
    ∧ dynrel_relocs st' = dynrel_relocs st
    ∧ Rela.r_type r = elf32.R_ARM_ABS32
    ∧ Rela.r_addend r = 0
    ∧ Rela.r_offset r = c_uint32 r_offset
    ∧ (0 ≤ r_offset < 2 ^ 32 → Rela.r_offset r = r_offset).
Proof.
  intros s r_offset off Hsec Hname Hsize Hdata Hreal.
  set (st1 := if negb (st_bind s =? elf32.STB_LOCAL) && (st_visibility s =? elf32.STV_DEFAULT)
              then (mk_dyn sym st).1 else st).
  exists (append_rela
            (mkRelocationWithAddend (mk_dyn rs st1).2
               (Rela.mk (c_uint32 r_offset) elf32.R_ARM_ABS32 0))
            (mk_dyn rs st1).1),
    (mk_dyn rs st1).2, (Rela.mk (c_uint32 r_offset) elf32.R_ARM_ABS32 0).
  destruct (veneer_name_matches X) as (Hs & He & Hx).
  assert (dynrela_relocs st1 = dynrela_relocs st ∧ dynrel_relocs st1 = dynrel_relocs st)
    as [Hr1 Hr2].
  { subst st1. destruct (_ && _); [|done]. by rewrite mk_dyn_dynrela, mk_dyn_dynrel. }
  split.
  - unfold promote. rewrite Hsec, Hname. fold s. fold st1.
    rewrite Hs, He. cbn [andb]. unfold assert.
    destruct (sym_offset + 4 <=? st_size s) eqn:E; [|apply Z.leb_gt in E; lia].
    cbn [mbind result_bind]. unfold read_word. rewrite Hdata. cbn [mbind result_bind].
    rewrite Hx. fold r_offset. fold off. rewrite Hreal.
    by destruct (mk_dyn rs st1).
  - split; [by cbn; rewrite mk_dyn_dynrela, Hr1|].
    split; [by cbn; apply mk_dyn_memo|].
    split; [by cbn; rewrite mk_dyn_dynrel, Hr2|].
    split; [done|]. split; [done|]. split; [done|].
    cbn. apply c_uint32_in_range.
Qed.

(** Scenario 4 of the specification: CPU [6S-M]; [__foo_veneer] at
    0x10000101, 16 bytes long, with the literal 0x20000001 twelve bytes
    into it; [foo] at 0x20000001. *)
Definition scenario4_text : Section :=
  mkSection Section_ true false elf32.SHT_PROGBITS elf32.SHF_ALLOC
    0x10000100 0x1000 16 4
    (Some [0; 0; 0; 0; 0; 0; 0; 0; 0; 0; 0; 0; 0x01; 0x00; 0x00; 0x20]) 0 None.

Definition scenario4_ram : Section :=
  mkSection Section_ true false elf32.SHT_PROGBITS
    (Z.lor elf32.SHF_ALLOC elf32.SHF_WRITE) 0x20000000 0x2000 4 4
    (Some [0; 0xBF; 0; 0xBF]) 0 None.

Definition scenario4_foo : Symbol :=
  mkSymbol (Loaded 1) (Some (lit "foo")) (Some scenario4_ram)
    (mkSym 1 0x20000001 4 0x12 0 2).

Definition scenario4_veneer : Symbol :=
  mkSymbol (Loaded 2) (Some (lit "__foo_veneer")) (Some scenario4_text)
    (mkSym 5 0x10000101 16 0x02 0 1).

Definition scenario4_symbols : list Symbol := [scenario4_foo; scenario4_veneer].

Lemma promote_veneer_appends_one_witness :
  ∃ st' dsym r,
    promote 12 scenario4_symbols init scenario4_veneer = Ok st'
    ∧ dynrela_relocs st' = dynrela_relocs init ++ [mkRelocationWithAddend dsym r]
    ∧ dyn st' !! Loaded 1 = Some dsym
    ∧ dynrel_relocs st' = dynrel_relocs init
    ∧ Rela.r_type r = elf32.R_ARM_ABS32
    ∧ Rela.r_addend r = 0
    ∧ Rela.r_offset r = c_uint32 (Z.land 0x10000101 0xFFFFFFFE + 12)
    ∧ (0 ≤ Z.land 0x10000101 0xFFFFFFFE + 12 < 2 ^ 32 →
       Rela.r_offset r = Z.land 0x10000101 0xFFFFFFFE + 12).
Proof.
  apply (promote_veneer_appends_one 12 scenario4_symbols init scenario4_veneer
           scenario4_text (lit "foo")
           [0; 0; 0; 0; 0; 0; 0; 0; 0; 0; 0; 0; 0x01; 0x00; 0x00; 0x20]
           scenario4_foo []);
    first [reflexivity | vm_compute; congruence].
Defined.

(** On scenario 4 the emitted [r_offset] is 0x1000010C, which is not the
    veneer's [st_value] plus 12 (0x1000010D). *)
Lemma promote_scenario4_offset :
  ∃ st' r,
    promote 12 scenario4_symbols init scenario4_veneer = Ok st'
    ∧ dynrela_relocs st' = [r]
    ∧ Rela.r_offset (rela_struct r) = 0x1000010C
    ∧ Rela.r_offset (rela_struct r) ≠ st_value (struct scenario4_veneer) + 12.
Proof.
  eexists _, _. split; [vm_compute; reflexivity|].
  split; [reflexivity|]. split; [reflexivity|]. vm_compute. congruence.
Qed.

End mkextmod_veneer.


Section mkextmod_rel_dyn.
Import mkextmod.

(** ** What the two loops leave alone *)

Definition untouched (st st' : State) : Prop :=
  dynrel_relocs st' = dynrel_relocs st ∧ dynamic_dyns st' = dynamic_dyns st.

Lemma untouched_refl st : untouched st st.
Proof. done. Qed.

Lemma untouched_trans a b c : untouched a b → untouched b c → untouched a c.
Proof. intros [? ?] [? ?]. split; congruence. Qed.

Lemma untouched_mk_dyn sym st : untouched st (mk_dyn sym st).1.
Proof. split; [apply mk_dyn_dynrel | apply mk_dyn_dyns]. Qed.

Lemma untouched_emit sym st (r : Symbol → Rela.t) :
  untouched st
    (let '(st1, d) := mk_dyn sym st in
     append_rela (mkRelocationWithAddend d (r d)) st1).
Proof.
  pose proof (untouched_mk_dyn sym st) as H. destruct (mk_dyn sym st) as [st1 d].
  destruct H as [? ?]. split; done.
Qed.

Lemma promote_untouched sym_offset symbols st sym st' :
  promote sym_offset symbols st sym = Ok st' → untouched st st'.
Proof.
  unfold promote. destruct (section sym) as [sec|]; [|by intros [= <-]].
  remember (if negb (st_bind (struct sym) =? elf32.STB_LOCAL)
                 && (st_visibility (struct sym) =? elf32.STV_DEFAULT)
            then (mk_dyn sym st).1 else st) as st1 eqn:Hst1.
  assert (untouched st st1) as H1.
  { subst st1. destruct (_ && _); [apply untouched_mk_dyn | done]. }
  clear Hst1.
  destruct (name sym) as [n|]; [|done].
  destruct (_ && _); [|by intros [= <-]].
  destruct (assert _); cbn [mbind result_bind]; [|done].
  destruct (read_word _ _); cbn [mbind result_bind]; [|done].
  destruct (filter _ _) as [|rs rest]; [done|].
  pose proof (untouched_mk_dyn rs st1) as H2.
  destruct (mk_dyn rs st1) as [st2 d]. intros [= <-].
  eapply untouched_trans; [exact H1|]. destruct H2 as [? ?]. split; done.
Qed.

Lemma convert_untouched sec target st rel st' :
  convert sec target st rel = Ok st' → untouched st st'.
Proof.
  unfold convert. cbv zeta.
  repeat match goal with
  | |- Raise _ = Ok _ → _ => discriminate
  | |- Ok _ = Ok _ → _ => intros [= <-]
  | |- (mbind _ ?x) = _ → _ => destruct x; cbn [mbind result_bind]
  | |- (match ?x with _ => _ end) = _ → _ => destruct x
  | |- (let '(_, _) := mk_dyn ?s ?t in _) = _ → _ =>
    let H := fresh in
    pose proof (untouched_mk_dyn s t) as H; destruct (mk_dyn s t); destruct H
  | |- (if ?b then _ else _) = _ → _ => destruct b
  end; try done.
  all: apply (untouched_emit _ _ (fun _ => _)).
Qed.

Lemma for_each_untouched {A} (body : State → A → result State) l st st' :
  (∀ s x s', body s x = Ok s' → untouched s s') →
  for_each body l st = Ok st' → untouched st st'.
Proof.
  intros Hb. revert st. induction l as [|x l IH]; intros st; cbn.
  - by intros [= <-].
  - destruct (body st x) as [s1|] eqn:E; cbn; [|done].
    intros H. eapply untouched_trans; [by eapply Hb | by apply IH].
Qed.

Lemma convert_section_untouched st isec st' :
  convert_section st isec = Ok st' → untouched st st'.
Proof.
  destruct isec as [i sec]. unfold convert_section.
  destruct (info sec) as [target|]; [|done].
  destruct (negb _); [by intros [= <-]|].
  destruct (for_each _ _ _) as [s1|] eqn:E; cbn [mbind result_bind]; [|done].
  intros [= <-].
  apply for_each_untouched in E; [|intros ? ? ?; apply convert_untouched].
  destruct E. split; done.
Qed.

(** ** The entries of [.dynamic] *)

Lemma for_each_inv_elem {A St} (I : St → Prop) (body : St → A → result St) l st st' :
  (∀ s x s', x ∈ l → I s → body s x = Ok s' → I s') →
  I st → for_each body l st = Ok st' → I st'.
Proof.
  revert st. induction l as [|x l IH]; intros st Hb Hst; cbn.
  - by intros [= <-].
  - destruct (body st x) as [s1|] eqn:E; cbn; [|done].
    apply IH.
    + intros s y s' Hy. apply Hb. by right.
    + eapply Hb; [by left|done..].
Qed.

(** The tag of an entry is not one of the three [DT_REL*] tags, unless the
    entry was asked for by a [--entry] pair with that tag. *)
Definition not_rel_tag (l : list (Z * pystr)) (e : DynEntry) : Prop :=
  (d_tag e ≠ elf32.DT_REL ∧ d_tag e ≠ elf32.DT_RELSZ ∧ d_tag e ≠ elf32.DT_RELENT)
  ∨ ∃ u, u ∈ l ∧ d_tag e = c_int32 u.1.

Definition dyn_inv (l : list (Z * pystr)) (st : State) : Prop :=
  dynrel_relocs st = [] ∧ Forall (not_rel_tag l) (dynamic_dyns st).

Lemma dyn_inv_append l st tag val v :
  (c_int32 tag ≠ elf32.DT_REL ∧ c_int32 tag ≠ elf32.DT_RELSZ ∧ c_int32 tag ≠ elf32.DT_RELENT) →
  dyn_inv l st → dyn_inv l (append_dyn (DynEntry_ tag val v) st).
Proof.
  intros Ht [H1 H2]. split; [done|]. cbn. apply Forall_app. split; [done|].
  constructor; [|constructor]. by left.
Qed.

Lemma dyn_inv_user l st u st' :
  u ∈ l → dyn_inv l st → user_entry st u = Ok st' → dyn_inv l st'.
Proof.
  intros Hu [H1 H2]. unfold user_entry.
  destruct (get_first_symbol _ _); intros [= <-]; [|done].
  split; [done|]. cbn. apply Forall_app. split; [done|].
  constructor; [|constructor]. right. by exists u.
Qed.

Lemma dynamic_entries_inv inp l st st' :
  dyn_entries inp = Some l →
  dynrel_relocs st = [] → dynamic_dyns st = [] →
  dynamic_entries inp st = Ok st' → dyn_inv l st'.
Proof.
  intros Hl Hrel Hdyn. unfold dynamic_entries. rewrite Hl. cbv zeta.
  assert (dyn_inv l st) as H0 by (split; [done | rewrite Hdyn; constructor]).
  cbn [append_dyn dynrel_relocs dynrela_relocs dynsym_symbols].
  destruct (negb (len (dynrela_relocs st) =? 0));
    cbn [append_dyn dynrel_relocs dynrela_relocs dynsym_symbols];
    rewrite Hrel; change (negb (len (@nil Relocation) =? 0)) with false; cbv iota.
  all: match goal with
       | |- mbind _ (for_each _ _ ?s) = _ → _ => assert (dyn_inv l s) as Hs
       end.
  1,3: repeat first
      [ apply dyn_inv_append; [by vm_compute|]
      | match goal with
        | |- dyn_inv _ (match ?x with _ => _ end) => destruct x
        end
      | exact H0 ].
  all: destruct (for_each _ _ _) as [s1|] eqn:E; cbn [mbind result_bind]; [|done].
  all: intros [= <-]; apply dyn_inv_append; [by vm_compute|].
  all: eapply (for_each_inv_elem (dyn_inv l)); [|exact Hs|exact E].
  all: intros s u s' Hu; by apply dyn_inv_user.
Qed.

(** ** C9: [.rel.dyn] stays empty *)

(** C9 (amended). On every run that reaches the end of the dynamic
    entries, [.rel.dyn] has no entry and size 0, and [.dynamic] holds an
    entry tagged DT_REL, DT_RELSZ or DT_RELENT only where the caller asked
    for that tag number with [--entry]. *)
Theorem main_rel_dyn_empty inp st :
  main inp = Ok st →
  dynrel_relocs st = []
  ∧ dynrel_size st = 0
  ∧ ∀ e, e ∈ dynamic_dyns st →
      d_tag e = elf32.DT_REL ∨ d_tag e = elf32.DT_RELSZ ∨ d_tag e = elf32.DT_RELENT →
      ∃ l u, dyn_entries inp = Some l ∧ u ∈ l ∧ d_tag e = c_int32 u.1.
Proof.
  unfold main.
  destruct (cpu_config _) as [off|]; cbn [mbind result_bind]; [|done].
  destruct (for_each (promote_symtab off) _ _) as [s1|] eqn:E1; cbn [mbind result_bind]; [|done].
  destruct (for_each convert_section _ _) as [s2|] eqn:E2; cbn [mbind result_bind]; [|done].
  intros Hd.
  apply for_each_untouched in E1.
  2:{ intros s x s'. unfold promote_symtab. apply for_each_untouched.
      intros ? ? ?. apply promote_untouched. }
  apply for_each_untouched in E2; [|apply convert_section_untouched].
  destruct E1 as [A1 A2], E2 as [B1 B2]. cbn in A1, A2.
  destruct (dyn_entries inp) as [l|] eqn:El.
  2:{ unfold dynamic_entries in Hd. rewrite El in Hd. done. }
  destruct (dynamic_entries_inv inp l s2 st El) as [H1 H2]; [congruence..|done|].
  split; [done|]. split; [by unfold dynrel_size; rewrite H1|].
  intros e He Htag. rewrite Forall_forall in H2.
  destruct (H2 e He) as [(N1 & N2 & N3)|(u & Hu & Hue)].
  - destruct Htag as [?|[?|?]]; done.
  - by exists l, u.
Qed.

(** A run: one symbol table with the global function [__dl_init] in
    [.text], no relocation section, and one [--entry] pair. *)
Definition run_text : Section :=
  mkSection Section_ true false elf32.SHT_PROGBITS elf32.SHF_ALLOC
    0x10000000 0x1000 4 4 (Some [0x00; 0xBF; 0x00; 0xBF]) 0 None.

Definition run_init : Symbol :=
  mkSymbol (Loaded 1) (Some (lit "__dl_init")) (Some run_text)
    (mkSym 1 0x10000001 4 0x12 0 1).

Definition run_input (tag : Z) : Input :=
  mkInput (Some (lit "8-M.MAIN")) [[run_init]] [] (lit "mod.elf")
    (Some [(tag, lit "__dl_init")]).

Lemma main_rel_dyn_empty_witness :
  ∃ st,
    main (run_input 0x60000001) = Ok st
    ∧ dynrel_relocs st = []
    ∧ dynrel_size st = 0
    ∧ ∀ e, e ∈ dynamic_dyns st →
        d_tag e = elf32.DT_REL ∨ d_tag e = elf32.DT_RELSZ ∨ d_tag e = elf32.DT_RELENT →
        ∃ l u, dyn_entries (run_input 0x60000001) = Some l ∧ u ∈ l
               ∧ d_tag e = c_int32 u.1.
Proof.
  eexists. split; [vm_compute; reflexivity|].
  eapply main_rel_dyn_empty. vm_compute. reflexivity.
Defined.

(** With [--entry 11 __dl_init] the output [.dynamic] holds an entry whose
    tag is DT_REL (17 = 0x11). *)
Lemma main_entry_tag_DT_REL :
  ∃ st e,
    main (run_input 0x11) = Ok st
    ∧ e ∈ dynamic_dyns st
    ∧ d_tag e = elf32.DT_REL.
Proof.
  eexists _, (mkDynEntry 17 0x10000001 VNone).
  split; [vm_compute; reflexivity|]. split; [|reflexivity].
  repeat first [by left | right].
Qed.

End mkextmod_rel_dyn.


Section arm_attributes.
Import ReadData.

(** ** Slices of a buffer whose head is known *)

Lemma py_slice_from_cons {A} (x : A) l : py_slice_from (x :: l) 1 = l.
Proof.
  unfold py_slice_from, slice_bound. cbn [Z.ltb Z.compare].
  pose proof (len_nonneg l). unfold len in *. cbn [length].
  replace (Z.min 1 (Z.of_nat (S (length l)))) with 1 by lia. done.
Qed.

Lemma py_slice_from_app {A} (p l : list A) n :
  len p = n → py_slice_from (p ++ l) n = l.
Proof.
  intros <-. unfold py_slice_from. rewrite slice_bound_id.
  - unfold len. rewrite Nat2Z.id. apply drop_app_length.
  - rewrite len_app. pose proof (len_nonneg p). pose proof (len_nonneg l). lia.
Qed.

Lemma py_slice_to_app {A} (p l : list A) n :
  len p = n → py_slice_to (p ++ l) n = p.
Proof.
  intros <-. unfold py_slice_to. rewrite slice_bound_id.
  - unfold len. rewrite Nat2Z.id. apply take_app_length.
  - rewrite len_app. pose proof (len_nonneg p). pose proof (len_nonneg l). lia.
Qed.

(** [(p ++ q ++ r)[len p : n]] keeps all of [q] when [n] reaches past it. *)
Lemma py_slice_app_keep {A} (p q r : list A) k n :
  len p = k → k + len q ≤ n → ∃ r', py_slice (p ++ q ++ r) k n = q ++ r'.
Proof.
  intros <- Hn. unfold py_slice. rewrite !len_app.
  pose proof (len_nonneg p). pose proof (len_nonneg q). pose proof (len_nonneg r).
  rewrite (slice_bound_id _ (len p)) by lia.
  assert (Z.to_nat (len p) = length p) as -> by (unfold len; lia).
  rewrite drop_app_length.
  set (b := slice_bound (len p + (len q + len r)) n).
  assert (len p + len q ≤ b) as Hb.
  { subst b. unfold slice_bound. destruct (n <? 0) eqn:E; [apply Z.ltb_lt in E|]; lia. }
  exists (take (Z.to_nat (b - len p) - length q) r).
  rewrite take_app. rewrite take_ge; [done|]. unfold len in *. lia.
Qed.

Lemma index_from_app q r :
  Forall (fun c => c ≠ 0) q → index_from (q ++ 0 :: r) 0 0 = Ok (len q).
Proof.
  intros Hq. unfold index_from. rewrite slice_bound_id.
  - cbn [Z.to_nat drop]. rewrite drop_0, find_index_app by done. done.
  - pose proof (len_nonneg (q ++ 0 :: r)). lia.
Qed.

Ltac norm_app := repeat (progress (rewrite <- ?app_assoc; cbn [app])).

(** ** C8: the ARM attributes section *)

(** The data of an attributes section that follows the grammar. *)
Definition attributes (total sub : bytes) (cpu rest : bytes) : bytes :=
  [0x41] ++ total ++ (lit "aeabi" ++ [0]) ++ [1] ++ sub ++ [5] ++ (cpu ++ [0]) ++ rest.

(** On data that follows the grammar, with size fields that reach past the
    CPU name, [tags["CPU_name"]] is the decoded name. *)
Theorem arm_attributes_match total sub cpu rest name :
  length total = 4%nat → length sub = 4%nat →
  17 + len cpu ≤ from_bytes_little total →
  6 + len cpu ≤ from_bytes_little sub →
  Forall (fun c => c ≠ 0) cpu →
  utf8_decode cpu = Ok name →
  visit_ArmAttributesSection (attributes total sub cpu rest) = Ok (Some name).
Proof.
  intros Ht Hs Htot Hsub Hnz Hdec.
  assert (len total = 4) as Ht' by (unfold len; lia).
  assert (len sub = 4) as Hs' by (unfold len; lia).
  unfold visit_ArmAttributesSection, attributes.
  cbn [app]. unfold len at 1. cbn [length].
  destruct (Z.of_nat _ =? 0) eqn:E; [apply Z.eqb_eq in E; lia|clear E].
  cbn [py_index lookup list_lookup mbind result_bind Z.eqb Pos.eqb negb].
  rewrite py_slice_from_cons.
  rewrite !(py_slice_to_app total _ 4 Ht').
  assert (∃ r1, py_slice (total ++ (lit "aeabi" ++ [0]) ++ 1 :: sub ++ 5 :: (cpu ++ [0]) ++ rest)
                  4 (from_bytes_little total)
                = lit "aeabi" ++ 0 :: 1 :: sub ++ 5 :: cpu ++ 0 :: r1) as [r1 Hr1].
  { destruct (py_slice_app_keep total (lit "aeabi" ++ 0 :: 1 :: sub ++ 5 :: cpu ++ [0]) rest
                4 (from_bytes_little total) Ht') as [r1 Hr1].
    - change (lit "aeabi" ++ 0 :: 1 :: sub ++ 5 :: cpu ++ [0])
        with ((lit "aeabi" ++ [0; 1]) ++ sub ++ [5] ++ cpu ++ [0]).
      rewrite !len_app, Hs'. change (len (lit "aeabi")) with 5.
      change (len [0; 1]) with 2. change (len [0]) with 1. change (len [5]) with 1. lia.
    - exists r1. etransitivity; [|etransitivity; [exact Hr1|]].
      + f_equal. by norm_app.
      + by norm_app. }
  rewrite !Hr1. clear Hr1.
  rewrite index_from_app by (vm_compute; repeat constructor; congruence).
  cbn [mbind result_bind].
  rewrite (py_slice_to_app (lit "aeabi")) by done.
  rewrite list_eqb_refl. cbn [negb].
  replace (lit "aeabi" ++ 0 :: 1 :: sub ++ 5 :: cpu ++ 0 :: r1)
    with ((lit "aeabi" ++ [0]) ++ 1 :: sub ++ 5 :: cpu ++ 0 :: r1)
    by (by rewrite <- app_assoc).
  rewrite (py_slice_from_app (lit "aeabi" ++ [0])) by done.
  cbn [py_index lookup list_lookup mbind result_bind Z.eqb Pos.eqb negb].
  rewrite py_slice_from_cons.
  rewrite !(py_slice_to_app sub _ 4 Hs').
  destruct (py_slice_app_keep sub (5 :: cpu ++ [0]) r1 4 (from_bytes_little sub) Hs')
    as [r2 Hr2].
  { change (5 :: cpu ++ [0]) with ([5] ++ cpu ++ [0]).
    rewrite !len_app. change (len [0]) with 1. change (len [5]) with 1. lia. }
  replace (sub ++ 5 :: cpu ++ 0 :: r1) with (sub ++ (5 :: cpu ++ [0]) ++ r1)
    by (cbn [app]; by rewrite <- app_assoc).
  rewrite !Hr2. clear Hr2. cbn [app].
  cbn [py_index lookup list_lookup mbind result_bind Z.eqb Pos.eqb negb].
  rewrite py_slice_from_cons. rewrite <- app_assoc. cbn [app].
  rewrite index_from_app by done. cbn [mbind result_bind].
  rewrite (py_slice_to_app cpu) by done. rewrite Hdec. done.
Qed.

(** A buffer that does not start with [0x41] leaves the tags empty. *)
Lemma arm_attributes_other_format b data :
  b ≠ 0x41 → visit_ArmAttributesSection (b :: data) = Ok None
              ∧ visit_ArmAttributesSection [] = Ok None.
Proof.
  intros Hb. split; [|done]. unfold visit_ArmAttributesSection.
  unfold len. cbn [length]. destruct (Z.of_nat (S (length data)) =? 0) eqn:E;
    [apply Z.eqb_eq in E; lia|].
  cbn [py_index lookup list_lookup mbind result_bind].
  destruct (b =? 65) eqn:E2; [apply Z.eqb_eq in E2; done|]. done.
Qed.

(** C8 on data cut short: the method does not return, it raises
    [ValueError] (no NUL where a name should end) or [IndexError] (no byte
    where a tag should be). *)
Theorem arm_attributes_truncated :
  visit_ArmAttributesSection [0x41] = Raise ValueError
  ∧ visit_ArmAttributesSection ([0x41; 10; 0; 0; 0] ++ lit "aeabi" ++ [0])
    = Raise IndexError
  ∧ visit_ArmAttributesSection
      ([0x41; 27; 0; 0; 0] ++ lit "aeabi" ++ [0; 1; 17; 0; 0; 0; 5] ++ lit "8-M.MAIN")
    = Raise ValueError.
Proof. repeat split; vm_compute; reflexivity. Qed.

Lemma arm_attributes_match_witness :
  visit_ArmAttributesSection (attributes [27; 0; 0; 0] [17; 0; 0; 0] (lit "8-M.MAIN") [6; 7])
  = Ok (Some (lit "8-M.MAIN")).
Proof.
  apply arm_attributes_match; try reflexivity; try (vm_compute; congruence).
  repeat constructor; vm_compute; congruence.
Defined.

End arm_attributes.


(** ** Sections: what the setters keep *)

(** The fields no layout pass writes. *)
Definition same_static (m m' : Section) : Prop :=
  cls m' = cls m ∧ fixed m' = fixed m ∧ deleted m' = deleted m
  ∧ sh_type m' = sh_type m ∧ sh_flags m' = sh_flags m
  ∧ sh_addralign m' = sh_addralign m ∧ data m' = data m
  ∧ entries m' = entries m.

Lemma same_static_refl m : same_static m m.
Proof. by repeat split. Qed.

Lemma same_static_trans a b c : same_static a b → same_static b c → same_static a c.
Proof.
  intros (?&?&?&?&?&?&?&?) (?&?&?&?&?&?&?&?). repeat split; congruence.
Qed.

Lemma same_static_set_sh_size v m : same_static m (set_sh_size v m).
Proof. by repeat split. Qed.
Lemma same_static_set_sh_addr v m : same_static m (set_sh_addr v m).
Proof. by repeat split. Qed.
Lemma same_static_set_sh_offset v m : same_static m (set_sh_offset v m).
Proof. by repeat split. Qed.
Lemma same_static_set_paddr v m : same_static m (set_paddr v m).
Proof. by repeat split. Qed.

Lemma size_same m m' : same_static m m' → sh_size m' = sh_size m → size m' = size m.
Proof. intros (Hc&_&_&_&_&_&Hd&He) Hs. unfold size. by rewrite Hc, Hd, He, Hs. Qed.

Lemma psize_same m m' : same_static m m' → sh_size m' = sh_size m → psize m' = psize m.
Proof.
  intros H Hs. unfold psize. rewrite (size_same _ _ H Hs).
  destruct H as (_&_&_&Ht&_). by rewrite Ht.
Qed.

Lemma c_uint32_range x : 0 ≤ c_uint32 x < 2 ^ 32.
Proof. unfold c_uint32. apply Z.mod_pos_bound. lia. Qed.

Lemma c_uint32_idemp x : c_uint32 (c_uint32 x) = c_uint32 x.
Proof. apply c_uint32_in_range, c_uint32_range. Qed.

(** [section.size] does not change when it is stored in [sh_size] twice. *)
Lemma size_set_sh_size_idemp m :
  size (set_sh_size (size (set_sh_size (size m) m)) (set_sh_size (size m) m))
  = size (set_sh_size (size m) m).
Proof.
  unfold size. cbn. destruct (entry_size (cls m)); [done|].
  destruct (data m) as [[|b r]|]; cbn; try done; apply c_uint32_idemp.
Qed.

(** After the pass has stored [size] in [sh_size], [size] is not negative. *)
Lemma size_set_sh_size_nonneg m : 0 ≤ size (set_sh_size (size m) m).
Proof.
  unfold size. cbn. destruct (entry_size (cls m)) as [k|] eqn:E.
  - assert (0 ≤ k) by (destruct (cls m); cbn in E; inversion E; done).
    apply Z.mul_nonneg_nonneg; lia.
  - destruct (data m) as [[|b r]|]; cbn; try apply c_uint32_range.
    apply len_nonneg.
Qed.

Lemma psize_bounds m : 0 ≤ size m → 0 ≤ psize m ≤ size m.
Proof. intros H. unfold psize. destruct (_ =? _); lia. Qed.

(** ** [ComputeAddresses]: one section *)

Definition alloc (m : Section) : bool := has_flag (sh_flags m) elf32.SHF_ALLOC.
Definition writable (m : Section) : bool := has_flag (sh_flags m) elf32.SHF_WRITE.
Definition nobits (m : Section) : bool := sh_type m =? elf32.SHT_NOBITS.

Section compute_addresses.
Import ComputeAddresses.

(** What [visit_Section] does to the cursors and to the section, case by
    case.  [size] and [psize] are those of the section after the visit. *)
Definition section_step (st : ComputeAddresses.State) (m : Section)
    (st' : ComputeAddresses.State) (m' : Section) : Prop :=
  same_static m m' ∧ 0 ≤ size m'
  ∧ (alloc m = false → st' = st)
  ∧ (alloc m = true → writable m = true → fixed m = false →
     ∃ a asz, align (next_ram st) (sh_addralign m) = Ok a
       ∧ align (size m') (sh_addralign m) = Ok asz
       ∧ sh_addr m' = c_uint32 a ∧ next_ram st' = c_uint32 a + asz)
  ∧ (alloc m = true → writable m = false → next_ram st' = next_ram st)
  ∧ (alloc m = true → writable m = false → fixed m = false →
     ∃ a asz, align (next_flash st) (sh_addralign m) = Ok a
       ∧ align (psize m') (sh_addralign m) = Ok asz
       ∧ sh_addr m' = c_uint32 a ∧ paddr m' = Some a
       ∧ next_flash st' = a + asz)
  ∧ (alloc m = true → writable m = true → nobits m = true →
     next_flash st' = next_flash st)
  ∧ (alloc m = true → writable m = true → nobits m = false → fixed m = false →
     ∃ a asz, align (next_flash st) (sh_addralign m) = Ok a
       ∧ align (psize m') (sh_addralign m) = Ok asz
       ∧ next_flash st' = a + asz).

Lemma visit_Section_step st m st' m' :
  visit_Section st m = Ok (st', m') → section_step st m st' m'.
Proof.
  intros H. unfold visit_Section, get_paddr in H.
  pose proof (size_set_sh_size_nonneg m) as Hnn.
  set (m0 := set_sh_size (size m) m) in *.
  change (sh_flags m0) with (sh_flags m) in H.
  change (sh_type m0) with (sh_type m) in H.
  change (fixed m0) with (fixed m) in H.
  unfold section_step, alloc, writable, nobits.
  destruct (has_flag (sh_flags m) elf32.SHF_ALLOC) eqn:Ea; cbn [negb] in H.
  2:{ injection H as <- <-. split; [apply same_static_set_sh_size|].
      split; [done|]. repeat split; intros; congruence. }
  destruct (has_flag (sh_flags m) elf32.SHF_WRITE) eqn:Ew;
    destruct (sh_type m =? elf32.SHT_NOBITS) eqn:En;
    destruct (fixed m) eqn:Ef; cbn [negb orb andb] in H;
    cbn [mbind result_bind] in H;
    repeat match type of H with
    | context [align ?x ?y] =>
      destruct (align x y) eqn:?;
      cbn [mbind result_bind fixed paddr set_paddr set_sh_addr sh_addralign sh_addr
           sh_type sh_flags negb] in H;
      change (fixed m0) with (fixed m) in H;
      rewrite ?Ef in H; cbn [negb] in H
    | context [match paddr m0 with _ => _ end] =>
      destruct (paddr m0) eqn:?; cbn [mbind result_bind] in H
    | _ => progress cbn [mbind result_bind fixed paddr set_paddr set_sh_addr
                         sh_addralign sh_addr sh_type sh_flags negb] in H
    | _ => progress (change (fixed m0) with (fixed m) in H; rewrite ?Ef in H;
                     cbn [negb] in H)
    end;
    change (fixed m0) with (fixed m) in H; rewrite ?Ef in H; cbn [negb] in H;
    try discriminate;
    (injection H as Hst Hm'; subst st' m');
    (split; [by repeat split|]); (split; [exact Hnn|]);
    repeat split; intros; try congruence; eauto 10.
Qed.

End compute_addresses.


(** ** [Visitor.visit] on a list *)

Section visit_list_facts.
Context {St N : Type} (del : N → bool) (f : St → N → result (St * N)).

(** One element of the walk: a deleted node is skipped. *)
Definition visit_one (st : St) (n : N) (st' : St) (n' : N) : Prop :=
  if del n then st' = st ∧ n' = n else f st n = Ok (st', n').

Lemma visit_list_cons_inv st n r st' L' :
  visit_list del f st (n :: r) = Ok (st', L') →
  ∃ st1 n' r', L' = n' :: r' ∧ visit_one st n st1 n'
    ∧ visit_list del f st1 r = Ok (st', r').
Proof.
  cbn. unfold visit_one. destruct (del n).
  - destruct (visit_list del f st r) as [[s1 r']|] eqn:E; cbn; [|done].
    intros [= <- <-]. by exists st, n, r'.
  - destruct (f st n) as [[s1 n']|] eqn:E1; cbn; [|done].
    destruct (visit_list del f s1 r) as [[s2 r']|] eqn:E2; cbn; [|done].
    intros [= <- <-]. by exists s1, n', r'.
Qed.

Lemma visit_list_nil_inv st st' L' :
  visit_list del f st [] = Ok (st', L') → st' = st ∧ L' = [].
Proof. cbn. by intros [= <- <-]. Qed.

Lemma visit_list_length st L st' L' :
  visit_list del f st L = Ok (st', L') → length L' = length L.
Proof.
  revert st L'. induction L as [|n r IH]; intros st L' H.
  - by apply visit_list_nil_inv in H as [_ ->].
  - apply visit_list_cons_inv in H as (st1 & n' & r' & -> & _ & H).
    cbn. f_equal. by eapply IH.
Qed.

(** The walk seen from position [i]: the walk of the nodes before it, the
    visit of the node, the walk of the nodes after it. *)
Lemma visit_list_split st L st' L' i n' :
  visit_list del f st L = Ok (st', L') → L' !! i = Some n' →
  ∃ st1 st2 n,
    L !! i = Some n
    ∧ visit_list del f st (take i L) = Ok (st1, take i L')
    ∧ visit_one st1 n st2 n'
    ∧ visit_list del f st2 (drop (S i) L) = Ok (st', drop (S i) L').
Proof.
  revert st L' i. induction L as [|n r IH]; intros st L' i H Hi.
  - apply visit_list_nil_inv in H as [_ ->]. done.
  - apply visit_list_cons_inv in H as (st1 & m' & r' & -> & H1 & H).
    destruct i as [|i]; cbn in Hi.
    + injection Hi as ->. exists st, st1, n. cbn. by rewrite !drop_0.
    + destruct (IH st1 r' i H Hi) as (s1 & s2 & m & Hm & Ht & Hv & Hd).
      exists s1, s2, m. split; [done|]. split; [|done].
      cbn [take]. unfold visit_one in H1. cbn [visit_list].
      destruct (del n).
      * destruct H1 as [-> ->]. rewrite Ht. done.
      * rewrite H1. cbn. rewrite Ht. done.
Qed.

End visit_list_facts.


Section compute_addresses_run.
Import ComputeAddresses.

(** ** [ComputeAddresses]: the cursors along the section list *)

Lemma visit_step elffile st m st' m' :
  visit elffile st m = Ok (st', m') → section_step st m st' m'.
Proof.
  unfold visit, visit_PhdrsSection, visit_EhdrSection.
  assert (∀ v, visit_Section st (set_sh_size v m) = Ok (st', m') →
               section_step st m st' m') as Hv.
  { intros v H. apply visit_Section_step in H.
    destruct H as (Hs & Hrest). split; [|exact Hrest].
    eapply same_static_trans; [apply (same_static_set_sh_size v)|exact Hs]. }
  destruct (cls m); first [apply Hv | apply visit_Section_step].
Qed.

(** The room a section takes from a cursor at most: its size and twice
    its alignment; nothing when the pass does not place it. *)
Definition span (m : Section) : Z :=
  if deleted m || negb (alloc m) then 0 else size m + 2 * sh_addralign m.

Definition movable (m : Section) : Prop :=
  deleted m = true ∨ alloc m = false ∨ fixed m = false.

Lemma step_flags st m st' m' :
  section_step st m st' m' →
  deleted m' = deleted m ∧ alloc m' = alloc m ∧ writable m' = writable m
  ∧ fixed m' = fixed m ∧ nobits m' = nobits m ∧ sh_addralign m' = sh_addralign m.
Proof.
  intros ((Hc&Hf&Hd&Ht&Hfl&Ha&_) & _). unfold alloc, writable, nobits.
  rewrite Hd, Hf, Ht, Hfl, Ha. done.
Qed.

Lemma step_ram st m st' m' :
  section_step st m st' m' → deleted m' = false →
  alloc m' = false ∨ fixed m' = false →
  0 ≤ next_ram st → next_ram st + span m' ≤ 2 ^ 32 →
  next_ram st ≤ next_ram st' ≤ next_ram st + span m'.
Proof.
  intros Hs Hd Hmov H0 Hb.
  destruct (step_flags _ _ _ _ Hs) as (Ed & Ea & Ew & Ef & En & Eal).
  destruct Hs as (_ & Hsz & Hna & HW & HR & HRf & _).
  unfold span in *. rewrite Hd in *. cbn [orb] in *. rewrite Ea, Ef in *.
  destruct (alloc m) eqn:Em; cbn [negb] in *.
  2:{ rewrite (Hna eq_refl). lia. }
  destruct Hmov as [?|Hfx]; [done|].
  destruct (writable m) eqn:Emw.
  - destruct (HW eq_refl eq_refl Hfx) as (a & asz & Ha & Hasz & Haddr & Hnext).
    apply align_bounds in Ha as [Ha _]. apply align_bounds in Hasz as [Hasz _].
    rewrite Eal in *. rewrite Hnext.
    rewrite (c_uint32_in_range a) by lia. lia.
  - rewrite (HR eq_refl eq_refl).
    destruct (HRf eq_refl eq_refl Hfx) as (a & asz & Ha & _).
    apply align_Ok in Ha as (Hpos & _). rewrite Eal in *. lia.
Qed.

Lemma step_flash st m st' m' :
  section_step st m st' m' → deleted m' = false →
  alloc m' = false ∨ fixed m' = false →
  next_flash st ≤ next_flash st' ≤ next_flash st + span m'.
Proof.
  intros Hs Hd Hmov.
  destruct (step_flags _ _ _ _ Hs) as (Ed & Ea & Ew & Ef & En & Eal).
  destruct Hs as (_ & Hsz & Hna & HW & HR & HRf & HWn & HWf).
  pose proof (psize_bounds m' Hsz) as Hps.
  unfold span in *. rewrite Hd in *. cbn [orb] in *. rewrite Ea, Ef in *.
  destruct (alloc m) eqn:Em; cbn [negb] in *.
  2:{ rewrite (Hna eq_refl). lia. }
  destruct Hmov as [?|Hfx]; [done|].
  destruct (writable m) eqn:Emw.
  - destruct (HW eq_refl eq_refl Hfx) as (a0 & _ & Ha0 & _).
    apply align_Ok in Ha0 as (Hpos & _).
    destruct (nobits m) eqn:Enb.
    + rewrite (HWn eq_refl eq_refl eq_refl). rewrite Eal in *. lia.
    + destruct (HWf eq_refl eq_refl eq_refl Hfx) as (a & asz & Ha & Hasz & Hnext).
      apply align_bounds in Ha as [Ha _]. apply align_bounds in Hasz as [Hasz _].
      rewrite Eal in *. lia.
  - destruct (HRf eq_refl eq_refl Hfx) as (a & asz & Ha & Hasz & _ & _ & Hnext).
    apply align_bounds in Ha as [Ha _]. apply align_bounds in Hasz as [Hasz _].
    rewrite Eal in *. lia.
Qed.

Lemma visit_one_flags elffile st m st' m' :
  visit_one deleted (visit elffile) st m st' m' → deleted m' = deleted m.
Proof.
  unfold visit_one. destruct (deleted m) eqn:E.
  - by intros [_ ->].
  - intros H%visit_step. by destruct (step_flags _ _ _ _ H) as (-> & _).
Qed.

Lemma step_span_nonneg st m st' m' :
  section_step st m st' m' → alloc m' = false ∨ fixed m' = false → 0 ≤ span m'.
Proof.
  intros Hs Hmov.
  destruct (step_flags _ _ _ _ Hs) as (Ed & Ea & Ew & Ef & En & Eal).
  destruct Hs as (_ & Hsz & Hna & HW & HR & HRf & HWn & HWf).
  unfold span. destruct (deleted m'); [cbn [orb]; lia|]. cbn [orb].
  rewrite Ea, Eal. rewrite Ea, Ef in Hmov.
  destruct (alloc m) eqn:Em; cbn [negb]; [|lia].
  destruct Hmov as [?|Hfx]; [done|].
  destruct (writable m) eqn:Emw.
  - destruct (HW eq_refl eq_refl Hfx) as (a0 & _ & Ha0 & _).
    apply align_Ok in Ha0 as (Hpos & _). lia.
  - destruct (HRf eq_refl eq_refl Hfx) as (a0 & _ & Ha0 & _).
    apply align_Ok in Ha0 as (Hpos & _). lia.
Qed.

Lemma movable_not_deleted m : movable m → deleted m = false →
  alloc m = false ∨ fixed m = false.
Proof. intros [?|?] ?; [congruence|done]. Qed.

Lemma one_span_nonneg elffile st n st' n' :
  visit_one deleted (visit elffile) st n st' n' → movable n' → 0 ≤ span n'.
Proof.
  intros H1 Hn. pose proof (visit_one_flags _ _ _ _ _ H1) as Hdel.
  unfold visit_one in H1. destruct (deleted n) eqn:E.
  - unfold span. rewrite Hdel. cbn [orb]. lia.
  - apply visit_step in H1. eapply step_span_nonneg; [exact H1|].
    by apply movable_not_deleted.
Qed.

Lemma run_span_nonneg elffile L : ∀ st st' L',
  visit_sections elffile st L = Ok (st', L') → Forall movable L' →
  0 ≤ Zsum span L'.
Proof.
  unfold visit_sections.
  induction L as [|n r IH]; intros st st' L' H Hmov.
  - apply visit_list_nil_inv in H as [-> ->]. done.
  - apply visit_list_cons_inv in H as (st1 & n' & r' & -> & H1 & H).
    apply Forall_cons in Hmov as [Hn Hr]. cbn [Zsum].
    pose proof (one_span_nonneg _ _ _ _ _ H1 Hn).
    pose proof (IH _ _ _ H Hr). lia.
Qed.

Lemma one_ram elffile st n st' n' :
  visit_one deleted (visit elffile) st n st' n' → movable n' →
  0 ≤ next_ram st → next_ram st + span n' ≤ 2 ^ 32 →
  next_ram st ≤ next_ram st' ≤ next_ram st + span n'.
Proof.
  intros H1 Hn H0 Hb. pose proof (visit_one_flags _ _ _ _ _ H1) as Hdel.
  unfold visit_one in H1. destruct (deleted n) eqn:E.
  - destruct H1 as [-> ->]. unfold span. rewrite E. cbn. lia.
  - apply visit_step in H1. eapply step_ram; try done.
    by apply movable_not_deleted.
Qed.

Lemma one_flash elffile st n st' n' :
  visit_one deleted (visit elffile) st n st' n' → movable n' →
  next_flash st ≤ next_flash st' ≤ next_flash st + span n'.
Proof.
  intros H1 Hn. pose proof (visit_one_flags _ _ _ _ _ H1) as Hdel.
  unfold visit_one in H1. destruct (deleted n) eqn:E.
  - destruct H1 as [-> ->]. unfold span. rewrite E. cbn. lia.
  - apply visit_step in H1. eapply step_flash; try done.
    by apply movable_not_deleted.
Qed.

(** Over sections that are all placed by the pass (or skipped), the RAM
    cursor only advances, by no more than their spans, as long as it stays
    within 32 bits. *)
Lemma run_ram elffile L : ∀ st st' L',
  visit_sections elffile st L = Ok (st', L') → Forall movable L' →
  0 ≤ next_ram st → next_ram st + Zsum span L' ≤ 2 ^ 32 →
  next_ram st ≤ next_ram st' ≤ next_ram st + Zsum span L'.
Proof.
  unfold visit_sections.
  induction L as [|n r IH]; intros st st' L' H Hmov H0 Hb.
  - apply visit_list_nil_inv in H as [-> ->]. cbn [Zsum]. lia.
  - apply visit_list_cons_inv in H as (st1 & n' & r' & -> & H1 & H).
    apply Forall_cons in Hmov as [Hn Hr]. cbn [Zsum] in *.
    pose proof (run_span_nonneg elffile _ _ _ _ H Hr) as Hnn.
    pose proof (one_ram _ _ _ _ _ H1 Hn H0 ltac:(lia)) as Hs1.
    pose proof (IH _ _ _ H Hr ltac:(lia) ltac:(lia)). lia.
Qed.

(** The flash cursor is not stored in a 32-bit field: it only advances. *)
Lemma run_flash elffile L : ∀ st st' L',
  visit_sections elffile st L = Ok (st', L') → Forall movable L' →
  next_flash st ≤ next_flash st' ≤ next_flash st + Zsum span L'.
Proof.
  unfold visit_sections.
  induction L as [|n r IH]; intros st st' L' H Hmov.
  - apply visit_list_nil_inv in H as [-> ->]. cbn [Zsum]. lia.
  - apply visit_list_cons_inv in H as (st1 & n' & r' & -> & H1 & H).
    apply Forall_cons in Hmov as [Hn Hr]. cbn [Zsum] in *.
    pose proof (one_flash _ _ _ _ _ H1 Hn) as Hs1.
    pose proof (IH _ _ _ H Hr). lia.
Qed.

End compute_addresses_run.


Section compute_addresses_claim.
Import ComputeAddresses.

Lemma pow2_divide_c_uint32 a x :
  (∃ k, 0 ≤ k ∧ a = 2 ^ k) → a ≤ 2 ^ 32 → (a | x) → (a | c_uint32 x).
Proof.
  intros (k & Hk & ->) Hle Hx. unfold c_uint32.
  assert (k ≤ 32) as Hk32.
  { destruct (Z.le_gt_cases k 32) as [|Hgt]; [done|].
    pose proof (Z.pow_lt_mono_r 2 32 k ltac:(lia) ltac:(lia) Hgt). lia. }
  assert (2 ^ k | 2 ^ 32) as Hd.
  { exists (2 ^ (32 - k)). rewrite <- Z.pow_add_r by lia. f_equal. lia. }
  rewrite Z.mod_eq by lia. apply Z.divide_sub_r; [done|].
  apply Z.divide_mul_l. done.
Qed.

Lemma c_uint32_add_wrap a d :
  0 ≤ c_uint32 a + d < 2 ^ 32 → c_uint32 (a + d) = c_uint32 a + d.
Proof.
  intros H. unfold c_uint32 in *.
  rewrite <- Zplus_mod_idemp_l. by apply Z.mod_small.
Qed.

(** The sections from position [i] to position [j]. *)
Lemma take_drop_between {A} (L : list A) i j x y :
  (i < j)%nat → L !! i = Some x → L !! j = Some y →
  take (S j - i) (drop i L) = x :: take (j - i - 1) (drop (S i) L) ++ [y].
Proof.
  intros Hij Hi Hj.
  rewrite (drop_S L x i Hi).
  replace (S j - i)%nat with (S (S (j - i - 1))) by lia. cbn [take].
  f_equal. apply take_S_r. rewrite lookup_drop.
  by replace (S i + (j - i - 1))%nat with j by lia.
Qed.

Definition placed (m : Section) : Prop :=
  deleted m = false ∧ fixed m = false ∧ alloc m = true.

(** C5 (amended). After the pass, take two sections [si] before [sj] that
    the pass placed (not deleted, not fixed, SHF_ALLOC), with the same
    SHF_WRITE flag, every section between them placed or skipped (none of
    them fixed and allocated), and the addresses from [si] on within 32
    bits.  Then [sj] starts after the end of [si], where the end counts
    [size] for writable sections and [psize] for read-only ones, and both
    addresses are multiples of the sections' alignments. *)
Theorem compute_addresses_order st0 elffile st' elffile' i j si sj :
  visit_Elf st0 elffile = Ok (st', elffile') →
  (i < j)%nat →
  sections elffile' !! i = Some si →
  sections elffile' !! j = Some sj →
  placed si → placed sj →
  writable si = writable sj →
  (∀ k m, (i < k < j)%nat → sections elffile' !! k = Some m → movable m) →
  sh_addr si + Zsum span (take (S j - i) (drop i (sections elffile'))) ≤ 2 ^ 32 →
  sh_addr si + (if writable si then size si else psize si) ≤ sh_addr sj
  ∧ (sh_addralign si | sh_addr si)
  ∧ (sh_addralign sj | sh_addr sj).
Proof.
  intros Hrun Hij Hi Hj (Hdi & Hfi & Hai) (Hdj & Hfj & Haj) Hw Hmid Hfit.
  unfold visit_Elf in Hrun.
  destruct (visit_sections _ _ _) as [[s L']|] eqn:E; cbn [mbind result_bind] in Hrun;
    [|done].
  injection Hrun as <- <-. cbn [sections] in *.
  unfold visit_sections in E.
  destruct (visit_list_split _ _ _ _ _ _ i si E Hi)
    as (st1 & st2 & mi & Hmi & _ & Hvi & Etail).
  assert ((drop (S i) L') !! (j - i - 1)%nat = Some sj) as Hj'.
  { rewrite lookup_drop. by replace (S i + (j - i - 1))%nat with j by lia. }
  destruct (visit_list_split _ _ _ _ _ _ _ sj Etail Hj')
    as (st3 & st4 & mj & Hmj & Emid & Hvj & _).
  set (mid' := take (j - i - 1) (drop (S i) L')) in *.
  rewrite (take_drop_between L' i j si sj Hij Hi Hj) in Hfit. fold mid' in Hfit.
  cbn [Zsum] in Hfit. rewrite Zsum_app in Hfit. cbn [Zsum] in Hfit.
  assert (Forall movable mid') as Hmov.
  { apply Forall_forall. intros m Hm. apply list_elem_of_lookup in Hm as [k Hk].
    subst mid'. apply lookup_take_Some in Hk as [Hk Hlt].
    rewrite lookup_drop in Hk. eapply (Hmid (S i + k)%nat); [lia|done]. }
  pose proof (run_span_nonneg _ _ _ _ _ Emid Hmov) as Hmidnn.
  (* the two visits *)
  pose proof (visit_one_flags _ _ _ _ _ Hvi) as Hdi'.
  pose proof (visit_one_flags _ _ _ _ _ Hvj) as Hdj'.
  unfold visit_one in Hvi, Hvj.
  rewrite <- Hdi', Hdi in Hvi. rewrite <- Hdj', Hdj in Hvj.
  apply visit_step in Hvi. apply visit_step in Hvj.
  destruct (step_flags _ _ _ _ Hvi) as (_ & Eai & Ewi & Efi & _ & Eali).
  destruct (step_flags _ _ _ _ Hvj) as (_ & Eaj & Ewj & Efj & _ & Ealj).
  pose proof (step_span_nonneg _ _ _ _ Hvi (or_intror Hfi)) as Hsi.
  pose proof (step_span_nonneg _ _ _ _ Hvj (or_intror Hfj)) as Hsj.
  assert (span si = size si + 2 * sh_addralign si) as Espi
    by (unfold span; rewrite Hdi, Hai; done).
  assert (span sj = size sj + 2 * sh_addralign sj) as Espj
    by (unfold span; rewrite Hdj, Haj; done).
  destruct Hvi as (_ & Hszi & _ & HWi & _ & HRi & _).
  destruct Hvj as (_ & Hszj & _ & HWj & _ & HRj & _).
  assert (alloc mi = true) as Hai' by congruence.
  assert (alloc mj = true) as Haj' by congruence.
  assert (fixed mi = false) as Hfi' by congruence.
  assert (fixed mj = false) as Hfj' by congruence.
  pose proof (c_uint32_range 0) as _.
  pose proof (psize_bounds si Hszi) as Hpsi.
  pose proof (psize_bounds sj Hszj) as Hpsj.
  destruct (writable si) eqn:Ewsi.
  - (* both writable: the RAM cursor *)
    assert (writable mi = true) as Hwi' by congruence.
    assert (writable mj = true) as Hwj' by congruence.
    destruct (HWi Hai' Hwi' Hfi') as (ai & aszi & Hali & Haszi & Haddri & Hnexti).
    destruct (HWj Haj' Hwj' Hfj') as (aj & aszj & Halj & Haszj & Haddrj & Hnextj).
    rewrite <- Eali in *. rewrite <- Ealj in *.
    pose proof (align_Ok _ _ _ Hali) as (Hposi & Hpowi & _).
    pose proof (align_Ok _ _ _ Halj) as (Hposj & Hpowj & _).
    apply align_bounds in Hali as [Hbi Hdivi].
    apply align_bounds in Haszi as [Hbszi _].
    apply align_bounds in Halj as [Hbj Hdivj].
    pose proof (c_uint32_range ai) as Hri.
    rewrite <- Haddri in Hri, Hnexti.
    pose proof (run_ram _ _ _ _ _ Emid Hmov ltac:(lia) ltac:(lia)) as Hram.
    assert (sh_addr sj = aj) as Esj
      by (rewrite Haddrj; apply c_uint32_in_range; lia).
    split; [lia|]. split.
    + rewrite Haddri. apply pow2_divide_c_uint32; [done|lia|done].
    + rewrite Esj. done.
  - (* both read-only: the flash cursor *)
    assert (writable mi = false) as Hwi' by congruence.
    assert (writable mj = false) as Hwj' by congruence.
    destruct (HRi Hai' Hwi' Hfi') as (ai & aszi & Hali & Haszi & Haddri & _ & Hnexti).
    destruct (HRj Haj' Hwj' Hfj') as (aj & aszj & Halj & Haszj & Haddrj & _ & Hnextj).
    rewrite <- Eali in *. rewrite <- Ealj in *.
    pose proof (align_Ok _ _ _ Hali) as (Hposi & Hpowi & _).
    pose proof (align_Ok _ _ _ Halj) as (Hposj & Hpowj & _).
    apply align_bounds in Hali as [Hbi Hdivi].
    apply align_bounds in Haszi as [Hbszi _].
    apply align_bounds in Halj as [Hbj Hdivj].
    pose proof (c_uint32_range ai) as Hri.
    rewrite <- Haddri in Hri.
    pose proof (run_flash _ _ _ _ _ Emid Hmov) as Hflash.
    assert (sh_addr sj = sh_addr si + (aj - ai)) as Esj.
    { rewrite Haddrj, Haddri. replace aj with (ai + (aj - ai)) at 1 by lia.
      apply c_uint32_add_wrap. rewrite <- Haddri. lia. }
    split; [lia|]. split.
    + rewrite Haddri. apply pow2_divide_c_uint32; [done|lia|done].
    + rewrite Haddrj. apply pow2_divide_c_uint32; [done|lia|done].
Qed.

End compute_addresses_claim.


Section compute_addresses_examples.
Import ComputeAddresses.

(** Two sections as the rewriter creates them: [.dynamic] with three
    entries and [.hash] with its eight bytes, both SHF_ALLOC, read-only. *)
Definition example_dynamic : Section :=
  mkSection DynamicSection_ false false elf32.SHT_DYNAMIC elf32.SHF_ALLOC
    0 0 0 4 None 3 None.

Definition example_hash : Section :=
  mkSection Section_ false false elf32.SHT_HASH elf32.SHF_ALLOC
    0 0 0 4 (Some [0; 0; 0; 0; 2; 0; 0; 0]) 0 None.

Definition example_header : Ehdr := mkEhdr 0 0 52 32 7 40 3.

Definition example_elf : Elf :=
  mkElf example_header [example_dynamic; example_hash] [].

Lemma compute_addresses_order_witness :
  ∃ st' elffile' si sj,
    visit_Elf init example_elf = Ok (st', elffile')
    ∧ sections elffile' !! 0%nat = Some si
    ∧ sections elffile' !! 1%nat = Some sj
    ∧ sh_addr si + (if writable si then size si else psize si) ≤ sh_addr sj
    ∧ (sh_addralign si | sh_addr si)
    ∧ (sh_addralign sj | sh_addr sj).
Proof.
  eexists _, _, _, _. split; [vm_compute; reflexivity|].
  split; [reflexivity|]. split; [reflexivity|].
  eapply (compute_addresses_order init example_elf _ _ 0 1).
  - vm_compute; reflexivity.
  - lia.
  - reflexivity.
  - reflexivity.
  - by vm_compute.
  - by vm_compute.
  - reflexivity.
  - intros k m Hk. lia.
  - vm_compute. congruence.
Defined.

(** A read-only SHT_NOBITS section takes no flash: the flash cursor
    advances by [psize], which is 0, so the next read-only section gets the
    same address. *)
Definition example_nobits : Section :=
  mkSection Section_ false false elf32.SHT_NOBITS elf32.SHF_ALLOC
    0 0 16 4 None 0 None.

Definition example_text : Section :=
  mkSection Section_ false false elf32.SHT_PROGBITS elf32.SHF_ALLOC
    0 0 4 4 (Some [0x00; 0xBF; 0x00; 0xBF]) 0 None.

Definition example_nobits_elf : Elf :=
  mkElf example_header [example_nobits; example_text] [].

Lemma compute_addresses_nobits_overlap :
  ∃ st' elffile' si sj,
    visit_Elf init example_nobits_elf = Ok (st', elffile')
    ∧ sections elffile' !! 0%nat = Some si
    ∧ sections elffile' !! 1%nat = Some sj
    ∧ placed si ∧ placed sj ∧ writable si = writable sj
    ∧ size si = 16 ∧ sh_addr si = 0x10000000 ∧ sh_addr sj = 0x10000000
    ∧ ¬ (sh_addr si + size si ≤ sh_addr sj).
Proof.
  eexists _, _, _, _. split; [vm_compute; reflexivity|].
  split; [reflexivity|]. split; [reflexivity|].
  repeat split; try reflexivity. vm_compute. intros H. by apply H.
Qed.

End compute_addresses_examples.


Section compute_offsets.
Import ComputeOffsets.

(** ** [ComputeOffsets]: one section *)

Definition is_pseudo (m : Section) : bool :=
  bool_decide (cls m = EhdrSection_) || bool_decide (cls m = PhdrsSection_).

(** The sections [visit_Section] gives an offset: not deleted, not one of
    the two pseudo-sections, not SHT_NULL. *)
Definition laid_out (m : Section) : Prop :=
  deleted m = false ∧ is_pseudo m = false ∧ sh_type m ≠ elf32.SHT_NULL.

Definition offset_step (phoff : Z) (o : Z) (m : Section) (o' : Z) (m' : Section) : Prop :=
  same_static m m' ∧ sh_size m' = sh_size m
  ∧ (cls m = EhdrSection_ → o' = o ∧ sh_offset m' = 0)
  ∧ (cls m = PhdrsSection_ → o' = o ∧ sh_offset m' = c_uint32 phoff)
  ∧ (is_pseudo m = false → sh_type m = elf32.SHT_NULL → o' = o ∧ m' = m)
  ∧ (is_pseudo m = false → sh_type m ≠ elf32.SHT_NULL →
     ∃ a, align o (sh_addralign m) = Ok a
       ∧ sh_offset m' = c_uint32 a ∧ o' = a + psize m').

Lemma visit_Section_offset_step phoff o m o' m' :
  is_pseudo m = false →
  visit_Section o m = Ok (o', m') → offset_step phoff o m o' m'.
Proof.
  intros Hp. unfold visit_Section, align_offset, offset_step.
  unfold is_pseudo in Hp. apply orb_false_iff in Hp as [H1%bool_decide_eq_false H2%bool_decide_eq_false].
  destruct (sh_type m =? elf32.SHT_NULL) eqn:E; cbn [negb].
  - apply Z.eqb_eq in E. intros [= <- <-].
    split; [apply same_static_refl|]. split; [done|]. repeat split; try done.
  - apply Z.eqb_neq in E.
    destruct (align o (sh_addralign m)) as [a|] eqn:Ea; cbn [mbind result_bind]; [|done].
    intros [= <- <-].
    split; [apply same_static_set_sh_offset|]. split; [done|].
    repeat split; try done. intros _ _. exists a. done.
Qed.

Lemma visit_offset_step phoff o m o' m' :
  visit phoff o m = Ok (o', m') → offset_step phoff o m o' m'.
Proof.
  unfold visit.
  destruct (cls m) eqn:Ec;
    try (apply visit_Section_offset_step; unfold is_pseudo; rewrite Ec; done).
  - unfold visit_EhdrSection. intros [= <- <-].
    split; [apply same_static_set_sh_offset|]. split; [done|].
    unfold is_pseudo. rewrite Ec. repeat split; try done.
  - unfold visit_PhdrsSection. intros [= <- <-].
    split; [apply same_static_set_sh_offset|]. split; [done|].
    unfold is_pseudo. rewrite Ec. repeat split; try done.
Qed.

Lemma offset_step_flags phoff o m o' m' :
  offset_step phoff o m o' m' →
  deleted m' = deleted m ∧ is_pseudo m' = is_pseudo m ∧ sh_type m' = sh_type m
  ∧ sh_addralign m' = sh_addralign m ∧ cls m' = cls m
  ∧ size m' = size m ∧ psize m' = psize m.
Proof.
  intros (Hs & Hsz & _). pose proof (size_same _ _ Hs Hsz). pose proof (psize_same _ _ Hs Hsz).
  destruct Hs as (Hc&Hf&Hd&Ht&Hfl&Ha&_). unfold is_pseudo. rewrite Hc. done.
Qed.

Lemma one_offset_flags phoff o m o' m' :
  visit_one deleted (visit phoff) o m o' m' →
  deleted m' = deleted m ∧ is_pseudo m' = is_pseudo m ∧ sh_type m' = sh_type m
  ∧ sh_addralign m' = sh_addralign m ∧ cls m' = cls m
  ∧ size m' = size m ∧ psize m' = psize m.
Proof.
  unfold visit_one. destruct (deleted m) eqn:E.
  - intros [_ ->]. by repeat split.
  - rewrite <- E. intros H%visit_offset_step. by eapply offset_step_flags.
Qed.

(** The cursor never moves back when sizes are not negative. *)
Lemma one_offset_mono phoff o m o' m' :
  visit_one deleted (visit phoff) o m o' m' → 0 ≤ size m' → o ≤ o'.
Proof.
  intros H Hsz. pose proof (one_offset_flags _ _ _ _ _ H) as (_&Hp&Ht&_&Hc&_&_).
  unfold visit_one in H. destruct (deleted m); [destruct H as [-> _]; lia|].
  apply visit_offset_step in H as (_ & _ & He & Hph & Hnull & Hreg).
  destruct (is_pseudo m) eqn:Ep.
  - unfold is_pseudo in Ep. apply orb_true_iff in Ep as [E%bool_decide_eq_true|E%bool_decide_eq_true].
    + destruct (He E) as [-> _]. lia.
    + destruct (Hph E) as [-> _]. lia.
  - destruct (decide (sh_type m = elf32.SHT_NULL)) as [E|E].
    + destruct (Hnull eq_refl E) as [-> _]. lia.
    + destruct (Hreg eq_refl E) as (a & Ha & _ & ->).
      apply align_bounds in Ha as [Ha _]. pose proof (psize_bounds m' Hsz). lia.
Qed.

Lemma run_offset_mono phoff L : ∀ o o' L',
  visit_sections phoff o L = Ok (o', L') → Forall (fun m => 0 ≤ size m) L' → o ≤ o'.
Proof.
  unfold visit_sections.
  induction L as [|n r IH]; intros o o' L' H Hsz.
  - apply visit_list_nil_inv in H as [-> ->]. lia.
  - apply visit_list_cons_inv in H as (o1 & n' & r' & -> & H1 & H).
    apply Forall_cons in Hsz as [Hn Hr].
    pose proof (one_offset_mono _ _ _ _ _ H1 Hn). pose proof (IH _ _ _ H Hr). lia.
Qed.

(** Where a laid-out section at position [i] of the walk sits: at the
    aligned cursor, between the cursor at the start of the walk and the
    cursor at its end. *)
Lemma run_offset_at phoff L o o' L' i m' :
  visit_sections phoff o L = Ok (o', L') → Forall (fun m => 0 ≤ size m) L' →
  L' !! i = Some m' → laid_out m' →
  ∃ a, o ≤ a ∧ a + psize m' ≤ o'
     ∧ sh_offset m' = c_uint32 a
     ∧ (sh_addralign m' | a).
Proof.
  intros H Hsz Hi (Hd & Hp & Ht). unfold visit_sections in H.
  destruct (visit_list_split _ _ _ _ _ _ i m' H Hi)
    as (o1 & o2 & m & Hm & Hpre & Hv & Hpost).
  pose proof (one_offset_flags _ _ _ _ _ Hv) as (Ed & Ep & Et & Ea & _).
  assert (o ≤ o1) as H1.
  { eapply (run_offset_mono phoff); [exact Hpre|]. by apply Forall_take. }
  assert (o2 ≤ o') as H2.
  { eapply (run_offset_mono phoff); [exact Hpost|]. by apply Forall_drop. }
  unfold visit_one in Hv. rewrite <- Ed, Hd in Hv.
  apply visit_offset_step in Hv as (_ & _ & _ & _ & _ & Hreg).
  rewrite Ep, Et in *.
  destruct (Hreg Hp Ht) as (a & Ha & Hoff & ->).
  apply align_bounds in Ha as [Ha Hdiv]. rewrite <- Ea in Hdiv.
  exists a. repeat split; try done; lia.
Qed.

(** Two laid-out sections, in list order. *)
Lemma run_offset_order phoff L o o' L' i j si sj :
  visit_sections phoff o L = Ok (o', L') → Forall (fun m => 0 ≤ size m) L' →
  (i < j)%nat → L' !! i = Some si → L' !! j = Some sj →
  laid_out si → laid_out sj →
  ∃ ai aj, o ≤ ai ∧ ai + psize si ≤ aj ∧ aj + psize sj ≤ o'
     ∧ sh_offset si = c_uint32 ai ∧ sh_offset sj = c_uint32 aj.
Proof.
  intros H Hsz Hij Hi Hj (Hd & Hp & Ht) Hlj. unfold visit_sections in H.
  destruct (visit_list_split _ _ _ _ _ _ i si H Hi)
    as (o1 & o2 & m & Hm & Hpre & Hv & Hpost).
  pose proof (one_offset_flags _ _ _ _ _ Hv) as (Ed & Ep & Et & Ea & _).
  assert (o ≤ o1) as H1.
  { eapply (run_offset_mono phoff); [exact Hpre|]. by apply Forall_take. }
  assert ((drop (S i) L') !! (j - i - 1)%nat = Some sj) as Hj'.
  { rewrite lookup_drop. by replace (S i + (j - i - 1))%nat with j by lia. }
  destruct (run_offset_at phoff _ _ _ _ _ _ Hpost (Forall_drop _ _ _ Hsz) Hj' Hlj)
    as (aj & Haj1 & Haj2 & Hoj & _).
  unfold visit_one in Hv. rewrite <- Ed, Hd in Hv.
  apply visit_offset_step in Hv as (_ & _ & _ & _ & _ & Hreg).
  rewrite Ep, Et in *.
  destruct (Hreg Hp Ht) as (ai & Ha & Hoff & ->).
  apply align_bounds in Ha as [Ha Hdiv].
  exists ai, aj. repeat split; try done; lia.
Qed.

End compute_offsets.


Section compute_offsets_claim.
Import ComputeOffsets.

Lemma run_offset_pseudo phoff L o o' L' i m' :
  visit_sections phoff o L = Ok (o', L') →
  L' !! i = Some m' → deleted m' = false →
  (cls m' = EhdrSection_ → sh_offset m' = 0)
  ∧ (cls m' = PhdrsSection_ → sh_offset m' = c_uint32 phoff).
Proof.
  intros H Hi Hd. unfold visit_sections in H.
  destruct (visit_list_split _ _ _ _ _ _ i m' H Hi)
    as (o1 & o2 & m & Hm & Hpre & Hv & Hpost).
  pose proof (one_offset_flags _ _ _ _ _ Hv) as (Ed & _ & _ & _ & Ec & _).
  unfold visit_one in Hv. rewrite <- Ed, Hd in Hv.
  apply visit_offset_step in Hv as (_ & _ & He & Hph & _).
  rewrite Ec. split; intros E; [by destruct (He E)|by destruct (Hph E)].
Qed.

Lemma align_4 x : ∃ a, align x 4 = Ok a ∧ x ≤ a ∧ (4 | a).
Proof.
  destruct (align_result x 4) as [[a Ha]|Hr].
  - exists a. split; [done|]. apply align_bounds in Ha. split; [lia|tauto].
  - unfold align, assert in Hr. cbn in Hr. done.
Qed.

(** The end of the bytes a section has in the file. *)
Definition file_end (m : Section) : Z := sh_offset m + psize m.

(** Two file intervals [sh_offset, sh_offset + psize) that do not meet. *)
Definition apart (a b : Section) : Prop :=
  file_end a ≤ sh_offset b ∨ file_end b ≤ sh_offset a.

(** The sections the pass accounts for: not deleted, and either laid out
    by [visit_Section] (not SHT_NULL), or a pseudo-section no larger than
    the header block it stands for (as [ComputeAddresses] sizes it). *)
Definition covered (h : Ehdr) (m : Section) : Prop :=
  deleted m = false
  ∧ match cls m with
    | EhdrSection_ => psize m ≤ e_ehsize h
    | PhdrsSection_ => psize m ≤ e_phnum h * e_phentsize h
    | _ => sh_type m ≠ elf32.SHT_NULL
    end.

Lemma covered_cases h m :
  covered h m →
  (cls m = EhdrSection_ ∧ psize m ≤ e_ehsize h)
  ∨ (cls m = PhdrsSection_ ∧ psize m ≤ e_phnum h * e_phentsize h)
  ∨ laid_out m.
Proof.
  intros [Hd Hc]. unfold laid_out, is_pseudo.
  destruct (cls m) eqn:E; first [by left | by right; left | by right; right].
Qed.

(** The cursors of [visit_Elf]. *)
Lemma visit_Elf_inv sh_align elffile ofinal elffile' :
  let h := ehdr elffile in
  visit_Elf sh_align elffile = Ok (ofinal, elffile') →
  ∃ o1 o3 o4 o5,
    align (e_ehsize h) elf32.alignment_Phdr = Ok o1
    ∧ align (o1 + e_phnum h * e_phentsize h) sh_align = Ok o3
    ∧ visit_sections (c_uint32 o1) o3 (sections elffile) = Ok (o4, sections elffile')
    ∧ align o4 elf32.alignment_Shdr = Ok o5
    ∧ ofinal = o5 + e_shnum h * e_shentsize h
    ∧ e_phoff (ehdr elffile') = c_uint32 o1
    ∧ e_shoff (ehdr elffile') = c_uint32 o5
    ∧ e_ehsize (ehdr elffile') = e_ehsize h
    ∧ e_phnum (ehdr elffile') = e_phnum h
    ∧ e_phentsize (ehdr elffile') = e_phentsize h.
Proof.
  intros h H. unfold visit_Elf, align_offset in H. fold h in H.
  destruct (align (e_ehsize h) elf32.alignment_Phdr) as [o1|] eqn:E1;
    cbn [mbind result_bind] in H; [|done].
  destruct (align (o1 + e_phnum h * e_phentsize h) sh_align) as [o3|] eqn:E3;
    cbn [mbind result_bind] in H; [|done].
  destruct (visit_sections (c_uint32 o1) o3 (sections elffile)) as [[o4 secs]|] eqn:E4;
    cbn [mbind result_bind] in H; [|done].
  destruct (align o4 elf32.alignment_Shdr) as [o5|] eqn:E5;
    cbn [mbind result_bind] in H; [|done].
  injection H as <- <-. exists o1, o3, o4, o5. cbn. by repeat split.
Qed.

(** C6 (amended). After the pass, with a file below 4 GiB: any two
    sections at different positions that the pass accounts for (not
    deleted; laid out, that is not SHT_NULL, or a pseudo-section no larger
    than its header block; not two pseudo-sections of the same kind) have
    disjoint file intervals; a laid-out section's [sh_offset] is a multiple
    of its [sh_addralign]; the Ehdr pseudo-section is at 0 and the Phdrs
    pseudo-section at [e_phoff], a multiple of the Phdr alignment. *)
Theorem compute_offsets_packing sh_align elffile ofinal elffile' :
  let h := ehdr elffile in
  visit_Elf sh_align elffile = Ok (ofinal, elffile') →
  0 ≤ e_ehsize h → 0 ≤ e_phnum h * e_phentsize h → 0 ≤ e_shnum h * e_shentsize h →
  Forall (fun m => 0 ≤ size m) (sections elffile') →
  ofinal < 2 ^ 32 →
  (∀ i j a b,
     i ≠ j → sections elffile' !! i = Some a → sections elffile' !! j = Some b →
     covered h a → covered h b → (cls a = cls b → is_pseudo a = false) →
     apart a b)
  ∧ (∀ i m,
       sections elffile' !! i = Some m → deleted m = false →
       (laid_out m → (sh_addralign m | sh_offset m))
       ∧ (cls m = EhdrSection_ → sh_offset m = 0)
       ∧ (cls m = PhdrsSection_ →
          sh_offset m = e_phoff (ehdr elffile')
          ∧ (elf32.alignment_Phdr | sh_offset m))).
Proof.
  intros h Hrun Heh Hph Hsh Hsz Hfit.
  destruct (visit_Elf_inv _ _ _ _ Hrun) as
    (o1 & o3 & o4 & o5 & Ho1 & Ho3 & Hsec & Ho5 & -> & Ephoff & _).
  subst h. cbv zeta in *. set (h := ehdr elffile) in *.
  apply align_bounds in Ho1 as [Ho1 Hd1]. apply align_bounds in Ho3 as [Ho3 _].
  apply align_bounds in Ho5 as [Ho5 _].
  pose proof (run_offset_mono _ _ _ _ _ Hsec Hsz) as Hmono.
  assert (c_uint32 o1 = o1) as Eo1 by (apply c_uint32_in_range; lia).
  assert (∀ i m, sections elffile' !! i = Some m → laid_out m →
            ∃ a, sh_offset m = a ∧ o3 ≤ a ∧ a + psize m ≤ o4 ∧ (sh_addralign m | a))
    as Hlaid.
  { intros i m Hi Hl.
    destruct (run_offset_at _ _ _ _ _ _ _ Hsec Hsz Hi Hl) as (a & H1 & H2 & H3 & H4).
    exists a. split; [|done]. rewrite H3. apply c_uint32_in_range.
    destruct Hl as (_ & _ & _).
    assert (0 ≤ psize m).
    { apply psize_bounds. rewrite Forall_forall in Hsz. apply Hsz.
      by eapply list_elem_of_lookup_2. }
    lia. }
  assert (∀ i m, sections elffile' !! i = Some m → deleted m = false →
            (cls m = EhdrSection_ → sh_offset m = 0)
            ∧ (cls m = PhdrsSection_ → sh_offset m = o1)) as Hpseudo.
  { intros i m Hi Hd.
    destruct (run_offset_pseudo _ _ _ _ _ _ _ Hsec Hi Hd) as [H1 H2].
    split; [done|]. intros E. rewrite (H2 E). rewrite c_uint32_idemp. done. }
  assert (∀ i j a b, (i < j)%nat →
            sections elffile' !! i = Some a → sections elffile' !! j = Some b →
            laid_out a → laid_out b → file_end a ≤ sh_offset b) as Hord.
  { intros i j a b Hij Hi Hj Ha Hb.
    destruct (run_offset_order _ _ _ _ _ _ _ _ _ Hsec Hsz Hij Hi Hj Ha Hb)
      as (ai & aj & H1 & H2 & H3 & H4 & H5).
    assert (0 ≤ psize a ∧ 0 ≤ psize b) as [? ?].
    { rewrite Forall_forall in Hsz.
      split; apply psize_bounds, Hsz; by eapply list_elem_of_lookup_2. }
    unfold file_end. rewrite H4, H5.
    rewrite !c_uint32_in_range by lia. lia. }
  split.
  - intros i j a b Hij Hi Hj Ha Hb Hsame. unfold apart, file_end.
    pose proof (proj1 Ha) as Hda. pose proof (proj1 Hb) as Hdb.
    destruct (Hpseudo _ _ Hi Hda) as [HaE HaP].
    destruct (Hpseudo _ _ Hj Hdb) as [HbE HbP].
    destruct (covered_cases _ _ Ha) as [[Ea Hpa]|[[Ea Hpa]|La]];
      destruct (covered_cases _ _ Hb) as [[Eb Hpb]|[[Eb Hpb]|Lb]].
    + exfalso. assert (is_pseudo a = false) as Hp by (apply Hsame; congruence).
      unfold is_pseudo in Hp. rewrite Ea in Hp. done.
    + left. rewrite (HaE Ea), (HbP Eb). lia.
    + left. destruct (Hlaid _ _ Hj Lb) as (x & -> & ? & ? & _). rewrite (HaE Ea). lia.
    + right. rewrite (HbE Eb), (HaP Ea). lia.
    + exfalso. assert (is_pseudo a = false) as Hp by (apply Hsame; congruence).
      unfold is_pseudo in Hp. rewrite Ea in Hp. by rewrite orb_true_r in Hp.
    + left. destruct (Hlaid _ _ Hj Lb) as (x & -> & ? & ? & _). rewrite (HaP Ea). lia.
    + right. destruct (Hlaid _ _ Hi La) as (x & -> & ? & ? & _). rewrite (HbE Eb). lia.
    + right. destruct (Hlaid _ _ Hi La) as (x & -> & ? & ? & _). rewrite (HbP Eb). lia.
    + destruct (Nat.lt_total i j) as [Hlt|[?|Hlt]]; [|done|].
      * left. by eapply (Hord i j).
      * right. by eapply (Hord j i).
  - intros i m Hi Hd. destruct (Hpseudo _ _ Hi Hd) as [HE HP].
    split; [|split; [done|]].
    + intros Hl. destruct (Hlaid _ _ Hi Hl) as (x & -> & _ & _ & Hdiv). done.
    + intros E. rewrite (HP E), Ephoff, Eo1. done.
Qed.

End compute_offsets_claim.


Section compute_offsets_examples.
Import ComputeOffsets.

(** The Phdrs pseudo-section and two sections of the rewriter, after
    [ComputeAddresses] has sized and placed them. *)
Definition packed_phdrs : Section :=
  mkSection PhdrsSection_ false false elf32.SHT_NULL elf32.SHF_ALLOC
    0x10000000 0 224 4 None 0 (Some 0x10000000).

Definition packed_dynamic : Section :=
  mkSection DynamicSection_ false false elf32.SHT_DYNAMIC elf32.SHF_ALLOC
    0x100000E0 0 24 4 None 3 (Some 0x100000E0).

Definition packed_hash : Section :=
  mkSection Section_ false false elf32.SHT_HASH elf32.SHF_ALLOC
    0x100000F8 0 8 4 (Some [0; 0; 0; 0; 2; 0; 0; 0]) 0 (Some 0x100000F8).

Definition packed_elf : Elf :=
  mkElf example_header [packed_phdrs; packed_dynamic; packed_hash] [].

Lemma compute_offsets_packing_witness :
  ∃ ofinal elffile',
    visit_Elf 4096 packed_elf = Ok (ofinal, elffile')
    ∧ (∀ i j a b,
         i ≠ j → sections elffile' !! i = Some a → sections elffile' !! j = Some b →
         covered example_header a → covered example_header b →
         (cls a = cls b → is_pseudo a = false) → apart a b)
    ∧ (∀ i m,
         sections elffile' !! i = Some m → deleted m = false →
         (laid_out m → (sh_addralign m | sh_offset m))
         ∧ (cls m = EhdrSection_ → sh_offset m = 0)
         ∧ (cls m = PhdrsSection_ →
            sh_offset m = e_phoff (ehdr elffile')
            ∧ (elf32.alignment_Phdr | sh_offset m))).
Proof.
  eexists _, _. split; [vm_compute; reflexivity|].
  eapply (compute_offsets_packing 4096 packed_elf).
  - vm_compute; reflexivity.
  - vm_compute. congruence.
  - vm_compute. congruence.
  - vm_compute. congruence.
  - repeat constructor; vm_compute; congruence.
  - reflexivity.
Defined.

(** A SHT_NULL section keeps the offset it came with, and a deleted
    section is not visited: their file intervals can meet those of the
    sections the pass lays out, and their offsets need not be aligned. *)
Definition stale_null : Section :=
  mkSection Section_ true false elf32.SHT_NULL 0 0 4098 8 4 None 0 None.

Definition stale_rel : Section :=
  mkSection RelSection_ true true elf32.SHT_REL 0 0 4098 8 4 None 1 None.

Definition stale_text : Section :=
  mkSection Section_ true false elf32.SHT_PROGBITS elf32.SHF_ALLOC
    0x10000000 0 4 4 (Some [0x00; 0xBF; 0x00; 0xBF]) 0 (Some 0x10000000).

Lemma compute_offsets_stale_overlap :
  (∃ ofinal elffile' a b,
     visit_Elf 4096 (mkElf example_header [stale_null; stale_text] []) = Ok (ofinal, elffile')
     ∧ sections elffile' !! 0%nat = Some a ∧ sections elffile' !! 1%nat = Some b
     ∧ sh_offset a = 4098 ∧ psize a = 8 ∧ sh_offset b = 4096 ∧ psize b = 4
     ∧ ¬ apart a b ∧ ¬ (sh_addralign a | sh_offset a))
  ∧ (∃ ofinal elffile' a b,
     visit_Elf 4096 (mkElf example_header [stale_rel; stale_text] []) = Ok (ofinal, elffile')
     ∧ sections elffile' !! 0%nat = Some a ∧ sections elffile' !! 1%nat = Some b
     ∧ sh_offset a = 4098 ∧ psize a = 8 ∧ sh_offset b = 4096 ∧ psize b = 4
     ∧ ¬ apart a b ∧ ¬ (sh_addralign a | sh_offset a)).
Proof.
  split.
  - eexists _, _, _, _. split; [vm_compute; reflexivity|].
    split; [reflexivity|]. split; [reflexivity|].
    repeat split; try reflexivity.
    + unfold apart, file_end. vm_compute. intros [H|H]; by apply H.
    + intros [k Hk]. change (4098 = k * 4) in Hk. lia.
  - eexists _, _, _, _. split; [vm_compute; reflexivity|].
    split; [reflexivity|]. split; [reflexivity|].
    repeat split; try reflexivity.
    + unfold apart, file_end. vm_compute. intros [H|H]; by apply H.
    + intros [k Hk]. change (4098 = k * 4) in Hk. lia.
Qed.

(** ** C10: a section whose alignment [align] rejects *)

Definition bad_alignment (m : Section) : Prop :=
  sh_addralign m ≤ 0 ∨ Z.land (sh_addralign m) (sh_addralign m - 1) ≠ 0.

Lemma visit_raises_assert phoff o m e :
  visit phoff o m = Raise e → e = AssertionError.
Proof.
  unfold visit, visit_Section, visit_EhdrSection, visit_PhdrsSection, align_offset.
  destruct (cls m); try done;
    destruct (negb _); try done;
    destruct (align_result o (sh_addralign m)) as [[a ->] | ->]; cbn; congruence.
Qed.

Lemma visit_bad_alignment phoff o m :
  is_pseudo m = false → sh_type m ≠ elf32.SHT_NULL → bad_alignment m →
  visit phoff o m = Raise AssertionError.
Proof.
  intros Hp Ht Hb.
  assert (visit_Section o m = Raise AssertionError) as H.
  { unfold visit_Section, align_offset.
    destruct (sh_type m =? elf32.SHT_NULL) eqn:E; [apply Z.eqb_eq in E; done|].
    cbn [negb]. by rewrite align_Raise. }
  unfold visit. unfold is_pseudo in Hp.
  destruct (cls m); try done.
Qed.

Lemma visit_sections_bad_alignment phoff L : ∀ o m,
  m ∈ L → laid_out m → bad_alignment m →
  visit_sections phoff o L = Raise AssertionError.
Proof.
  unfold visit_sections.
  induction L as [|n r IH]; intros o m Hm Hl Hb; [by apply elem_of_nil in Hm|].
  cbn [visit_list]. destruct (deleted n) eqn:Ed.
  - apply elem_of_cons in Hm as [->|Hm]; [destruct Hl; congruence|].
    by rewrite (IH o m Hm Hl Hb).
  - apply elem_of_cons in Hm as [->|Hm].
    + destruct Hl as (_ & Hp & Ht). by rewrite visit_bad_alignment.
    + destruct (visit phoff o n) as [[o1 n']|e] eqn:E; cbn [mbind result_bind].
      * by rewrite (IH o1 m Hm Hl Hb).
      * by apply visit_raises_assert in E as ->.
Qed.

(** C10 (amended). When the section list holds a section that the pass
    lays out (not deleted, not a pseudo-section, not SHT_NULL) and whose
    [sh_addralign] is not a positive power of two, [ComputeOffsets] ends in
    an assertion failure. *)
Theorem compute_offsets_bad_alignment sh_align elffile m :
  m ∈ sections elffile → laid_out m → bad_alignment m →
  visit_Elf sh_align elffile = Raise AssertionError.
Proof.
  intros Hm Hl Hb. unfold visit_Elf, align_offset.
  change elf32.alignment_Phdr with 4.
  destruct (align_4 (e_ehsize (ehdr elffile))) as (o1 & -> & _).
  cbn [mbind result_bind].
  destruct (align_result (o1 + e_phnum (ehdr elffile) * e_phentsize (ehdr elffile)) sh_align)
    as [[o3 ->] | ->]; cbn [mbind result_bind]; [|done].
  by rewrite (visit_sections_bad_alignment _ _ _ m Hm Hl Hb).
Qed.

Definition unaligned_note : Section :=
  mkSection Section_ true false elf32.SHT_PROGBITS 0 0 0x2000 4 0
    (Some [1; 2; 3; 4]) 0 None.

Lemma compute_offsets_bad_alignment_witness :
  visit_Elf 4096 (mkElf example_header [stale_text; unaligned_note] [])
  = Raise AssertionError.
Proof.
  apply (compute_offsets_bad_alignment 4096 _ unaligned_note).
  - right. left.
  - by vm_compute.
  - left. by vm_compute.
Defined.

(** A section with [sh_addralign = 0] that is marked deleted (as the
    rewriter marks every input SHT_REL section) is never passed to [align]:
    both layout passes return. *)
Definition deleted_rel : Section :=
  mkSection RelSection_ true true elf32.SHT_REL 0 0 0x2000 8 0 None 1 None.

Lemma layout_skips_deleted_section :
  deleted_rel ∈ [stale_text; deleted_rel]
  ∧ sh_type deleted_rel ≠ elf32.SHT_NULL
  ∧ sh_addralign deleted_rel = 0
  ∧ (∃ st elffile1 ofinal elffile2,
       ComputeAddresses.visit_Elf ComputeAddresses.init
         (mkElf example_header [stale_text; deleted_rel] []) = Ok (st, elffile1)
       ∧ visit_Elf 4096 elffile1 = Ok (ofinal, elffile2)).
Proof.
  split; [right; left|]. split; [by vm_compute|]. split; [reflexivity|].
  eexists _, _, _, _. split; [vm_compute; reflexivity|].
  vm_compute; reflexivity.
Qed.

End compute_offsets_examples.


(** ** [PurgeDeleted]: a round that leaves [again] unset *)

Section purge_quiet.
Import PurgeDeleted.
Context (refs : Refs).

Lemma is_deleted_ext s s' x :
  deleted_nodes s' = deleted_nodes s → is_deleted s' x = is_deleted s x.
Proof. unfold is_deleted. by intros ->. Qed.

Lemma ref_deleted_ext s s' k r :
  deleted_nodes s' = deleted_nodes s → ref_deleted s' k r = ref_deleted s k r.
Proof. intros H. destruct r; cbn; [by apply is_deleted_ext|done]. Qed.

Lemma live_ext s s' k l :
  deleted_nodes s' = deleted_nodes s → live s' k l = live s k l.
Proof. intros H. unfold live, is_deleted. by rewrite H. Qed.

Lemma elem_of_live s k l n :
  n ∈ live s k l ↔ is_deleted s (k, n) = false ∧ n ∈ l.
Proof. unfold live. by rewrite list_elem_of_filter. Qed.

Lemma live_idemp s k l : live s k (live s k l) = live s k l.
Proof. unfold live. by rewrite list_filter_filter_l. Qed.

Lemma live_all s k l :
  (∀ n, n ∈ l → is_deleted s (k, n) = false) → live s k l = l.
Proof.
  induction l as [|a l IH]; intros H; [done|].
  unfold live in *. rewrite filter_cons_True by (apply H; left).
  f_equal. apply IH. intros n Hn. apply H. by right.
Qed.

Lemma entries_of_set_entries n l s m :
  entries_of (set_entries n l s) m = if decide (m = n) then l else entries_of s m.
Proof.
  unfold entries_of, set_entries. cbn [sec_entries].
  destruct (decide (m = n)) as [->|Hne].
  - by rewrite lookup_insert_eq.
  - by rewrite lookup_insert_ne.
Qed.

Lemma members_of_set_members p l s q :
  members_of (set_members p l s) q = if decide (q = p) then l else members_of s q.
Proof.
  unfold members_of, set_members. cbn [seg_members].
  destruct (decide (q = p)) as [->|Hne].
  - by rewrite lookup_insert_eq.
  - by rewrite lookup_insert_ne.
Qed.

(** [quiet s s']: from [s] to [s'] nothing was deleted, [again] was not
    touched, and the lists only lost deleted nodes. *)
Record quiet (s s' : State) : Prop := mkQuiet {
  quiet_deleted : deleted_nodes s' = deleted_nodes s;
  quiet_again : again s' = again s;
  quiet_sections : elf_sections s' = elf_sections s;
  quiet_segments : elf_segments s' = elf_segments s;
  quiet_entries : ∀ n e, e ∈ entries_of s' n → e ∈ entries_of s n;
  quiet_members : ∀ p m, m ∈ members_of s' p → m ∈ members_of s p;
  quiet_live_members :
    ∀ p, live s KSection (members_of s' p) = live s KSection (members_of s p)
}.

Lemma quiet_refl s : quiet s s.
Proof. by constructor. Qed.

Lemma quiet_trans s1 s2 s3 : quiet s1 s2 → quiet s2 s3 → quiet s1 s3.
Proof.
  intros [D1 A1 S1 G1 E1 M1 L1] [D2 A2 S2 G2 E2 M2 L2]. constructor.
  - congruence.
  - congruence.
  - congruence.
  - congruence.
  - auto.
  - auto.
  - intros p. rewrite <- L1, <- (live_ext s1 s2) by done. rewrite L2.
    by rewrite (live_ext s1 s2).
Qed.

(** The checks of the pass, as properties of a state. *)
Definition entry_ok (s : State) (ek : Kind) (e : nat) : Prop :=
  match ek with
  | KSymbol => ref_deleted s KSection (sym_section refs e) = false
  | KRelocation => ref_deleted s KSymbol (rel_symbol refs e) = false
  | _ => True
  end.

Definition pseudo_class (c : SectionClass) : bool :=
  match c with
  | EhdrSection_ | PhdrsSection_ => true
  | _ => false
  end.

Definition sec_ok (s : State) (n : nat) : Prop :=
  (pseudo_class (sec_cls refs n) = false →
   ref_deleted s KSection (sec_link refs n) = false
   ∧ ref_deleted s KSection (sec_info refs n) = false)
  ∧ (∀ ek e, entry_kind (sec_cls refs n) = Some ek → e ∈ entries_of s n →
       is_deleted s (ek, e) = false ∧ entry_ok s ek e).

Definition seg_ok (s : State) (p : nat) : Prop :=
  live s KSection (members_of s p) ≠ []
  ∧ ∀ m, m ∈ members_of s p → is_deleted s (KSection, m) = false.

Lemma entry_ok_quiet s s' ek e : entry_ok s ek e → quiet s s' → entry_ok s' ek e.
Proof.
  intros H [D _ _ _ _ _ _]. destruct ek; cbn in *; try done;
    by rewrite (ref_deleted_ext s s').
Qed.

Lemma sec_ok_quiet s s' n : sec_ok s n → quiet s s' → sec_ok s' n.
Proof.
  intros [H1 H2] Hq. pose proof Hq as [D _ _ _ E _ _]. split.
  - intros Hp. rewrite !(ref_deleted_ext s s') by done. auto.
  - intros ek e Hek He. destruct (H2 ek e Hek (E _ _ He)) as [Hd Ho]. split.
    + by rewrite (is_deleted_ext s s').
    + by apply (entry_ok_quiet s).
Qed.

Lemma seg_ok_quiet s s' p : seg_ok s p → quiet s s' → seg_ok s' p.
Proof.
  intros [H1 H2] [D _ _ _ _ M L]. split.
  - rewrite (live_ext s s'), L by done. done.
  - intros m Hm. rewrite (is_deleted_ext s s') by done. auto.
Qed.

End purge_quiet.


Section purge_quiet_steps.
Import PurgeDeleted.
Context (refs : Refs).

Lemma again_delete x s : again (delete refs x s) = true.
Proof. done. Qed.

Lemma visit_entry_quiet ek e s :
  again (visit_entry refs ek e s) = false →
  quiet s (visit_entry refs ek e s) ∧ entry_ok refs (visit_entry refs ek e s) ek e.
Proof.
  destruct ek; cbn [visit_entry entry_ok]; try (intros _; split; [apply quiet_refl|done]).
  - unfold visit_Symbol. destruct (ref_deleted s KSection _) eqn:E; [done|].
    intros _. split; [apply quiet_refl|done].
  - unfold visit_Relocation. destruct (ref_deleted s KSymbol _) eqn:E; [done|].
    intros _. split; [apply quiet_refl|done].
Qed.

Lemma visit_Section_quiet n s :
  again (visit_Section refs n s) = false →
  visit_Section refs n s = s
  ∧ ref_deleted s KSection (sec_link refs n) = false
  ∧ ref_deleted s KSection (sec_info refs n) = false.
Proof.
  unfold visit_Section.
  destruct (ref_deleted s KSection (sec_link refs n)) eqn:E1; [done|].
  destruct (ref_deleted s KSection (sec_info refs n)) eqn:E2; [done|].
  done.
Qed.

(** A walk over a list of nodes that leaves [again] unset was quiet, and what
    each visit established still holds at the end. *)
Lemma visit_nodes_quiet k f (P : nat → State → Prop) l :
  (∀ n s s', P n s → quiet s s' → P n s') →
  (∀ n s, n ∈ l → is_deleted s (k, n) = false → again (f n s) = false →
     quiet s (f n s) ∧ P n (f n s)) →
  ∀ st, again (visit_nodes k f l st) = false →
    quiet st (visit_nodes k f l st)
    ∧ ∀ n, n ∈ l → is_deleted st (k, n) = false → P n (visit_nodes k f l st).
Proof.
  intros Hmono. unfold visit_nodes.
  induction l as [|a l IH]; intros Hstep st Hag; cbn [foldl] in *.
  - split; [apply quiet_refl|]. intros n Hn. by apply elem_of_nil in Hn.
  - set (s1 := if is_deleted st (k, a) then st else f a st) in *.
    destruct (IH (fun n s Hn => Hstep n s (list_elem_of_further _ _ _ Hn)) s1 Hag)
      as [Hq HP].
    assert (again s1 = false) as Hag1.
    { rewrite <- (quiet_again _ _ Hq). done. }
    assert (quiet st s1 ∧ (is_deleted st (k, a) = false → P a s1)) as [Hq1 HP1].
    { subst s1. destruct (is_deleted st (k, a)) eqn:Ed.
      - split; [apply quiet_refl|done].
      - destruct (Hstep a st (list_elem_of_here _ _) Ed Hag1). split; [done|]. done. }
    split; [by apply (quiet_trans _ s1)|].
    intros n Hn Hd. apply elem_of_cons in Hn as [->|Hn].
    + apply (Hmono _ s1); [auto|done].
    + apply HP; [done|]. by rewrite (is_deleted_ext st s1) by apply Hq1.
Qed.

Lemma visit_EntrySection_quiet ek n s :
  entry_kind (sec_cls refs n) = Some ek →
  again (visit_EntrySection refs ek n s) = false →
  quiet s (visit_EntrySection refs ek n s)
  ∧ sec_ok refs (visit_EntrySection refs ek n s) n.
Proof.
  intros Hek. unfold visit_EntrySection.
  set (s1 := visit_Section refs n s).
  set (s2 := visit_nodes ek (visit_entry refs ek) (entries_of s1 n) s1).
  set (s3 := set_entries n (live s2 ek (entries_of s2 n)) s2).
  intros Hag.
  assert (again s2 = false) as Hag2 by done.
  destruct (visit_nodes_quiet ek (visit_entry refs ek) (fun e s => entry_ok refs s ek e)
              (entries_of s1 n)
              (fun e s s' => entry_ok_quiet refs s s' ek e)
              (fun e s _ _ => visit_entry_quiet ek e s) s1 Hag2) as [Hq12 HP].
  fold s2 in Hq12, HP.
  assert (again s1 = false) as Hag1 by (by rewrite <- (quiet_again _ _ Hq12)).
  destruct (visit_Section_quiet n s Hag1) as (Hs1 & Hlink & Hinfo).
  fold s1 in Hs1.
  assert (quiet s2 s3) as Hq23.
  { constructor; try done.
    intros m e. subst s3. rewrite entries_of_set_entries.
    destruct (decide (m = n)) as [->|]; [|done].
    rewrite elem_of_live. tauto. }
  assert (quiet s s3) as Hq.
  { rewrite <- Hs1. by apply (quiet_trans _ s2). }
  split; [done|]. split.
  - intros _. rewrite !(ref_deleted_ext s s3) by apply Hq. done.
  - intros ek' e Hek' He. assert (ek' = ek) as -> by congruence.
    subst s3. rewrite entries_of_set_entries in He.
    destruct (decide (n = n)); [|done].
    apply elem_of_live in He as [Hd He].
    split.
    + rewrite (is_deleted_ext s2) by done. done.
    + apply (entry_ok_quiet refs s2); [|done]. apply HP.
      * by apply (quiet_entries _ _ Hq12).
      * by rewrite <- (is_deleted_ext s1 s2) by apply Hq12.
Qed.

Lemma visit_section_node_quiet n s :
  again (visit_section_node refs n s) = false →
  quiet s (visit_section_node refs n s) ∧ sec_ok refs (visit_section_node refs n s) n.
Proof.
  unfold visit_section_node.
  destruct (sec_cls refs n) eqn:Ec; cbn [entry_kind];
    try (by apply visit_EntrySection_quiet; rewrite Ec);
    try (intros H; destruct (visit_Section_quiet n s H) as (-> & Hl & Hi);
         split; [apply quiet_refl|]; split; [done|];
         intros ek e Hek; by rewrite Ec in Hek);
    (intros _; split; [apply quiet_refl|]; split; [by rewrite Ec|];
       intros ek e Hek; by rewrite Ec in Hek).
Qed.

Lemma visit_Segment_quiet p s :
  again (visit_Segment refs p s) = false →
  quiet s (visit_Segment refs p s) ∧ seg_ok (visit_Segment refs p s) p.
Proof.
  unfold visit_Segment.
  set (s1 := set_members p (live s KSection (members_of s p)) s).
  assert (members_of s1 p = live s KSection (members_of s p)) as Hm.
  { subst s1. rewrite members_of_set_members. by destruct (decide (p = p)). }
  destruct (members_of s1 p) as [|m ms] eqn:E; [done|]. intros _.
  assert (quiet s s1) as Hq.
  { constructor; try done.
    - intros q x. subst s1. rewrite members_of_set_members.
      destruct (decide (q = p)) as [->|]; [|done]. rewrite elem_of_live. tauto.
    - intros q. subst s1. rewrite members_of_set_members.
      destruct (decide (q = p)) as [->|]; [|done]. apply live_idemp. }
  split; [done|]. split.
  - rewrite E, Hm. rewrite (live_ext s s1) by done. by rewrite live_idemp, <- Hm.
  - intros x Hx. rewrite E, Hm in Hx. apply elem_of_live in Hx as [Hd _].
    by rewrite (is_deleted_ext s s1).
Qed.

End purge_quiet_steps.


Section purge_result.
Import PurgeDeleted.
Context (refs : Refs).

(** What the pass leaves behind: the lists hold no deleted node, the checked
    cross-references of the surviving nodes point to no deleted node, and no
    surviving segment is empty.  The link and the info of the two
    pseudo-sections are not part of it. *)
Record purged (st : State) : Prop := mkPurged {
  purged_sections :
    ∀ n, n ∈ elf_sections st → is_deleted st (KSection, n) = false;
  purged_segments :
    ∀ p, p ∈ elf_segments st → is_deleted st (KSegment, p) = false;
  purged_entries :
    ∀ n ek e, n ∈ elf_sections st → entry_kind (sec_cls refs n) = Some ek →
      e ∈ entries_of st n → is_deleted st (ek, e) = false;
  purged_members :
    ∀ p m, p ∈ elf_segments st → m ∈ members_of st p →
      is_deleted st (KSection, m) = false;
  purged_link :
    ∀ n, n ∈ elf_sections st → pseudo_class (sec_cls refs n) = false →
      ref_deleted st KSection (sec_link refs n) = false;
  purged_info :
    ∀ n, n ∈ elf_sections st → pseudo_class (sec_cls refs n) = false →
      ref_deleted st KSection (sec_info refs n) = false;
  purged_symbol :
    ∀ n e, n ∈ elf_sections st → entry_kind (sec_cls refs n) = Some KSymbol →
      e ∈ entries_of st n → ref_deleted st KSection (sym_section refs e) = false;
  purged_relocation :
    ∀ n e, n ∈ elf_sections st → entry_kind (sec_cls refs n) = Some KRelocation →
      e ∈ entries_of st n → ref_deleted st KSymbol (rel_symbol refs e) = false;
  purged_nonempty :
    ∀ p, p ∈ elf_segments st → members_of st p ≠ []
}.

Lemma round_quiet st :
  again (round refs st) = false → purged (round refs st).
Proof.
  unfold round.
  set (s0 := set_again false st).
  set (s1 := visit_nodes KSection (visit_section_node refs) (elf_sections s0) s0).
  set (s2 := visit_nodes KSegment (visit_Segment refs) (elf_segments s1) s1).
  cbn [again]. intros Hag2.
  destruct (visit_nodes_quiet KSegment (visit_Segment refs) (fun p s => seg_ok s p)
              (elf_segments s1)
              (fun p s s' => seg_ok_quiet s s' p)
              (fun p s _ _ => visit_Segment_quiet refs p s) s1 Hag2) as [Hq12 Hseg].
  fold s2 in Hq12, Hseg.
  assert (again s1 = false) as Hag1 by (by rewrite <- (quiet_again _ _ Hq12)).
  destruct (visit_nodes_quiet KSection (visit_section_node refs)
              (fun n s => sec_ok refs s n) (elf_sections s0)
              (fun n s s' => sec_ok_quiet refs s s' n)
              (fun n s _ _ => visit_section_node_quiet refs n s) s0 Hag1) as [Hq01 Hsec].
  fold s1 in Hq01, Hsec.
  assert (∀ n, n ∈ live s2 KSection (elf_sections s2) →
            is_deleted s2 (KSection, n) = false ∧ sec_ok refs s2 n) as Hsec2.
  { intros n Hn. apply elem_of_live in Hn as [Hd Hn]. split; [done|].
    apply (sec_ok_quiet refs s1); [|done]. apply Hsec.
    - by rewrite <- (quiet_sections _ _ Hq01), <- (quiet_sections _ _ Hq12).
    - rewrite <- (is_deleted_ext s0 s1) by apply Hq01.
      by rewrite <- (is_deleted_ext s1 s2) by apply Hq12. }
  assert (∀ p, p ∈ live s2 KSegment (elf_segments s2) →
            is_deleted s2 (KSegment, p) = false ∧ seg_ok s2 p) as Hseg2.
  { intros p Hp. apply elem_of_live in Hp as [Hd Hp]. split; [done|].
    apply Hseg.
    - by rewrite <- (quiet_segments _ _ Hq12).
    - by rewrite <- (is_deleted_ext s1 s2) by apply Hq12. }
  constructor; cbn [elf_sections elf_segments].
  - intros n Hn. by destruct (Hsec2 n Hn).
  - intros p Hp. by destruct (Hseg2 p Hp).
  - intros n ek e Hn Hek He. destruct (Hsec2 n Hn) as [_ [_ H]].
    by destruct (H ek e Hek He).
  - intros p m Hp Hm. destruct (Hseg2 p Hp) as [_ [_ H]]. by apply H.
  - intros n Hn Hps. destruct (Hsec2 n Hn) as [_ [H _]]. by destruct (H Hps).
  - intros n Hn Hps. destruct (Hsec2 n Hn) as [_ [H _]]. by destruct (H Hps).
  - intros n e Hn Hek He. destruct (Hsec2 n Hn) as [_ [_ H]].
    by destruct (H _ e Hek He).
  - intros n e Hn Hek He. destruct (Hsec2 n Hn) as [_ [_ H]].
    by destruct (H _ e Hek He).
  - intros p Hp. destruct (Hseg2 p Hp) as [_ [H1 H2]].
    intros Hnil. apply H1. change (members_of s2 p = []) in Hnil. by rewrite Hnil.
Qed.

(** The loop stops only after a round that left [again] unset. *)
Lemma loop_Some fuel : ∀ st st',
  loop refs fuel st = Some st' →
  ∃ s, st' = round refs s ∧ again st' = false.
Proof.
  induction fuel as [|f IH]; intros st st' H; [done|].
  cbn [loop] in H. destruct (again (round refs st)) eqn:E.
  - by apply IH in H.
  - injection H as <-. eauto.
Qed.

Lemma visit_Elf_purged st st' :
  visit_Elf refs st = Some st' → purged st'.
Proof.
  intros H. apply loop_Some in H as (s & -> & Hag). by apply round_quiet.
Qed.

End purge_result.


(** ** [PurgeDeleted]: the loop stops *)

Section purge_mono.
Import PurgeDeleted.
Context (refs : Refs) (U : gset NodeId).

(** [mono s s']: nodes were only added to the deleted ones, entry lists only
    shrank, and if [again] was set on the way then a node of [U] that was
    not deleted in [s] is deleted in [s']. *)
Record mono (s s' : State) : Prop := mkMono {
  mono_deleted : deleted_nodes s ⊆ deleted_nodes s';
  mono_sections : elf_sections s' = elf_sections s;
  mono_segments : elf_segments s' = elf_segments s;
  mono_entries : ∀ n e, e ∈ entries_of s' n → e ∈ entries_of s n;
  mono_again :
    again s' = true →
    again s = true ∨ (∃ x, x ∈ U ∧ (x ∉ deleted_nodes s) ∧ x ∈ deleted_nodes s')
}.

Lemma mono_refl s : mono s s.
Proof. constructor; auto. Qed.

Lemma mono_trans s1 s2 s3 : mono s1 s2 → mono s2 s3 → mono s1 s3.
Proof.
  intros [D1 S1 G1 E1 A1] [D2 S2 G2 E2 A2]. constructor.
  - by transitivity (deleted_nodes s2).
  - congruence.
  - congruence.
  - auto.
  - intros H3. destruct (A2 H3) as [H2|(x & Hx & Hn & Hd)].
    + destruct (A1 H2) as [H1|(x & Hx & Hn & Hd)]; [by left|].
      right. exists x. split; [done|]. split; [done|]. by apply D2.
    + right. exists x. split; [done|]. split; [|done].
      intros H. by apply Hn, D1.
Qed.

Lemma is_deleted_false s x : is_deleted s x = false ↔ x ∉ deleted_nodes s.
Proof. unfold is_deleted. by rewrite bool_decide_eq_false. Qed.

Lemma node_delete_deleted x s :
  deleted_nodes s ⊆ deleted_nodes (node_delete refs x s)
  ∧ x ∈ deleted_nodes (node_delete refs x s).
Proof.
  destruct x as [k n]. unfold node_delete.
  destruct k; try (cbn [mark deleted_nodes]; set_solver).
  destruct (entry_kind (sec_cls refs n)); cbn [mark deleted_nodes]; set_solver.
Qed.

Lemma node_delete_fields x s :
  elf_sections (node_delete refs x s) = elf_sections s
  ∧ elf_segments (node_delete refs x s) = elf_segments s
  ∧ sec_entries (node_delete refs x s) = sec_entries s.
Proof.
  destruct x as [k n]. unfold node_delete.
  destruct k; try done. by destruct (entry_kind (sec_cls refs n)).
Qed.

Lemma delete_mono x s :
  x ∈ U → is_deleted s x = false → mono s (delete refs x s).
Proof.
  intros HU Hd. apply is_deleted_false in Hd.
  destruct (node_delete_deleted x s) as [Hsub Hin].
  destruct (node_delete_fields x s) as (Hs & Hg & He).
  unfold delete. constructor; cbn [set_again deleted_nodes elf_sections elf_segments again].
  - done.
  - done.
  - done.
  - intros n e. unfold entries_of. cbn [sec_entries set_again]. by rewrite He.
  - intros _. right. by exists x.
Qed.

Lemma visit_entry_mono ek e s :
  (ek, e) ∈ U → is_deleted s (ek, e) = false → mono s (visit_entry refs ek e s).
Proof.
  intros HU Hd. destruct ek; cbn [visit_entry]; try apply mono_refl.
  - unfold visit_Symbol. destruct (ref_deleted s KSection _);
      [by apply delete_mono|apply mono_refl].
  - unfold visit_Relocation. destruct (ref_deleted s KSymbol _);
      [by apply delete_mono|apply mono_refl].
Qed.

Lemma visit_Section_mono n s :
  (KSection, n) ∈ U → is_deleted s (KSection, n) = false →
  mono s (visit_Section refs n s).
Proof.
  intros HU Hd. unfold visit_Section.
  destruct (_ || _); [by apply delete_mono|apply mono_refl].
Qed.

Lemma visit_nodes_mono k f l (I : State → Prop) :
  (∀ s s', I s → mono s s' → I s') →
  (∀ n s, n ∈ l → I s → is_deleted s (k, n) = false → mono s (f n s)) →
  ∀ st, I st → mono st (visit_nodes k f l st).
Proof.
  intros HI. unfold visit_nodes.
  induction l as [|a l IH]; intros Hstep st Hst; cbn [foldl].
  - apply mono_refl.
  - set (s1 := if is_deleted st (k, a) then st else f a st).
    assert (mono st s1) as H1.
    { subst s1. destruct (is_deleted st (k, a)) eqn:Ed; [apply mono_refl|].
      apply Hstep; [left|done|done]. }
    apply (mono_trans _ s1); [done|]. apply IH.
    + intros n s Hn. apply Hstep. by right.
    + by apply (HI st).
Qed.

Lemma set_entries_mono n s k :
  mono s (set_entries n (live s k (entries_of s n)) s).
Proof.
  constructor; try done; [|auto].
  intros m e. rewrite entries_of_set_entries.
  destruct (decide (m = n)) as [->|]; [|done]. rewrite elem_of_live. tauto.
Qed.

Lemma visit_EntrySection_mono ek n s :
  (KSection, n) ∈ U → (∀ e, e ∈ entries_of s n → (ek, e) ∈ U) →
  is_deleted s (KSection, n) = false →
  mono s (visit_EntrySection refs ek n s).
Proof.
  intros HU HE Hd. unfold visit_EntrySection.
  set (s1 := visit_Section refs n s).
  set (s2 := visit_nodes ek (visit_entry refs ek) (entries_of s1 n) s1).
  assert (mono s s1) as H01 by (by apply visit_Section_mono).
  assert (mono s1 s2) as H12.
  { apply (visit_nodes_mono ek _ _ (fun _ => True)); [done| |done].
    intros e s' He _ Hl. apply visit_entry_mono; [|done].
    apply HE. by apply (mono_entries _ _ H01). }
  apply (mono_trans _ s1); [done|]. apply (mono_trans _ s2); [done|].
  apply set_entries_mono.
Qed.

Lemma visit_section_node_mono n s :
  (KSection, n) ∈ U →
  (∀ ek e, entry_kind (sec_cls refs n) = Some ek → e ∈ entries_of s n → (ek, e) ∈ U) →
  is_deleted s (KSection, n) = false →
  mono s (visit_section_node refs n s).
Proof.
  intros HU HE Hd. unfold visit_section_node.
  destruct (sec_cls refs n) eqn:Ec; cbn [entry_kind] in *;
    try apply mono_refl;
    try (by apply visit_Section_mono);
    (apply visit_EntrySection_mono; [done| |done]; intros e; by apply HE).
Qed.

Lemma visit_Segment_mono p s :
  (KSegment, p) ∈ U → is_deleted s (KSegment, p) = false →
  mono s (visit_Segment refs p s).
Proof.
  intros HU Hd. unfold visit_Segment.
  set (s1 := set_members p (live s KSection (members_of s p)) s).
  assert (mono s s1) as H1 by (constructor; try done; auto).
  destruct (members_of s1 p); [|done].
  apply (mono_trans _ s1); [done|]. by apply delete_mono.
Qed.

End purge_mono.


Section purge_claim.
Import PurgeDeleted.
Context (refs : Refs).

(** The nodes the pass can still delete. *)
Definition live_nodes (st : State) : gset NodeId :=
  list_to_set (universe refs st) ∖ deleted_nodes st.

Lemma elem_of_universe st x :
  x ∈ universe refs st ↔
    (∃ n, x = (KSection, n) ∧ n ∈ elf_sections st)
    ∨ (∃ p, x = (KSegment, p) ∧ p ∈ elf_segments st)
    ∨ (∃ n ek e, x = (ek, e) ∧ n ∈ elf_sections st
         ∧ entry_kind (sec_cls refs n) = Some ek ∧ e ∈ entries_of st n).
Proof.
  unfold universe. rewrite !elem_of_app, !list_elem_of_fmap, list_elem_of_bind.
  split.
  - intros [H|[H|(n & Hx & Hn)]]; [by left|by right; left|right; right].
    destruct (entry_kind (sec_cls refs n)) as [ek|] eqn:E.
    + apply list_elem_of_fmap in Hx as (e & -> & He). by exists n, ek, e.
    + by apply elem_of_nil in Hx.
  - intros [H|[H|(n & ek & e & -> & Hn & Hek & He)]]; [by left|by right; left|].
    right; right. exists n. split; [|done]. rewrite Hek.
    apply list_elem_of_fmap. by exists e.
Qed.

(** One round, up to the filtering of the two lists of the [Elf]. *)
Lemma round_mono st :
  ∃ s2, mono (list_to_set (universe refs st)) (set_again false st) s2
        ∧ deleted_nodes (round refs st) = deleted_nodes s2
        ∧ again (round refs st) = again s2
        ∧ (∀ n, n ∈ elf_sections (round refs st) → n ∈ elf_sections st)
        ∧ (∀ p, p ∈ elf_segments (round refs st) → p ∈ elf_segments st)
        ∧ (∀ n e, e ∈ entries_of (round refs st) n → e ∈ entries_of st n).
Proof.
  unfold round.
  set (U := list_to_set (universe refs st) : gset NodeId).
  set (s0 := set_again false st).
  set (s1 := visit_nodes KSection (visit_section_node refs) (elf_sections s0) s0).
  set (s2 := visit_nodes KSegment (visit_Segment refs) (elf_segments s1) s1).
  assert (mono U s0 s1) as H01.
  { apply (visit_nodes_mono U KSection _ _
             (fun s => ∀ n ek e, n ∈ elf_sections st →
                         entry_kind (sec_cls refs n) = Some ek →
                         e ∈ entries_of s n → (ek, e) ∈ U)).
    - intros s s' HI Hm n ek e Hn Hek He.
      apply (HI n ek e Hn Hek). by apply (mono_entries _ _ _ Hm).
    - intros n s Hn HI Hd. apply visit_section_node_mono; [|intros ek e; by apply HI|done].
      apply elem_of_list_to_set, elem_of_universe. left. by exists n.
    - intros n ek e Hn Hek He.
      apply elem_of_list_to_set, elem_of_universe. right; right. by exists n, ek, e. }
  assert (mono U s1 s2) as H12.
  { apply (visit_nodes_mono U KSegment _ _ (fun _ => True)); [done| |done].
    intros p s Hp _ Hd. apply visit_Segment_mono; [|done].
    apply elem_of_list_to_set, elem_of_universe. right; left. exists p.
    split; [done|]. by rewrite (mono_segments _ _ _ H01) in Hp. }
  assert (mono U s0 s2) as H02 by (by apply (mono_trans _ s0 s1 s2)).
  exists s2. split; [done|]. split; [done|]. split; [done|].
  cbn [elf_sections elf_segments]. split; [|split].
  - intros n Hn. apply elem_of_live in Hn as [_ Hn].
    by rewrite (mono_sections _ _ _ H02) in Hn.
  - intros p Hp. apply elem_of_live in Hp as [_ Hp].
    by rewrite (mono_segments _ _ _ H02) in Hp.
  - intros n e He. by apply (mono_entries _ _ _ H02) in He.
Qed.

Lemma round_live_nodes st :
  live_nodes (round refs st) ⊆ live_nodes st
  ∧ (again (round refs st) = true → live_nodes (round refs st) ⊂ live_nodes st).
Proof.
  destruct (round_mono st) as (s2 & Hm & Hd & Ha & Hs & Hg & He).
  assert (∀ x, x ∈ universe refs (round refs st) → x ∈ universe refs st) as HU.
  { intros x. rewrite !elem_of_universe.
    intros [(n & -> & Hn)|[(p & -> & Hp)|(n & ek & e & -> & Hn & Hek & Hin)]].
    - left. exists n. auto.
    - right; left. exists p. auto.
    - right; right. exists n, ek, e. auto. }
  assert (deleted_nodes st ⊆ deleted_nodes (round refs st)) as HD.
  { rewrite Hd. apply (mono_deleted _ _ _ Hm). }
  assert (live_nodes (round refs st) ⊆ live_nodes st) as Hsub.
  { unfold live_nodes. intros x.
    rewrite !elem_of_difference, !elem_of_list_to_set. intros [Hx Hn].
    split; [by apply HU|]. intros H. by apply Hn, HD. }
  split; [done|]. intros Hag. split; [done|].
  rewrite Ha in Hag. destruct (mono_again _ _ _ Hm Hag) as [H|(x & Hx & Hn & Hin)]; [done|].
  intros Hsup. assert (x ∈ live_nodes (round refs st)) as Hlive.
  { apply Hsup. unfold live_nodes. apply elem_of_difference. by split. }
  unfold live_nodes in Hlive. apply elem_of_difference in Hlive as [_ Hlive].
  apply Hlive. by rewrite Hd.
Qed.

(** More rounds than live nodes are enough. *)
Lemma loop_terminates fuel : ∀ st,
  (base.size (live_nodes st) < fuel)%nat → ∃ st', loop refs fuel st = Some st'.
Proof.
  induction fuel as [|f IH]; intros st Hlt; [lia|].
  cbn [loop]. destruct (again (round refs st)) eqn:E; [|eauto].
  apply IH. destruct (round_live_nodes st) as [_ H].
  pose proof (subset_size _ _ (H E)). lia.
Qed.


End purge_claim.

Section purge_examples.
Import PurgeDeleted.

(** The program-headers pseudo-section (node 0) with its link set to a
    section (node 1) that is marked deleted. *)
Definition phdrs_refs : Refs :=
  mkRefs (fun n => if decide (n = 0%nat) then PhdrsSection_ else Section_)
         (fun n => if decide (n = 0%nat) then Some 1%nat else None)
         (fun _ => None) (fun _ => None) (fun _ => None).

Definition phdrs_graph : State :=
  mkState {[ (KSection, 1%nat) ]} ∅ ∅ [0; 1]%nat [] false.


(** A cascade: [.text] (section 1) is deleted; the symbol table (section 0)
    holds a symbol of [.text] and one of [.data] (section 3); the relocation
    section (section 2) has one relocation against each; segment 0 holds
    [.text] only, segment 1 holds [.text] and [.data]. *)
Definition cascade_refs : Refs :=
  mkRefs (fun n => match n with 0 => SymtabSection_ | 2 => RelSection_ | _ => Section_ end%nat)
         (fun n => match n with 2 => Some 0 | _ => None end%nat)
         (fun n => match n with 2 => Some 3 | _ => None end%nat)
         (fun e => match e with 0 => Some 1 | _ => Some 3 end%nat)
         (fun r => match r with 0 => Some 0 | _ => Some 1 end%nat).

Definition cascade_graph : State :=
  mkState {[ (KSection, 1%nat) ]}
          {[ 0%nat := [0; 1]%nat; 2%nat := [0; 1]%nat ]}
          {[ 0%nat := [1%nat]; 1%nat := [1; 3]%nat ]}
          [0; 1; 2; 3]%nat [0; 1]%nat false.

Lemma purge_cascade :
  ∃ st', visit_Elf cascade_refs cascade_graph = Some st'
         ∧ elf_sections st' = [0; 2; 3]%nat
         ∧ entries_of st' 0 = [1%nat]
         ∧ entries_of st' 2 = [1%nat]
         ∧ elf_segments st' = [1%nat]
         ∧ members_of st' 1 = [3%nat]
         ∧ is_deleted st' (KSymbol, 0%nat) = true
         ∧ is_deleted st' (KRelocation, 0%nat) = true
         ∧ is_deleted st' (KSegment, 0%nat) = true.
Proof.
  eexists. split; [vm_compute; reflexivity|].
  repeat split; vm_compute; reflexivity.
Qed.

End purge_examples.


(** * Further properties of the tools *)

(** ** [elfmodel.align] *)

Lemma land_pow2_pred k : 0 ≤ k → Z.land (2 ^ k) (2 ^ k - 1) = 0.
Proof.
  intros Hk. replace (2 ^ k - 1) with (Z.ones k) by (rewrite Z.ones_equiv; lia).
  rewrite Z.land_ones by done. apply Z.mod_same.
  pose proof (Z.pow_pos_nonneg 2 k ltac:(lia) Hk). lia.
Qed.

Lemma align_pow2 address k :
  0 ≤ k → align address (2 ^ k) = Ok (2 ^ k * ((address + 2 ^ k - 1) / 2 ^ k)).
Proof.
  intros Hk. pose proof (Z.pow_pos_nonneg 2 k ltac:(lia) Hk) as Hpos.
  unfold align, assert.
  destruct (0 <? 2 ^ k) eqn:E; [|apply Z.ltb_ge in E; lia].
  rewrite land_pow2_pred by done. cbn.
  by rewrite land_lnot_pow2.
Qed.

(** With a power of two as alignment, [align] returns the least multiple of
    the alignment that is not below the address (negative addresses
    included), and aligning twice changes nothing. *)
Theorem align_least address k :
  0 ≤ k →
  ∃ v, align address (2 ^ k) = Ok v
       ∧ (2 ^ k | v)
       ∧ address ≤ v < address + 2 ^ k
       ∧ (∀ w, (2 ^ k | w) → address ≤ w → v ≤ w)
       ∧ align v (2 ^ k) = Ok v.
Proof.
  intros Hk. pose proof (Z.pow_pos_nonneg 2 k ltac:(lia) Hk) as Hpos.
  set (a := 2 ^ k) in *.
  exists (a * ((address + a - 1) / a)).
  split; [by apply align_pow2|].
  split; [by apply Z.divide_factor_l|].
  pose proof (Z.div_mod (address + a - 1) a ltac:(lia)) as Hdm.
  pose proof (Z.mod_pos_bound (address + a - 1) a Hpos) as Hmb.
  split; [lia|]. split.
  - intros w [q ->] Hw.
    assert ((address + a - 1) / a ≤ q); [|nia].
    apply Z.lt_succ_r, Z.div_lt_upper_bound; [done|]. nia.
  - subst a. rewrite align_pow2 by done. f_equal.
    replace (2 ^ k * ((address + 2 ^ k - 1) / 2 ^ k) + 2 ^ k - 1)
      with (2 ^ k - 1 + ((address + 2 ^ k - 1) / 2 ^ k) * 2 ^ k) by lia.
    rewrite Z.div_add by lia. rewrite Z.div_small by lia. lia.
Qed.

Lemma align_least_witness :
  ∃ v, align (-5) (2 ^ 2) = Ok v
       ∧ (2 ^ 2 | v)
       ∧ -5 ≤ v < -5 + 2 ^ 2
       ∧ (∀ w, (2 ^ 2 | w) → -5 ≤ w → v ≤ w)
       ∧ align v (2 ^ 2) = Ok v.
Proof. apply (align_least (-5) 2). lia. Defined.

(** [align] returns exactly when the alignment is a power of two with a
    non-negative exponent; on every other alignment (0, negative, 3, 12, ...)
    it ends in an assertion failure, whatever the address. *)
Theorem align_returns_iff address alignment :
  ((∃ v, align address alignment = Ok v) ↔ (∃ k, 0 ≤ k ∧ alignment = 2 ^ k))
  ∧ (align address alignment = Raise AssertionError
     ↔ ¬ (∃ k, 0 ≤ k ∧ alignment = 2 ^ k)).
Proof.
  assert ((∃ v, align address alignment = Ok v) ↔ (∃ k, 0 ≤ k ∧ alignment = 2 ^ k))
    as Hiff.
  { split.
    - intros [v Hv]. by apply align_Ok in Hv as (_ & Hk & _).
    - intros (k & Hk & ->). rewrite align_pow2 by done. eauto. }
  split; [done|]. rewrite <- Hiff. split.
  - intros H [v Hv]. congruence.
  - intros H. destruct (align_result address alignment) as [Hv|Hr]; [done|done].
Qed.


(** ** [elf.py]: the packed fields read back *)

Lemma lor_shiftl_low v k b :
  0 ≤ k → 0 ≤ b < 2 ^ k → Z.lor (Z.shiftl v k) b = v * 2 ^ k + b.
Proof.
  intros Hk Hb.
  assert (Z.land (Z.shiftl v k) b = 0) as Hl.
  { apply Z.bits_inj'. intros n Hn. rewrite Z.land_spec, Z.bits_0.
    destruct (Z.lt_ge_cases n k) as [Hlt|Hge].
    - by rewrite Z.shiftl_spec_low.
    - rewrite <- (Z.mod_small b (2 ^ k)) by done.
      rewrite Z.mod_pow2_bits_high by lia. apply andb_false_r. }
  rewrite <- Z.lxor_lor by done. rewrite <- Z.add_nocarry_lxor by done.
  by rewrite Z.shiftl_mul_pow2.
Qed.

Lemma R_INFO_arith sym type : elf32.R_INFO sym type = sym * 256 + type mod 256.
Proof.
  unfold elf32.R_INFO. change 0xFF with (Z.ones 8). rewrite Z.land_ones by lia.
  rewrite lor_shiftl_low; [done|lia|]. apply Z.mod_pos_bound. lia.
Qed.

Lemma R_SYM_arith info : elf32.R_SYM info = info / 256.
Proof. unfold elf32.R_SYM. by rewrite Z.shiftr_div_pow2. Qed.

Lemma R_TYPE_arith info : elf32.R_TYPE info = info mod 256.
Proof. unfold elf32.R_TYPE. change 0xFF with (Z.ones 8). by rewrite Z.land_ones. Qed.

(** [R_INFO] packs and [R_SYM], [R_TYPE] unpack: on all integers the symbol
    index comes back whole, the type comes back reduced to 8 bits, and
    unpacking then packing gives the [r_info] back. *)
Theorem R_INFO_round_trip sym type info :
  elf32.R_SYM (elf32.R_INFO sym type) = sym
  ∧ elf32.R_TYPE (elf32.R_INFO sym type) = Z.land type 0xFF
  ∧ elf32.R_TYPE (elf32.R_INFO sym type) = type mod 256
  ∧ elf32.R_INFO (elf32.R_SYM info) (elf32.R_TYPE info) = info.
Proof.
  rewrite !R_INFO_arith, !R_SYM_arith, !R_TYPE_arith.
  change 0xFF with (Z.ones 8). rewrite Z.land_ones by lia. change (2 ^ 8) with 256.
  repeat split; Z.div_mod_to_equations; lia.
Qed.

(** Setting [r_sym] on a relocation keeps its type and stores the index
    reduced to 24 bits (the [r_info] word has 32): an index below [2^24]
    reads back unchanged.  Setting [r_type] stores the type reduced to 8
    bits and keeps the symbol index of a 32-bit [r_info]. *)
Theorem Rel_set_get r value :
  0 ≤ Rel.r_info r < 2 ^ 32 →
  Rel.r_type (elf.Rel_set_r_sym value r) = Rel.r_type r
  ∧ elf.Rel_r_sym (elf.Rel_set_r_sym value r) = value mod 2 ^ 24
  ∧ (0 ≤ value < 2 ^ 24 → elf.Rel_r_sym (elf.Rel_set_r_sym value r) = value)
  ∧ Rel.r_type (elf.Rel_set_r_type value r) = value mod 256
  ∧ elf.Rel_r_sym (elf.Rel_set_r_type value r) = elf.Rel_r_sym r
  ∧ Rel.r_offset (elf.Rel_set_r_sym value r) = Rel.r_offset r.
Proof.
  intros Hr. destruct r as [off info]. cbn in Hr.
  unfold elf.Rel_set_r_sym, elf.Rel_set_r_type, elf.Rel_r_sym, Rel.r_type. cbn.
  rewrite !R_INFO_arith, !R_SYM_arith, !R_TYPE_arith. unfold c_uint32.
  change (2 ^ 32) with 4294967296 in *. change (2 ^ 24) with 16777216.
  repeat split; try intros Hv; Z.div_mod_to_equations; lia.
Qed.

Lemma Rel_set_get_witness :
  Rel.r_type (elf.Rel_set_r_sym 7 (Rel.mk 0x10000000 0x302)) = Rel.r_type (Rel.mk 0x10000000 0x302)
  ∧ elf.Rel_r_sym (elf.Rel_set_r_sym 7 (Rel.mk 0x10000000 0x302)) = 7 mod 2 ^ 24
  ∧ (0 ≤ 7 < 2 ^ 24 → elf.Rel_r_sym (elf.Rel_set_r_sym 7 (Rel.mk 0x10000000 0x302)) = 7)
  ∧ Rel.r_type (elf.Rel_set_r_type 7 (Rel.mk 0x10000000 0x302)) = 7 mod 256
  ∧ elf.Rel_r_sym (elf.Rel_set_r_type 7 (Rel.mk 0x10000000 0x302))
    = elf.Rel_r_sym (Rel.mk 0x10000000 0x302)
  ∧ Rel.r_offset (elf.Rel_set_r_sym 7 (Rel.mk 0x10000000 0x302)) = 0x10000000.
Proof. apply (Rel_set_get (Rel.mk 0x10000000 0x302) 7). cbn. lia. Defined.

(** The same for [Rela], whose setters have the same bodies; the addend is
    not touched. *)
Theorem Rela_set_get r value :
  0 ≤ Rela.r_info r < 2 ^ 32 →
  Rela.r_type (elf.Rela_set_r_sym value r) = Rela.r_type r
  ∧ Rela.r_sym (elf.Rela_set_r_sym value r) = value mod 2 ^ 24
  ∧ (0 ≤ value < 2 ^ 24 → Rela.r_sym (elf.Rela_set_r_sym value r) = value)
  ∧ Rela.r_type (elf.Rela_set_r_type value r) = value mod 256
  ∧ Rela.r_sym (elf.Rela_set_r_type value r) = Rela.r_sym r
  ∧ Rela.r_addend (elf.Rela_set_r_sym value r) = Rela.r_addend r
  ∧ Rela.r_addend (elf.Rela_set_r_type value r) = Rela.r_addend r.
Proof.
  intros Hr. destruct r as [off info add]. cbn in Hr.
  unfold elf.Rela_set_r_sym, elf.Rela_set_r_type, Rela.r_sym, Rela.r_type. cbn.
  rewrite !R_INFO_arith, !R_SYM_arith, !R_TYPE_arith. unfold c_uint32.
  change (2 ^ 32) with 4294967296 in *. change (2 ^ 24) with 16777216.
  repeat split; try intros Hv; Z.div_mod_to_equations; lia.
Qed.

Lemma Rela_set_get_witness :
  Rela.r_type (elf.Rela_set_r_sym 7 (Rela.mk 0x10000000 0x302 (-4)))
    = Rela.r_type (Rela.mk 0x10000000 0x302 (-4))
  ∧ Rela.r_sym (elf.Rela_set_r_sym 7 (Rela.mk 0x10000000 0x302 (-4))) = 7 mod 2 ^ 24
  ∧ (0 ≤ 7 < 2 ^ 24 → Rela.r_sym (elf.Rela_set_r_sym 7 (Rela.mk 0x10000000 0x302 (-4))) = 7)
  ∧ Rela.r_type (elf.Rela_set_r_type 7 (Rela.mk 0x10000000 0x302 (-4))) = 7 mod 256
  ∧ Rela.r_sym (elf.Rela_set_r_type 7 (Rela.mk 0x10000000 0x302 (-4)))
    = Rela.r_sym (Rela.mk 0x10000000 0x302 (-4))
  ∧ Rela.r_addend (elf.Rela_set_r_sym 7 (Rela.mk 0x10000000 0x302 (-4))) = -4
  ∧ Rela.r_addend (elf.Rela_set_r_type 7 (Rela.mk 0x10000000 0x302 (-4))) = -4.
Proof. apply (Rela_set_get (Rela.mk 0x10000000 0x302 (-4)) 7). cbn. lia. Defined.

Lemma ST_INFO_arith bind type :
  elf.ST_INFO bind type = (bind * 16 + type mod 16) mod 256.
Proof.
  unfold elf.ST_INFO, c_ubyte. change 0xF with (Z.ones 4). rewrite Z.land_ones by lia.
  rewrite lor_shiftl_low; [done|lia|]. apply Z.mod_pos_bound. lia.
Qed.



(** The [Sym] setters: setting the binding keeps the type and setting the
    type keeps the binding of an 8-bit [st_info]; setting the visibility
    overwrites the whole [st_other] byte and leaves [st_info] alone. *)
Theorem Sym_set_get s value :
  0 ≤ mkextmod.st_info s < 256 →
  mkextmod.st_bind (elf.Sym_set_st_bind value s) = value mod 16
  ∧ mkextmod.st_type (elf.Sym_set_st_bind value s) = mkextmod.st_type s
  ∧ mkextmod.st_type (elf.Sym_set_st_type value s) = value mod 16
  ∧ mkextmod.st_bind (elf.Sym_set_st_type value s) = mkextmod.st_bind s
  ∧ mkextmod.st_visibility (elf.Sym_set_st_visibility value s) = value mod 4
  ∧ mkextmod.st_other (elf.Sym_set_st_visibility value s) = value mod 256
  ∧ mkextmod.st_info (elf.Sym_set_st_visibility value s) = mkextmod.st_info s.
Proof.
  intros Hi. destruct s as [n v sz info other shndx]. cbn in Hi.
  unfold elf.Sym_set_st_bind, elf.Sym_set_st_type, elf.Sym_set_st_visibility,
    mkextmod.st_bind, mkextmod.st_type, mkextmod.st_visibility. cbn.
  rewrite !ST_INFO_arith. unfold elf32.ST_BIND, elf32.ST_VISIBILITY, elf.ST_TYPE, c_ubyte.
  rewrite !Z.shiftr_div_pow2 by lia. change 0xF with (Z.ones 4). change 3 with (Z.ones 2).
  rewrite !Z.land_ones by lia. change (2 ^ 4) with 16. change (2 ^ 2) with 4.
  change (2 ^ 8) with 256.
  repeat split; Z.div_mod_to_equations; lia.
Qed.

Definition example_func_sym : mkextmod.Sym := mkextmod.mkSym 0 0x10001000 4 0x12 0 1.

Lemma Sym_set_get_witness :
  mkextmod.st_bind (elf.Sym_set_st_bind 2 example_func_sym) = 2 mod 16
  ∧ mkextmod.st_type (elf.Sym_set_st_bind 2 example_func_sym)
    = mkextmod.st_type example_func_sym
  ∧ mkextmod.st_type (elf.Sym_set_st_type 2 example_func_sym) = 2 mod 16
  ∧ mkextmod.st_bind (elf.Sym_set_st_type 2 example_func_sym)
    = mkextmod.st_bind example_func_sym
  ∧ mkextmod.st_visibility (elf.Sym_set_st_visibility 2 example_func_sym) = 2 mod 4
  ∧ mkextmod.st_other (elf.Sym_set_st_visibility 2 example_func_sym) = 2 mod 256
  ∧ mkextmod.st_info (elf.Sym_set_st_visibility 2 example_func_sym)
    = mkextmod.st_info example_func_sym.
Proof. apply (Sym_set_get example_func_sym 2). cbn. lia. Defined.


(** ** [StrtabSection]: [register], [build] and [lookup] together *)

Section strtab_api.
Import StrtabSection.

Lemma register_spec keys s :
  NoDup keys → Forall (fun k => k ≠ []) keys →
  NoDup (register keys s)
  ∧ Forall (fun k => k ≠ []) (register keys s)
  ∧ (∀ k, k ∈ register keys s ↔ k ∈ keys ∨ (k = s ∧ s ≠ []))
  ∧ keys `prefix_of` register keys s.
Proof.
  intros Hnd Hne. unfold register.
  destruct (list_eqb s []) eqn:E.
  { apply list_eqb_true in E as ->. split; [done|]. split; [done|].
    split; [|done]. intros k. split; [by left|]. by intros [H|[_ H]]. }
  assert (s ≠ []) as Hs by (intros ->; by rewrite list_eqb_refl in E).
  destruct (bool_decide (s ∈ keys)) eqn:E2.
  { apply bool_decide_eq_true in E2. split; [done|]. split; [done|].
    split; [|done]. intros k. split; [by left|]. by intros [H|[-> _]]. }
  apply bool_decide_eq_false in E2.
  split; [|split; [|split]].
  - apply NoDup_app. split; [done|]. split; [|apply NoDup_singleton].
    intros x Hx Hx'. apply list_elem_of_singleton in Hx' as ->. done.
  - apply Forall_app. split; [done|]. by constructor.
  - intros k. rewrite elem_of_app, list_elem_of_singleton. tauto.
  - by apply prefix_app_r.
Qed.

(** Whatever is registered, in whatever order and however often, the keys
    of [self.strings] are the distinct non-empty strings among them: the
    empty string is never enrolled and a string registered again keeps its
    first place. *)
Theorem register_all (l : list pystr) :
  NoDup (foldl register [] l)
  ∧ Forall (fun k => k ≠ []) (foldl register [] l)
  ∧ (∀ k, k ∈ foldl register [] l ↔ k ∈ l ∧ k ≠ []).
Proof.
  assert (∀ keys, NoDup keys → Forall (fun k => k ≠ []) keys →
            NoDup (foldl register keys l)
            ∧ Forall (fun k => k ≠ []) (foldl register keys l)
            ∧ (∀ k, k ∈ foldl register keys l ↔ k ∈ keys ∨ (k ∈ l ∧ k ≠ []))) as H.
  { induction l as [|s l IH]; intros keys Hnd Hne; cbn [foldl].
    - split; [done|]. split; [done|]. intros k. split; [by left|].
      intros [H|[H _]]; [done|]. by apply elem_of_nil in H.
    - destruct (register_spec keys s Hnd Hne) as (Hnd' & Hne' & Hin & _).
      destruct (IH _ Hnd' Hne') as (H1 & H2 & H3).
      split; [done|]. split; [done|]. intros k. rewrite H3, Hin, elem_of_cons.
      split.
      + intros [[Hk|[-> Hk]]|[Hk Hk']]; [by left|right|right]; (split; [|done]);
          [by left|by right].
      + intros [Hk|[[->|Hk] Hk']]; [by left; left|by left; right|by right]. }
  destruct (H [] (NoDup_nil_2) (Forall_nil_2 _)) as (H1 & H2 & H3).
  split; [done|]. split; [done|]. intros k. rewrite H3.
  split; [|by right]. intros [Hk|Hk]; [by apply elem_of_nil in Hk|done].
Qed.



(** [lookup] at an index with no NUL byte at or after it raises
    [ValueError] (the [bytes.index] of its first line). *)
Theorem lookup_no_terminator data index :
  0 ≤ index →
  Forall (fun c => c ≠ 0) (drop (Z.to_nat index) data) →
  lookup data index = Raise ValueError.
Proof.
  intros Hi Hnz. unfold lookup, index_from.
  assert (find_index 0 (drop (Z.to_nat (slice_bound (len data) index)) data) = None) as ->.
  { assert (Forall (fun c => c ≠ 0)
              (drop (Z.to_nat (slice_bound (len data) index)) data)) as H.
    { unfold slice_bound. destruct (index <? 0) eqn:E; [apply Z.ltb_lt in E; lia|].
      destruct (Z.le_gt_cases index (len data)).
      - by rewrite Z.min_l by done.
      - rewrite Z.min_r by lia. unfold len. rewrite Nat2Z.id, drop_all. constructor. }
    induction H as [|c l Hc _ IH]; [done|].
    cbn. destruct (c =? 0) eqn:E; [apply Z.eqb_eq in E; done|]. by rewrite IH. }
  done.
Qed.

Lemma lookup_no_terminator_witness :
  lookup (0 :: lit "abc") 1 = Raise ValueError.
Proof.
  apply lookup_no_terminator; [lia|]. repeat constructor; vm_compute; congruence.
Defined.

End strtab_api.

From Stdlib Require Import Sorted.

(** ** Lists sorted by a relation *)

Lemma StronglySorted_app_iff {A} (R : A → A → Prop) (l1 l2 : list A) :
  StronglySorted R (l1 ++ l2) ↔
    (∀ x1 x2, x1 ∈ l1 → x2 ∈ l2 → R x1 x2)
    ∧ StronglySorted R l1 ∧ StronglySorted R l2.
Proof.
  induction l1 as [|a l1 IH]; cbn.
  - split.
    + intros H. split; [|split; [constructor|done]].
      intros x1 x2 Hx. by apply elem_of_nil in Hx.
    + by intros (_ & _ & H).
  - split.
    + intros H. apply StronglySorted_inv in H as [Hs Hf].
      apply IH in Hs as (H1 & H2 & H3).
      rewrite Forall_forall in Hf.
      split; [|split; [|done]].
      * intros x1 x2 Hx1 Hx2. apply elem_of_cons in Hx1 as [->|Hx1]; [|by apply H1].
        apply Hf. apply elem_of_app. by right.
      * constructor; [done|]. apply Forall_forall. intros x Hx.
        apply Hf. apply elem_of_app. by left.
    + intros (H1 & H2 & H3). apply StronglySorted_inv in H2 as [Hs Hf].
      constructor.
      * apply IH. split; [|done]. intros x1 x2 Hx1 Hx2. apply H1; [by right|done].
      * apply Forall_forall. intros x Hx.
        apply elem_of_app in Hx as [Hx|Hx].
        -- rewrite Forall_forall in Hf. by apply Hf.
        -- apply H1; [by left|done].
Qed.

(** ** The order on strings that [bisect] uses *)

Lemma str_lt_irrefl a : str_lt a a = false.
Proof.
  induction a as [|x a IH]; [done|]. cbn.
  rewrite Z.ltb_irrefl, Z.eqb_refl, IH. done.
Qed.

Lemma str_lt_cons x a y b :
  str_lt (x :: a) (y :: b) = true ↔ x < y ∨ (x = y ∧ str_lt a b = true).
Proof.
  cbn. rewrite orb_true_iff, andb_true_iff, Z.ltb_lt, Z.eqb_eq. done.
Qed.

Lemma str_lt_cons_false x a y b :
  str_lt (x :: a) (y :: b) = false ↔ y ≤ x ∧ (x = y → str_lt a b = false).
Proof.
  cbn. rewrite orb_false_iff, andb_false_iff, Z.ltb_ge, Z.eqb_neq. split.
  - intros [H1 [H2|H2]]; (split; [done|]); [done|by intros _].
  - intros [H1 H2]. split; [done|].
    destruct (decide (x = y)) as [->|Hne]; [right; by apply H2|by left].
Qed.

Lemma str_lt_trans a b c :
  str_lt a b = true → str_lt b c = true → str_lt a c = true.
Proof.
  revert b c. induction a as [|x a IH]; intros [|y b] [|z c]; try done.
  rewrite !str_lt_cons. intros [H1|[-> H1]] [H2|[-> H2]].
  - left. lia.
  - by left.
  - by left.
  - right. split; [done|]. by apply (IH b).
Qed.

Lemma str_lt_trichotomy a b :
  str_lt a b = false → a ≠ b → str_lt b a = true.
Proof.
  revert b. induction a as [|x a IH]; intros [|y b]; try done.
  rewrite str_lt_cons_false, str_lt_cons. intros [H1 H2] Hne.
  destruct (decide (x = y)) as [->|Hxy]; [|left; lia].
  right. split; [done|]. apply IH; [by apply H2|]. congruence.
Qed.

Lemma str_lt_asym a b : str_lt a b = true → str_lt b a = false.
Proof.
  intros H. destruct (str_lt b a) eqn:E; [|done].
  pose proof (str_lt_trans _ _ _ H E) as Hc. by rewrite str_lt_irrefl in Hc.
Qed.

(** A prefix is never above the string. *)
Lemma prefix_not_gt (a b : pystr) : a `prefix_of` b → str_lt b a = false.
Proof.
  revert b. induction a as [|x a IH]; intros b Hp; [by destruct b|].
  destruct b as [|y b]; [by apply prefix_nil_not in Hp|].
  pose proof (prefix_cons_inv_1 _ _ _ _ Hp) as ->.
  apply prefix_cons_inv_2 in Hp.
  apply str_lt_cons_false. split; [lia|]. intros _. by apply IH.
Qed.

(** Between a string and one of its prefixes there are only strings with
    that prefix. *)
Lemma prefix_between (a b c : pystr) :
  a `prefix_of` c → str_lt b a = false → str_lt c b = false → a `prefix_of` b.
Proof.
  revert b c. induction a as [|x a IH]; intros b c Hp Hba Hcb; [apply prefix_nil|].
  destruct c as [|z c]; [by apply prefix_nil_not in Hp|].
  pose proof (prefix_cons_inv_1 _ _ _ _ Hp) as ->.
  apply prefix_cons_inv_2 in Hp.
  destruct b as [|y b]; [done|].
  apply str_lt_cons_false in Hba as [H1 H2].
  apply str_lt_cons_false in Hcb as [H3 H4].
  assert (y = z) as -> by lia.
  apply prefix_cons. apply (IH b c); [done|by apply H2|by apply H4].
Qed.

(** ** [bisect_left] on a list sorted by key *)

Section bisect_sorted.
Import StrtabSection.

Definition key_lt (g h : Group) : Prop := str_lt g.1 h.1 = true.

Lemma sorted_lookup (d : list Group) j k g h :
  StronglySorted key_lt d → d !! j = Some g → d !! k = Some h → (j < k)%nat →
  key_lt g h.
Proof.
  intros Hs Hj Hk Hlt. rewrite <- (take_drop k d) in Hs.
  apply StronglySorted_app_iff in Hs as (Hs & _ & _). apply Hs.
  - apply list_elem_of_lookup. exists j. by rewrite lookup_take_lt.
  - apply list_elem_of_lookup. exists 0%nat. rewrite lookup_drop.
    by rewrite Nat.add_0_r.
Qed.

Lemma bisect_left_split (d : list Group) (x : pystr) :
  StronglySorted key_lt d →
  let i := bisect_left str_lt fst d x in
  (i ≤ length d)%nat
  ∧ Forall (fun g : Group => str_lt g.1 x = true) (take i d)
  ∧ Forall (fun g : Group => str_lt g.1 x = false) (drop i d).
Proof.
  intros Hs i.
  destruct (bisect_loop_spec (fun y : Group => str_lt (fst y) x) d (length d) 0 (length d))
    as (H1 & H2 & H3); try lia; try (by left).
  fold (bisect_left str_lt fst d x) in H1, H2, H3. fold i in H1, H2, H3.
  split; [lia|]. split.
  - apply Forall_forall. intros g Hg.
    apply list_elem_of_lookup in Hg as [j Hj].
    apply lookup_take_Some in Hj as [Hj Hlt].
    destruct H2 as [->|(y & Hy & Hyx)]; [lia|].
    destruct (decide (j = (i - 1)%nat)) as [->|Hne]; [congruence|].
    apply (str_lt_trans _ y.1); [|done].
    apply (sorted_lookup d j (i - 1)%nat); try done. lia.
  - apply Forall_forall. intros g Hg.
    apply list_elem_of_lookup in Hg as [j Hj]. rewrite lookup_drop in Hj.
    destruct H3 as [->|(y & Hy & Hyx)].
    { apply lookup_lt_Some in Hj. lia. }
    destruct j as [|j]; [rewrite Nat.add_0_r in Hj; congruence|].
    destruct (str_lt g.1 x) eqn:E; [|done].
    assert (key_lt y g) as Hyg.
    { apply (sorted_lookup d i (i + S j)%nat); try done. lia. }
    pose proof (str_lt_trans _ _ _ Hyg E). congruence.
Qed.

End bisect_sorted.


(** ** Sorted keys, none a prefix of another *)

Definition slt (a b : pystr) : Prop := str_lt a b = true.

Definition keys_tidy (ks : list pystr) : Prop :=
  StronglySorted slt ks
  ∧ ∀ a b, a ∈ ks → b ∈ ks → a `prefix_of` b → a = b.

Section keys_tidy_step.
Context (l1 l2 : list pystr) (x : pystr).
Hypothesis Htidy : keys_tidy (l1 ++ l2).
Hypothesis Hlow : Forall (fun k => str_lt k x = true) l1.
Hypothesis Hhigh : Forall (fun k => str_lt k x = false) l2.
Hypothesis Hhead : ∀ k, head l2 = Some k → ¬ x `prefix_of` k.

Lemma tidy_head_le k : k ∈ l2 → ∃ h, head l2 = Some h ∧ str_lt k h = false.
Proof.
  destruct Htidy as [Hs _]. apply StronglySorted_app_iff in Hs as (_ & _ & Hs2).
  destruct l2 as [|h r]; [by intros ?%elem_of_nil|].
  intros Hk. exists h. split; [done|].
  apply elem_of_cons in Hk as [->|Hk]; [apply str_lt_irrefl|].
  apply StronglySorted_inv in Hs2 as [_ Hf]. rewrite Forall_forall in Hf.
  apply str_lt_asym. by apply Hf.
Qed.

Lemma tidy_high_no_prefix k : k ∈ l2 → ¬ x `prefix_of` k.
Proof.
  intros Hk Hp. destruct (tidy_head_le k Hk) as (h & Hh & Hkh).
  apply (Hhead h Hh). apply (prefix_between x h k); [done| |done].
  rewrite Forall_forall in Hhigh. apply Hhigh.
  destruct l2; [done|]. injection Hh as ->. by left.
Qed.

Lemma tidy_high_gt k : k ∈ l2 → slt x k.
Proof.
  intros Hk. apply str_lt_trichotomy.
  - rewrite Forall_forall in Hhigh. by apply Hhigh.
  - intros ->. by apply (tidy_high_no_prefix x Hk).
Qed.

Lemma tidy_high_not_prefix k : k ∈ l2 → ¬ k `prefix_of` x.
Proof.
  intros Hk Hp. apply prefix_not_gt in Hp.
  pose proof (tidy_high_gt k Hk) as H. unfold slt in H. congruence.
Qed.

Lemma tidy_low_no_prefix k : k ∈ l1 → ¬ x `prefix_of` k.
Proof.
  intros Hk Hp. apply prefix_not_gt in Hp.
  rewrite Forall_forall in Hlow. specialize (Hlow k Hk). congruence.
Qed.

Lemma tidy_low_prefix_last k : k ∈ l1 → k `prefix_of` x → last l1 = Some k.
Proof.
  intros Hk Hp. destruct Htidy as [Hs Hpf].
  apply StronglySorted_app_iff in Hs as (_ & Hs1 & _).
  destruct (last l1) as [z|] eqn:Ez; [|apply last_None in Ez; subst; by apply elem_of_nil in Hk].
  f_equal. symmetry.
  assert (z ∈ l1) as Hz by (by apply last_Some_elem_of).
  apply Hpf; [apply elem_of_app; by left|apply elem_of_app; by left|].
  apply (prefix_between k z x); [done| |].
  - apply last_Some in Ez as [l' ->].
    apply elem_of_app in Hk as [Hk|Hk].
    + apply StronglySorted_app_iff in Hs1 as (H & _ & _).
      apply str_lt_asym. apply H; [done|by left].
    + apply list_elem_of_singleton in Hk as ->. apply str_lt_irrefl.
  - apply str_lt_asym. rewrite Forall_forall in Hlow. by apply Hlow.
Qed.

(** A new key between the two halves. *)
Lemma keys_tidy_insert :
  (∀ k, last l1 = Some k → ¬ k `prefix_of` x) → keys_tidy (l1 ++ x :: l2).
Proof.
  intros Hlast. destruct Htidy as [Hs Hpf].
  pose proof Hs as Hs'. apply StronglySorted_app_iff in Hs' as (H12 & Hs1 & Hs2).
  split.
  - apply StronglySorted_app_iff. split; [|split; [done|]].
    + intros a b Ha Hb. apply elem_of_cons in Hb as [->|Hb]; [|by apply H12].
      rewrite Forall_forall in Hlow. by apply Hlow.
    + constructor; [done|]. apply Forall_forall. apply tidy_high_gt.
  - assert (∀ a, a ∈ l1 ++ x :: l2 ↔ a = x ∨ a ∈ l1 ++ l2) as Hin.
    { intros a. rewrite !elem_of_app, elem_of_cons. tauto. }
    intros a b Ha Hb Hp. apply Hin in Ha as [->|Ha]; apply Hin in Hb as [->|Hb].
    + done.
    + apply elem_of_app in Hb as [Hb|Hb].
      * by destruct (tidy_low_no_prefix b Hb).
      * by destruct (tidy_high_no_prefix b Hb).
    + apply elem_of_app in Ha as [Ha|Ha].
      * destruct (Hlast a); [by apply tidy_low_prefix_last|done].
      * by destruct (tidy_high_not_prefix a Ha).
    + by apply Hpf.
Qed.

End keys_tidy_step.

(** The last key below [x] is a prefix of [x] and is replaced by it. *)
Lemma keys_tidy_extend (l1 l2 : list pystr) (z x : pystr) :
  keys_tidy ((l1 ++ [z]) ++ l2) →
  Forall (fun k => str_lt k x = true) (l1 ++ [z]) →
  Forall (fun k => str_lt k x = false) l2 →
  (∀ k, head l2 = Some k → ¬ x `prefix_of` k) →
  z `prefix_of` x →
  keys_tidy (l1 ++ x :: l2).
Proof.
  intros Htidy Hlow Hhigh Hhead Hzx.
  pose proof Htidy as [Hs Hpf].
  pose proof Hs as Hs'. apply StronglySorted_app_iff in Hs' as (H12 & Hs1 & Hs2).
  apply StronglySorted_app_iff in Hs1 as (H1z & Hs1 & _).
  apply Forall_app in Hlow as Hlow'. destruct Hlow' as [Hlow1 _].
  split.
  - apply StronglySorted_app_iff. split; [|split; [done|]].
    + intros a b Ha Hb. apply elem_of_cons in Hb as [->|Hb].
      * rewrite Forall_forall in Hlow1. by apply Hlow1.
      * apply H12; [|done]. apply elem_of_app. by left.
    + constructor; [done|]. apply Forall_forall.
      apply (tidy_high_gt (l1 ++ [z]) l2 x Htidy Hhigh Hhead).
  - assert (∀ a, a ∈ l1 ++ x :: l2 ↔ a = x ∨ a ∈ l1 ∨ a ∈ l2) as Hin.
    { intros a. rewrite !elem_of_app, elem_of_cons. tauto. }
    assert (∀ a, a ∈ l1 → a ∈ (l1 ++ [z]) ++ l2) as Hin1.
    { intros a Ha. apply elem_of_app. left. apply elem_of_app. by left. }
    assert (∀ a, a ∈ l2 → a ∈ (l1 ++ [z]) ++ l2) as Hin2.
    { intros a Ha. apply elem_of_app. by right. }
    intros a b Ha Hb Hp. apply Hin in Ha as [->|Ha]; apply Hin in Hb as [->|Hb].
    + done.
    + destruct Hb as [Hb|Hb].
      * destruct (tidy_low_no_prefix (l1 ++ [z]) x Hlow b); [|done].
        apply elem_of_app. by left.
      * by destruct (tidy_high_no_prefix (l1 ++ [z]) l2 x Htidy Hhigh Hhead b Hb).
    + destruct Ha as [Ha|Ha].
      * assert (last (l1 ++ [z]) = Some a) as Hl.
        { apply (tidy_low_prefix_last (l1 ++ [z]) l2 x Htidy Hlow); [|done].
          apply elem_of_app. by left. }
        rewrite last_snoc in Hl. injection Hl as ->.
        specialize (H1z a a Ha ltac:(by left)). unfold slt in H1z.
        by rewrite str_lt_irrefl in H1z.
      * by destruct (tidy_high_not_prefix (l1 ++ [z]) l2 x Htidy Hhigh Hhead a Ha).
    + apply Hpf; [destruct Ha; auto|destruct Hb; auto|done].
Qed.


(** ** [StrtabSection.build]: what the list [d] looks like *)

Section strtab_sharing.
Import StrtabSection.

(** The keys of [d] are sorted and none is a prefix of another. *)
Definition tidy (d : list Group) : Prop := keys_tidy (d.*1).

Lemma sorted_keys_groups (d : list Group) :
  StronglySorted slt (d.*1) → StronglySorted key_lt d.
Proof.
  induction d as [|g d IH]; cbn; intros H; [constructor|].
  apply StronglySorted_inv in H as [Hs Hf]. constructor; [by apply IH|].
  rewrite Forall_forall in Hf. apply Forall_forall. intros h Hh.
  apply Hf. by apply list_elem_of_fmap_2.
Qed.

Lemma build_step_split d s :
  let x := reverse s in
  let i := bisect_left str_lt fst d x in
  (∃ key value r, drop i d = (key, value) :: r ∧ startswith key x = true
      ∧ build_step d s = take i d ++ (key, insort_right Z.ltb len value s) :: r)
  ∨ ((∀ g : Group, head (drop i d) = Some g → startswith g.1 x = false)
     ∧ ((∃ l key value, take i d = l ++ [(key, value)] ∧ startswith x key = true
           ∧ build_step d s = l ++ (x, insort_right Z.ltb len value s) :: drop i d)
        ∨ ((∀ g : Group, last (take i d) = Some g → startswith x g.1 = false)
           ∧ build_step d s = take i d ++ (x, [s]) :: drop i d))).
Proof.
  intros x i. pose proof (bisect_left_le str_lt fst d x) as Hi. fold i in Hi.
  unfold build_step. fold x. fold i.
  assert (
    (∃ l key value, take i d = l ++ [(key, value)] ∧ startswith x key = true
       ∧ match (if (0 <? i)%nat then d !! (i - 1)%nat else None) with
         | Some (key, value) =>
           if startswith x key
           then <[(i - 1)%nat := (x, insort_right Z.ltb len value s)]> d
           else list_insert_at i (x, [s]) d
         | None => list_insert_at i (x, [s]) d
         end = l ++ (x, insort_right Z.ltb len value s) :: drop i d)
    ∨ ((∀ g : Group, last (take i d) = Some g → startswith x g.1 = false)
       ∧ match (if (0 <? i)%nat then d !! (i - 1)%nat else None) with
         | Some (key, value) =>
           if startswith x key
           then <[(i - 1)%nat := (x, insort_right Z.ltb len value s)]> d
           else list_insert_at i (x, [s]) d
         | None => list_insert_at i (x, [s]) d
         end = take i d ++ (x, [s]) :: drop i d)) as Hext.
  { destruct i as [|j]; [right; split; [by intros g|done]|].
    change (0 <? S j)%nat with true. cbn match.
    replace (S j - 1)%nat with j by lia.
    destruct (lookup_lt_is_Some_2 d j ltac:(lia)) as [[key value] Hj].
    rewrite Hj. rewrite (take_S_r _ _ _ Hj).
    destruct (startswith x key) eqn:E.
    - left. exists (take j d), key, value. split; [done|]. split; [done|].
      by rewrite insert_take_drop by lia.
    - right. split; [|by rewrite <- (take_S_r _ _ _ Hj)].
      intros g. rewrite last_snoc. by intros [= <-]. }
  destruct (i <? length d)%nat eqn:Ei.
  - apply Nat.ltb_lt in Ei.
    destruct (lookup_lt_is_Some_2 d i Ei) as [[key value] Hj]. rewrite Hj.
    destruct (startswith key x) eqn:E.
    + left. exists key, value, (drop (S i) d). split; [by apply drop_S|].
      split; [done|]. by rewrite insert_take_drop.
    + right. split; [|done]. intros g. rewrite (drop_S _ _ _ Hj). by intros [= <-].
  - apply Nat.ltb_ge in Ei. right. split; [|done].
    intros g. by rewrite drop_ge.
Qed.

Lemma tidy_build_step d s : tidy d → tidy (build_step d s).
Proof.
  intros Ht. unfold tidy in *.
  pose proof (sorted_keys_groups d (proj1 Ht)) as Hs.
  destruct (bisect_left_split d (reverse s) Hs) as (Hi & Hlow & Hhigh).
  set (x := reverse s) in *. set (i := bisect_left str_lt fst d x) in *.
  assert (d.*1 = (take i d).*1 ++ (drop i d).*1) as Hd
    by (by rewrite <- fmap_app, take_drop).
  assert (Forall (fun k => str_lt k x = true) (take i d).*1) as Hlow'
    by (by apply Forall_fmap).
  assert (Forall (fun k => str_lt k x = false) (drop i d).*1) as Hhigh'
    by (by apply Forall_fmap).
  pose proof (build_step_split d s) as Hsplit. cbv zeta in Hsplit.
  fold x in Hsplit. fold i in Hsplit.
  destruct Hsplit as
    [(key & value & r & Hdrop & Hsw & ->)
    |[Hhead [(l & key & value & Htake & Hsw & ->)|[Hlast ->]]]].
  - rewrite fmap_app, fmap_cons. rewrite Hdrop, fmap_cons in Hd. cbn [fst] in *.
    by rewrite <- Hd.
  - assert (∀ k, head (drop i d).*1 = Some k → ¬ x `prefix_of` k) as Hhead'.
    { intros k Hk. destruct (drop i d) as [|g r]; [done|]. injection Hk as <-.
      intros Hp. apply startswith_prefix in Hp. by rewrite (Hhead g) in Hp. }
    rewrite fmap_app. cbn.
    rewrite Htake, fmap_app in Hd, Hlow'. cbn in Hd, Hlow'.
    apply (keys_tidy_extend l.*1 (drop i d).*1 key x); try done.
    + by rewrite <- Hd.
    + by apply startswith_prefix.
  - assert (∀ k, head (drop i d).*1 = Some k → ¬ x `prefix_of` k) as Hhead'.
    { intros k Hk. destruct (drop i d) as [|g r]; [done|]. injection Hk as <-.
      intros Hp. apply startswith_prefix in Hp. by rewrite (Hhead g) in Hp. }
    rewrite fmap_app. cbn.
    apply (keys_tidy_insert (take i d).*1 (drop i d).*1 x); try done.
    + by rewrite <- Hd.
    + intros k Hk Hp. rewrite fmap_last in Hk.
      destruct (last (take i d)) as [g|] eqn:Eg; [|done]. injection Hk as <-.
      apply startswith_prefix in Hp. by rewrite (Hlast g) in Hp.
Qed.

Lemma tidy_build_groups keys : tidy (build_groups keys).
Proof.
  unfold build_groups.
  assert (∀ d, tidy d → tidy (foldl build_step d keys)) as H.
  { induction keys as [|s keys IH]; intros d Hd; cbn; [done|].
    apply IH. by apply tidy_build_step. }
  apply H. split; [constructor|]. intros a b Ha. by apply elem_of_nil in Ha.
Qed.

End strtab_sharing.


Section strtab_exact.
Import StrtabSection.

(** The longest string of every group. *)
Definition tops (d : list Group) : list pystr := (fun g : Group => reverse g.1) <$> d.

Lemma group_cost_top g : good_group g → group_cost g = utf8_len (reverse g.1) + 1.
Proof.
  intros (longest & Hlast & Hkey & _). unfold group_cost.
  by rewrite Hlast, Hkey, reverse_involutive.
Qed.

Lemma Zsum_tops d :
  Forall good_group d → Zsum group_cost d = Zsum (fun s => utf8_len s + 1) (tops d).
Proof.
  induction 1 as [|g d Hg _ IH]; [done|].
  cbn [Zsum tops fmap list_fmap]. rewrite group_cost_top by done.
  unfold tops in IH. lia.
Qed.

Lemma NoDup_sorted (ks : list pystr) : StronglySorted slt ks → NoDup ks.
Proof.
  induction 1 as [|a ks _ IH Hf]; constructor; [|done].
  intros Hin. rewrite Forall_forall in Hf. specialize (Hf a Hin).
  unfold slt in Hf. by rewrite str_lt_irrefl in Hf.
Qed.

Lemma NoDup_tops d : tidy d → NoDup (tops d).
Proof.
  intros [Hs _]. apply NoDup_sorted in Hs.
  unfold tops. apply NoDup_fmap_2_strong; [|by apply NoDup_fmap_1 in Hs].
  intros g h Hg Hh Heq.
  assert (g.1 = h.1) as Hk.
  { by rewrite <- (reverse_involutive g.1), Heq, reverse_involutive. }
  apply list_elem_of_lookup in Hg as [i Hi]. apply list_elem_of_lookup in Hh as [j Hj].
  assert (i = j) as ->; [|congruence].
  apply (NoDup_lookup (d.*1) i j g.1); [done| |].
  - by rewrite list_lookup_fmap, Hi.
  - by rewrite list_lookup_fmap, Hj, Hk.
Qed.

Lemma elem_of_tops d s :
  Forall good_group d → tidy d →
  s ∈ tops d ↔ s ∈ members d ∧ ∀ t, t ∈ members d → s `suffix_of` t → t = s.
Proof.
  intros Hg [_ Hpf]. rewrite Forall_forall in Hg.
  unfold tops, members. split.
  - intros Hs. apply list_elem_of_fmap in Hs as (g & -> & Hgd).
    destruct (Hg g Hgd) as (L & Hlast & Hkey & Hall).
    rewrite Hkey, reverse_involutive. split.
    + apply list_elem_of_bind. exists g. split; [|done]. by apply last_Some_elem_of.
    + intros t Ht Hst. apply list_elem_of_bind in Ht as (h & Hth & Hhd).
      destruct (Hg h Hhd) as (L' & Hlast' & Hkey' & Hall').
      rewrite Forall_forall in Hall'. pose proof (Hall' t Hth) as HtL'.
      assert (g.1 = h.1) as Hk.
      { apply Hpf; [by apply list_elem_of_fmap_2|by apply list_elem_of_fmap_2|].
        rewrite Hkey, Hkey'. apply suffix_prefix_reverse.
        by transitivity t. }
      assert (L = L') as <-.
      { by rewrite <- (reverse_involutive L), <- Hkey, Hk, Hkey', reverse_involutive. }
      by apply (anti_symm suffix).
  - intros [Hs Hmax]. apply list_elem_of_bind in Hs as (g & Hsg & Hgd).
    destruct (Hg g Hgd) as (L & Hlast & Hkey & Hall).
    rewrite Forall_forall in Hall.
    assert (L = s) as <-.
    { apply Hmax; [|by apply Hall].
      apply list_elem_of_bind. exists g. split; [|done]. by apply last_Some_elem_of. }
    apply list_elem_of_fmap. exists g. split; [|done].
    by rewrite Hkey, reverse_involutive.
Qed.

Lemma Zsum_ext {A} (f g : A → Z) l :
  (∀ x, x ∈ l → f x = g x) → Zsum f l = Zsum g l.
Proof.
  induction l as [|a l IH]; intros H; [done|]. cbn.
  rewrite (H a) by left. rewrite IH; [done|]. intros x Hx. apply H. by right.
Qed.



End strtab_exact.


(** ** [mkextmod.py]: what the two loops build *)

Section mkextmod_tables.
Import mkextmod.

(** Every recorded copy and every symbol of [.rela.dyn] is in
    [dynsym.symbols], whose first entry is the null symbol. *)
Definition sym_inv (st : State) : Prop :=
  (∀ i d, dyn st !! i = Some d → d ∈ dynsym_symbols st)
  ∧ (∀ r, r ∈ dynrela_relocs st → rela_symbol r ∈ dynsym_symbols st)
  ∧ head (dynsym_symbols st) = head (dynsym_symbols init).

(** From [st] to [st'] the script only appended to [dynsym.symbols] and to
    [dynrela.relocs] and recorded new copies. *)
Record grows (st st' : State) : Prop := mkGrows {
  grows_dynrel : dynrel_relocs st' = dynrel_relocs st;
  grows_dyns : dynamic_dyns st' = dynamic_dyns st;
  grows_deleted : deleted_rel st' = deleted_rel st;
  grows_dynsym : dynsym_symbols st `prefix_of` dynsym_symbols st';
  grows_dynrela : dynrela_relocs st `prefix_of` dynrela_relocs st';
  grows_dyn : ∀ i d, dyn st !! i = Some d → dyn st' !! i = Some d;
  grows_inv : sym_inv st → sym_inv st'
}.

Lemma grows_refl st : grows st st.
Proof. by constructor. Qed.

Lemma grows_trans a b c : grows a b → grows b c → grows a c.
Proof.
  intros [A1 A2 A3 A4 A5 A6 A7] [B1 B2 B3 B4 B5 B6 B7]. constructor.
  - congruence.
  - congruence.
  - congruence.
  - by transitivity (dynsym_symbols b).
  - by transitivity (dynrela_relocs b).
  - auto.
  - auto.
Qed.

Lemma head_app_prefix {A} (l k : list A) x : head l = Some x → head (l ++ k) = Some x.
Proof. by destruct l. Qed.

Lemma grows_mk_dyn sym st : grows st (mk_dyn sym st).1.
Proof.
  unfold mk_dyn. destruct (dyn st !! ident sym) eqn:E; cbn [fst]; [apply grows_refl|].
  constructor; cbn; try done.
  - by apply prefix_app_r.
  - intros i d Hd. rewrite lookup_insert_ne; [done|]. intros <-. congruence.
  - intros (H1 & H2 & H3). unfold sym_inv. cbn. split; [|split].
    + intros i d. destruct (decide (ident sym = i)) as [<-|Hne].
      * rewrite lookup_insert_eq. intros [= <-]. apply elem_of_app. right. by left.
      * rewrite lookup_insert_ne by done. intros Hd. apply elem_of_app. left. eauto.
    + intros r Hr. apply elem_of_app. left. by apply H2.
    + cbn in H3. destruct (dynsym_symbols st); [done|exact H3].
Qed.

Lemma mk_dyn_recorded sym st :
  sym_inv st → (mk_dyn sym st).2 ∈ dynsym_symbols (mk_dyn sym st).1.
Proof. intros (H1 & _). by apply mk_dyn_in_dynsym. Qed.

Lemma grows_emit sym st (r : Symbol → Rela.t) :
  grows st
    (let '(st1, d) := mk_dyn sym st in
     append_rela (mkRelocationWithAddend d (r d)) st1).
Proof.
  pose proof (grows_mk_dyn sym st) as H.
  pose proof (mk_dyn_recorded sym st) as Hd.
  destruct (mk_dyn sym st) as [st1 d]. cbn [fst snd] in *.
  destruct H as [A1 A2 A3 A4 A5 A6 A7]. constructor; cbn; try done.
  - by apply prefix_app_r.
  - intros Hinv. destruct (A7 Hinv) as (H1 & H2 & H3). unfold sym_inv. cbn.
    split; [done|]. split; [|done].
    intros x Hx. apply elem_of_app in Hx as [Hx|Hx]; [by apply H2|].
    apply list_elem_of_singleton in Hx as ->. cbn. by apply Hd.
Qed.

Lemma promote_grows sym_offset symbols st sym st' :
  promote sym_offset symbols st sym = Ok st' → grows st st'.
Proof.
  unfold promote. destruct (section sym) as [sec|]; [|intros [= <-]; apply grows_refl].
  remember (if negb (st_bind (struct sym) =? elf32.STB_LOCAL)
                 && (st_visibility (struct sym) =? elf32.STV_DEFAULT)
            then (mk_dyn sym st).1 else st) as st1 eqn:Hst1.
  assert (grows st st1) as H1.
  { subst st1. destruct (_ && _); [apply grows_mk_dyn | apply grows_refl]. }
  clear Hst1.
  destruct (name sym) as [n|]; [|done].
  destruct (_ && _); [|by intros [= <-]].
  destruct (assert _); cbn [mbind result_bind]; [|done].
  destruct (read_word _ _); cbn [mbind result_bind]; [|done].
  destruct (filter _ _) as [|rs rest]; [done|].
  intros H. eapply grows_trans; [exact H1|].
  pose proof (grows_emit rs st1
    (fun _ => Rela.mk (c_uint32 (Z.land (st_value (struct sym)) 0xFFFFFFFE + sym_offset))
                (c_uint32 (elf32.R_INFO (elf32.R_SYM 0) elf32.R_ARM_ABS32)) (c_int32 0))) as H2.
  destruct (mk_dyn rs st1) as [st2 d]. by injection H as <-.
Qed.

Lemma convert_grows sec target st rel st' :
  convert sec target st rel = Ok st' → grows st st'.
Proof.
  unfold convert. cbv zeta.
  repeat match goal with
  | |- Raise _ = Ok _ → _ => discriminate
  | |- Ok _ = Ok _ → _ => intros [= <-]
  | |- (mbind _ ?x) = _ → _ => destruct x; cbn [mbind result_bind]
  | |- (match ?x with _ => _ end) = _ → _ => destruct x
  | |- (if ?b then _ else _) = _ → _ => destruct b
  end; try done; try apply grows_refl.
  all: apply (grows_emit _ _ (fun _ => _)).
Qed.

Lemma for_each_grows {A} (body : State → A → result State) l st st' :
  (∀ s x s', body s x = Ok s' → grows s s') →
  for_each body l st = Ok st' → grows st st'.
Proof.
  intros Hb. revert st. induction l as [|x l IH]; intros st; cbn.
  - intros [= <-]. apply grows_refl.
  - destruct (body st x) as [s1|] eqn:E; cbn; [|done].
    intros H. eapply grows_trans; [by eapply Hb | by apply IH].
Qed.

Lemma promote_symtab_grows sym_offset st symbols st' :
  promote_symtab sym_offset st symbols = Ok st' → grows st st'.
Proof.
  unfold promote_symtab. apply for_each_grows. intros ? ? ?. apply promote_grows.
Qed.

End mkextmod_tables.


Section mkextmod_run.
Import mkextmod.

Lemma convert_section_grows st i sec st' :
  convert_section st (i, sec) = Ok st' → ∃ s, grows st s ∧ st' = delete_rel i s.
Proof.
  unfold convert_section.
  destruct (info sec) as [target|]; [|done].
  destruct (negb _); [intros [= <-]; exists st; split; [apply grows_refl|done]|].
  destruct (for_each _ _ _) as [s1|] eqn:E; cbn [mbind result_bind]; [|done].
  intros [= <-]. exists s1. split; [|done].
  apply for_each_grows in E; [done|]. intros ? ? ?. apply convert_grows.
Qed.

Lemma sym_inv_delete_rel i st : sym_inv st → sym_inv (delete_rel i st).
Proof. done. Qed.

(** The loop over the [SHT_REL] sections marks each one deleted, in order. *)
Lemma convert_sections_deleted (l : list RelIn) : ∀ k st st',
  for_each convert_section (imap (fun i s => (k + i, s)%nat) l) st = Ok st' →
  deleted_rel st' = deleted_rel st ++ seq k (length l)
  ∧ (sym_inv st → sym_inv st')
  ∧ (∀ i d, dyn st !! i = Some d → dyn st' !! i = Some d)
  ∧ dynsym_symbols st `prefix_of` dynsym_symbols st'.
Proof.
  induction l as [|sec l IH]; intros k st st'; cbn [imap for_each length seq].
  - intros [= <-]. by rewrite app_nil_r.
  - destruct (convert_section st _) as [s1|] eqn:E; cbn [mbind result_bind]; [|done].
    rewrite Nat.add_0_r in E.
    apply convert_section_grows in E as (s & Hg & ->).
    intros H.
    rewrite (imap_ext _ (fun i s => (S k + i, s)%nat)) in H
      by (intros; cbn; f_equal; lia).
    apply IH in H as (H1 & H2 & H3 & H4).
    destruct Hg as [A1 A2 A3 A4 A5 A6 A7].
    split; [|split; [|split]].
    + rewrite H1. cbn. rewrite A3, <- app_assoc. done.
    + intros Hi. apply H2. by apply sym_inv_delete_rel, A7.
    + intros i d Hd. apply H3. cbn. by apply A6.
    + by transitivity (dynsym_symbols s).
Qed.

(** The entries of [.dynamic] are built without touching the other tables. *)
Definition same_tables (st st' : State) : Prop :=
  dyn st' = dyn st ∧ dynsym_symbols st' = dynsym_symbols st
  ∧ dynrela_relocs st' = dynrela_relocs st ∧ deleted_rel st' = deleted_rel st.

Lemma same_tables_append d st0 st : same_tables st0 st → same_tables st0 (append_dyn d st).
Proof. done. Qed.

Lemma same_tables_user st0 st u st' :
  same_tables st0 st → user_entry st u = Ok st' → same_tables st0 st'.
Proof.
  intros H. unfold user_entry. destruct (get_first_symbol _ _); by intros [= <-].
Qed.

Lemma dynamic_entries_tables inp st st' :
  dynamic_entries inp st = Ok st' → same_tables st st'.
Proof.
  unfold dynamic_entries. cbv zeta.
  destruct (dyn_entries inp) as [l|]; [|done].
  match goal with
  | |- mbind _ (for_each _ _ ?s) = _ → _ => assert (same_tables st s) as Hs
  end.
  { repeat first
      [ apply same_tables_append
      | match goal with
        | |- same_tables _ (match ?x with _ => _ end) => destruct x
        | |- same_tables _ (if ?x then _ else _) => destruct x
        end
      | done ]. }
  destruct (for_each _ _ _) as [s1|] eqn:E; cbn [mbind result_bind]; [|done].
  intros [= <-]. apply same_tables_append.
  eapply (for_each_inv (same_tables st)); [|exact Hs|exact E].
  intros s u s'. apply same_tables_user.
Qed.

Lemma sym_inv_init : sym_inv init.
Proof.
  split; [|split; [|done]].
  - intros i d H. cbn in H. by rewrite lookup_empty in H.
  - intros r H. cbn in H. by apply elem_of_nil in H.
Qed.

(** What a completed run leaves in the tables. *)
Lemma main_tables inp st :
  main inp = Ok st →
  ∃ off s1 s2,
    cpu_config (cpu_name inp) = Ok off
    ∧ for_each (promote_symtab off) (symtabs inp) init = Ok s1
    ∧ grows init s1
    ∧ deleted_rel s2 = seq 0 (length (reltabs inp))
    ∧ (∀ i d, dyn s1 !! i = Some d → dyn s2 !! i = Some d)
    ∧ sym_inv s2
    ∧ same_tables s2 st.
Proof.
  unfold main.
  destruct (cpu_config _) as [off|]; cbn [mbind result_bind]; [|done].
  destruct (for_each (promote_symtab off) _ _) as [s1|] eqn:E1;
    cbn [mbind result_bind]; [|done].
  destruct (for_each convert_section _ _) as [s2|] eqn:E2;
    cbn [mbind result_bind]; [|done].
  intros Hd. exists off, s1, s2.
  pose proof E1 as G1. apply for_each_grows in G1;
    [|intros ? ? ?; apply promote_symtab_grows].
  rewrite (imap_ext _ (fun i s => (0 + i, s)%nat)) in E2 by done.
  apply convert_sections_deleted in E2 as (H1 & H2 & H3 & _).
  split; [done|]. split; [done|]. split; [done|]. split.
  { rewrite H1, (grows_deleted _ _ G1). done. }
  split; [done|]. split.
  { apply H2, (grows_inv _ _ G1), sym_inv_init. }
  by apply (dynamic_entries_tables inp).
Qed.

(** Every entry of the output [.rela.dyn] refers to a symbol that is in
    the output [.dynsym], and [.dynsym] starts with the null symbol. *)
Theorem main_relocations_use_dynsym inp st :
  main inp = Ok st →
  (∀ r, r ∈ dynrela_relocs st → rela_symbol r ∈ dynsym_symbols st)
  ∧ head (dynsym_symbols st) = Some (mkSymbol (Created 0) None None (mkSym 0 0 0 0 0 0)).
Proof.
  intros H. apply main_tables in H
    as (off & s1 & s2 & _ & _ & _ & _ & _ & (_ & I2 & I3) & (_ & T2 & T3 & _)).
  rewrite T2, T3. by split.
Qed.

Lemma main_relocations_use_dynsym_witness :
  ∃ st, main (run_input 0x60000001) = Ok st
    ∧ (∀ r, r ∈ dynrela_relocs st → rela_symbol r ∈ dynsym_symbols st)
    ∧ head (dynsym_symbols st) = Some (mkSymbol (Created 0) None None (mkSym 0 0 0 0 0 0)).
Proof.
  eexists. split; [vm_compute; reflexivity|].
  apply (main_relocations_use_dynsym (run_input 0x60000001)). vm_compute. reflexivity.
Defined.

(** A completed run has marked every input [SHT_REL] section deleted, each
    once and in order: none reaches the output. *)
Theorem main_deletes_rel_sections inp st :
  main inp = Ok st → deleted_rel st = seq 0 (length (reltabs inp)).
Proof.
  intros H. apply main_tables in H
    as (off & s1 & s2 & _ & _ & _ & Hd & _ & _ & (_ & _ & _ & T4)).
  by rewrite T4.
Qed.

End mkextmod_run.


Section mkextmod_exports.
Import mkextmod.

(** A run on scenario 2: one symbol table, one [SHT_REL] section. *)
Definition scenario2_input : Input :=
  mkInput (Some (lit "8-M.MAIN")) [[scenario2_target]] [scenario2_reltab]
    (lit "mod.elf") (Some []).

Lemma main_deletes_rel_sections_witness :
  ∃ st, main scenario2_input = Ok st
        ∧ deleted_rel st = seq 0 (length (reltabs scenario2_input)).
Proof.
  eexists. split; [vm_compute; reflexivity|].
  apply (main_deletes_rel_sections scenario2_input). vm_compute. reflexivity.
Defined.

(** The symbols the first loop copies to [.dynsym]: defined, not local, of
    default visibility. *)
Definition exported (sym : Symbol) : Prop :=
  section sym ≠ None
  ∧ st_bind (struct sym) ≠ elf32.STB_LOCAL
  ∧ st_visibility (struct sym) = elf32.STV_DEFAULT.

Lemma promote_exported sym_offset symbols st sym st' :
  promote sym_offset symbols st sym = Ok st' → exported sym →
  is_Some (dyn st' !! ident sym).
Proof.
  intros H (Hsec & Hb & Hv). unfold promote in H.
  destruct (section sym) as [sec|]; [|done].
  assert (negb (st_bind (struct sym) =? elf32.STB_LOCAL)
          && (st_visibility (struct sym) =? elf32.STV_DEFAULT) = true) as Hc.
  { apply andb_true_iff. split; [apply negb_true_iff|]; [by apply Z.eqb_neq|by apply Z.eqb_eq]. }
  rewrite Hc in H.
  pose proof (mk_dyn_memo sym st) as Hm.
  set (st1 := (mk_dyn sym st).1) in *.
  assert (∀ rs (r : Symbol → Rela.t),
            is_Some (dyn (let '(st2, d) := mk_dyn rs st1 in
                          append_rela (mkRelocationWithAddend d (r d)) st2)
                     !! ident sym)) as Hemit.
  { intros rs r. pose proof (grows_emit rs st1 r) as Hg.
    eexists. apply (grows_dyn _ _ Hg). exact Hm. }
  destruct (name sym) as [n|]; [|done].
  destruct (_ && _); [|injection H as <-; eauto].
  destruct (assert _); cbn [mbind result_bind] in H; [|done].
  destruct (read_word _ _); cbn [mbind result_bind] in H; [|done].
  destruct (filter _ _) as [|rs rest]; [done|].
  specialize (Hemit rs
    (fun _ => Rela.mk (c_uint32 (Z.land (st_value (struct sym)) 0xFFFFFFFE + sym_offset))
                (c_uint32 (elf32.R_INFO (elf32.R_SYM 0) elf32.R_ARM_ABS32)) (c_int32 0))).
  destruct (mk_dyn rs st1) as [st2 d]. by injection H as <-.
Qed.

Lemma for_each_post {A St} (Q : A → St → Prop) (body : St → A → result St) l :
  (∀ s x s', body s x = Ok s' → Q x s') →
  (∀ x s y s', Q x s → body s y = Ok s' → Q x s') →
  ∀ st st', for_each body l st = Ok st' → ∀ x, x ∈ l → Q x st'.
Proof.
  intros Hnow Hkeep. induction l as [|y l IH]; intros st st' H x Hx.
  { by apply elem_of_nil in Hx. }
  cbn in H. destruct (body st y) as [s1|] eqn:E; cbn in H; [|done].
  apply elem_of_cons in Hx as [->|Hx]; [|by eapply IH].
  assert (Q y s1) as Hq by (by eapply Hnow).
  clear E IH. revert s1 H Hq. induction l as [|z l IH]; intros s1 H Hq.
  - by injection H as <-.
  - cbn in H. destruct (body s1 z) as [s2|] eqn:E; cbn in H; [|done].
    apply (IH s2); [done|]. by eapply Hkeep.
Qed.

(** Every defined, non-local symbol of default visibility in an input
    symbol table has its copy in the output [.dynsym]. *)
Theorem main_exports_global_symbols inp st symbols sym :
  main inp = Ok st →
  symbols ∈ symtabs inp → sym ∈ symbols → exported sym →
  ∃ d, dyn st !! ident sym = Some d ∧ d ∈ dynsym_symbols st.
Proof.
  intros H Hsyms Hsym Hexp.
  apply main_tables in H
    as (off & s1 & s2 & _ & E1 & _ & _ & H12 & (I1 & _) & (T1 & T2 & _)).
  assert (∀ s x s', promote_symtab off s x = Ok s' →
            ∀ y, y ∈ x → exported y → is_Some (dyn s' !! ident y)) as Hnow.
  { intros s x s' Hx. unfold promote_symtab in Hx.
    apply (for_each_post (fun y s => exported y → is_Some (dyn s !! ident y))
             (promote off x) x) with (st := s); [| |done].
    - intros a b c Hb. by apply (promote_exported off x a b c).
    - intros a b c e Hq Hb Ha. destruct (Hq Ha) as [d Hd].
      exists d. apply (grows_dyn _ _ (promote_grows _ _ _ _ _ Hb)). exact Hd. }
  assert (is_Some (dyn s1 !! ident sym)) as [d Hd].
  { apply (for_each_post (fun x s =>
             ∀ y, y ∈ x → exported y → is_Some (dyn s !! ident y))
             (promote_symtab off) (symtabs inp) Hnow) with (st := init) (x := symbols);
      try done.
    intros x s y s' Hq Hb a Ha Hea. destruct (Hq a Ha Hea) as [d Hd].
    exists d. apply (grows_dyn _ _ (promote_symtab_grows _ _ _ _ Hb)). exact Hd. }
  exists d. rewrite T1, T2. split; [by apply H12|].
  apply (I1 (ident sym)). by apply H12.
Qed.

Lemma main_exports_global_symbols_witness :
  ∃ st d, main scenario2_input = Ok st
    ∧ dyn st !! ident scenario2_target = Some d ∧ d ∈ dynsym_symbols st.
Proof.
  eexists.
  destruct (main_exports_global_symbols scenario2_input
              ltac:(let v := eval vm_compute in
                      (match main scenario2_input with Ok s => s | Raise _ => init end)
                    in exact v)
              [scenario2_target] scenario2_target) as (d & Hd & Hin).
  - vm_compute. reflexivity.
  - left.
  - left.
  - repeat split; vm_compute; congruence.
  - exists d. split; [vm_compute; reflexivity|]. by split.
Defined.

End mkextmod_exports.


Section mkextmod_functions.
Import mkextmod.

(** ** [mk_dyn] *)

(** [mk_dyn] makes the copy once: the first call on a symbol appends the
    copy to [dynsym.symbols] and records it, with the symbol's name,
    section, value, size, info and other, and with [st_shndx] forced to
    [SHN_UNDEF] when the symbol has no section; every later call returns
    that copy and changes nothing. *)
Theorem mk_dyn_once sym st :
  mk_dyn sym (mk_dyn sym st).1 = mk_dyn sym st
  ∧ (dyn st !! ident sym = None →
     dynsym_symbols (mk_dyn sym st).1 = dynsym_symbols st ++ [(mk_dyn sym st).2]
     ∧ name (mk_dyn sym st).2 = name sym
     ∧ section (mk_dyn sym st).2 = section sym
     ∧ st_value (struct (mk_dyn sym st).2) = c_uint32 (st_value (struct sym))
     ∧ st_size (struct (mk_dyn sym st).2) = c_uint32 (st_size (struct sym))
     ∧ st_info (struct (mk_dyn sym st).2) = c_ubyte (st_info (struct sym))
     ∧ st_other (struct (mk_dyn sym st).2) = c_ubyte (st_other (struct sym))
     ∧ st_shndx (struct (mk_dyn sym st).2)
       = match section sym with
         | Some _ => c_uint16 (st_shndx (struct sym))
         | None => elf32.SHN_UNDEF
         end)
  ∧ (∀ d, dyn st !! ident sym = Some d → mk_dyn sym st = (st, d)).
Proof.
  split; [|split].
  - pose proof (mk_dyn_memo sym st) as Hm.
    destruct (mk_dyn sym st) as [st1 d] eqn:E. cbn [fst snd] in *.
    unfold mk_dyn at 1. by rewrite Hm.
  - intros Hn. unfold mk_dyn. rewrite Hn. cbn.
    repeat split. by destruct (section sym).
  - intros d Hd. unfold mk_dyn. by rewrite Hd.
Qed.

(** ** [decode_addend] *)

Lemma land_pow2 v k : 0 ≤ k → Z.land v (2 ^ k) = (v / 2 ^ k) mod 2 * 2 ^ k.
Proof.
  intros Hk. apply Z.bits_inj'. intros n Hn.
  rewrite Z.land_spec, Z.pow2_bits_eqb by done.
  rewrite <- Z.testbit_spec' by done.
  destruct (Z.eqb_spec k n) as [->|Hne].
  - rewrite andb_true_r. rewrite Z.mul_pow2_bits by done.
    replace (n - n) with 0 by lia. by destruct (Z.testbit v n).
  - rewrite andb_false_r. symmetry.
    destruct (Z.testbit v k); cbn [Z.b2z].
    + rewrite Z.mul_1_l. rewrite Z.pow2_bits_eqb by done.
      by apply Z.eqb_neq.
    + apply Z.bits_0.
Qed.

Lemma land_mask_shift v k s :
  0 ≤ k → 0 ≤ s →
  Z.shiftr (Z.land v (Z.shiftl (Z.ones k) s)) s = (v / 2 ^ s) mod 2 ^ k.
Proof.
  intros Hk Hs. rewrite Z.shiftr_land. rewrite Z.shiftr_shiftl_l by done.
  replace (s - s) with 0 by lia. rewrite Z.shiftl_0_r.
  rewrite Z.land_ones by done. by rewrite Z.shiftr_div_pow2.
Qed.

(** The 22-bit immediate of a Thumb BL/B.W pair as the code extracts it. *)
Definition thm_imm22 (insn : Z) : Z :=
  (insn mod 2 ^ 11) * 2 ^ 11 + (insn / 2 ^ 16) mod 2 ^ 11.

Lemma thm_imm22_range insn : 0 ≤ thm_imm22 insn < 2 ^ 22.
Proof.
  unfold thm_imm22.
  pose proof (Z.mod_pos_bound insn (2 ^ 11) ltac:(lia)).
  pose proof (Z.mod_pos_bound (insn / 2 ^ 16) (2 ^ 11) ltac:(lia)). lia.
Qed.

(** For the two Thumb branch types [decode_addend] returns twice the
    sign-extended 22-bit immediate held in bits 0-10 and 16-26 of the
    word: an even number in [-2^22, 2^22). *)
Theorem decode_addend_thm r_type insn :
  is_thm r_type = true →
  ∃ a, decode_addend r_type insn = Ok a
       ∧ a = 2 * (if thm_imm22 insn <? 2 ^ 21 then thm_imm22 insn
                  else thm_imm22 insn - 2 ^ 22)
       ∧ - 2 ^ 22 ≤ a < 2 ^ 22
       ∧ a mod 2 = 0.
Proof.
  intros Ht. unfold decode_addend.
  assert (is_abs r_type = false) as ->.
  { unfold is_thm, is_abs in *. apply orb_true_iff in Ht.
    destruct Ht as [H|H]; apply Z.eqb_eq in H; by rewrite H. }
  assert ((r_type =? elf32.R_ARM_PREL31) = false) as ->.
  { unfold is_thm in Ht. apply orb_true_iff in Ht.
    destruct Ht as [H|H]; apply Z.eqb_eq in H; by rewrite H. }
  rewrite Ht.
  assert (Z.lor (Z.shiftl (Z.land insn 0x7FF) 11) (Z.shiftr (Z.land insn 0x7FF0000) 16)
          = thm_imm22 insn) as ->.
  { change 0x7FF0000 with (Z.shiftl (Z.ones 11) 16).
    rewrite land_mask_shift by lia.
    change 0x7FF with (Z.ones 11). rewrite Z.land_ones by lia.
    rewrite lor_shiftl_low; [done|lia|]. apply Z.mod_pos_bound. lia. }
  pose proof (thm_imm22_range insn) as Hr.
  set (v := thm_imm22 insn) in *.
  change 0x200000 with (2 ^ 21). rewrite land_pow2 by lia.
  change 0x400000 with (2 ^ 22).
  eexists. split; [reflexivity|].
  assert ((v <? 2 ^ 21) = ((v / 2 ^ 21) mod 2 * 2 ^ 21 =? 0)) as Hb.
  { destruct (v <? 2 ^ 21) eqn:E; symmetry.
    - apply Z.ltb_lt in E. apply Z.eqb_eq. rewrite Z.div_small by lia. done.
    - apply Z.ltb_ge in E. apply Z.eqb_neq.
      assert (v / 2 ^ 21 = 1) as ->; [|done].
      symmetry. apply (Z.div_unique v (2 ^ 21) 1 (v - 2 ^ 21)); lia. }
  rewrite <- Hb. destruct (v <? 2 ^ 21) eqn:E; cbn [negb].
  - apply Z.ltb_lt in E. split; [lia|]. split; [lia|]. apply Z.mod_mul. lia.
  - apply Z.ltb_ge in E. split; [lia|]. split; [lia|]. apply Z.mod_mul. lia.
Qed.

Lemma decode_addend_thm_witness :
  ∃ a, decode_addend elf32.R_ARM_THM_PC22 0xFFFEF7FF = Ok a
       ∧ a = 2 * (if thm_imm22 0xFFFEF7FF <? 2 ^ 21 then thm_imm22 0xFFFEF7FF
                  else thm_imm22 0xFFFEF7FF - 2 ^ 22)
       ∧ - 2 ^ 22 ≤ a < 2 ^ 22
       ∧ a mod 2 = 0.
Proof. apply (decode_addend_thm elf32.R_ARM_THM_PC22 0xFFFEF7FF). reflexivity. Defined.

(** For [R_ARM_PREL31] the addend is the low 31 bits of the word read as a
    signed number: it lies in [-2^30, 2^30) and differs from the word by a
    multiple of 2^31. *)
Theorem decode_addend_prel31 insn :
  ∃ a, decode_addend elf32.R_ARM_PREL31 insn = Ok a
       ∧ - 2 ^ 30 ≤ a < 2 ^ 30
       ∧ (a - insn) mod 2 ^ 31 = 0.
Proof.
  unfold decode_addend. change (is_abs elf32.R_ARM_PREL31) with false.
  change (elf32.R_ARM_PREL31 =? elf32.R_ARM_PREL31) with true. cbv iota.
  change 0x7FFFFFFF with (Z.ones 31). rewrite Z.land_ones by lia.
  change 0x40000000 with (2 ^ 30). rewrite land_pow2 by lia.
  change 0x80000000 with (2 ^ 31).
  pose proof (Z.mod_pos_bound insn (2 ^ 31) ltac:(lia)) as Hr.
  set (v := insn mod 2 ^ 31) in *.
  eexists. split; [reflexivity|].
  assert ((v - insn) mod 2 ^ 31 = 0) as Hc.
  { subst v. rewrite Zminus_mod_idemp_l. rewrite Z.sub_diag. done. }
  destruct (Z.ltb_spec v (2 ^ 30)) as [E|E].
  - rewrite Z.div_small by lia. cbn [negb]. change (0 mod 2 * 2 ^ 30 =? 0) with true.
    cbn [negb]. split; [lia|done].
  - assert (v / 2 ^ 30 = 1) as ->.
    { symmetry. apply (Z.div_unique v (2 ^ 30) 1 (v - 2 ^ 30)); lia. }
    change (1 mod 2 * 2 ^ 30 =? 0) with false. cbn [negb]. split; [lia|].
    replace (v - 2 ^ 31 - insn) with ((v - insn) + (-1) * 2 ^ 31) by lia.
    rewrite Z.mod_add by lia. done.
Qed.

End mkextmod_functions.


Section mkextmod_errors.
Import mkextmod.

(** ** The relocation loop: what it refuses *)

(** A relocation against a defined symbol whose type is none of ABS32,
    TARGET1, THM_PC22, THM_JUMP24 and PREL31 stops the run: the loop body
    raises [ValueError] (or [AttributeError] while it builds the message,
    when the symbol is a section symbol without section).  Nothing is
    appended. *)
Theorem convert_unsupported_type sec target st rel :
  st_shndx (struct (rel_symbol rel)) ≠ elf32.STN_UNDEF →
  is_abs (Rel.r_type (rel_struct rel)) = false →
  is_thm (Rel.r_type (rel_struct rel)) = false →
  Rel.r_type (rel_struct rel) ≠ elf32.R_ARM_PREL31 →
  convert sec target st rel
  = Raise (match section (rel_symbol rel) with
           | None => if st_type (struct (rel_symbol rel)) =? STT_SECTION
                     then AttributeError else ValueError
           | Some _ => ValueError
           end).
Proof.
  intros Hs Ha Ht Hp. unfold convert.
  apply Z.eqb_neq in Hs, Hp. rewrite Hs, Ha, Ht, Hp. cbn.
  destruct (section (rel_symbol rel)); [done|].
  by destruct (st_type (struct (rel_symbol rel)) =? STT_SECTION).
Qed.

Definition got_rel : Relocation :=
  mkRelocation scenario2_target (Rel.mk 0x10000000 (elf32.R_INFO 1 26)).

Lemma convert_unsupported_type_witness :
  convert scenario2_reltab scenario2_text init got_rel = Raise ValueError.
Proof.
  apply (convert_unsupported_type scenario2_reltab scenario2_text init got_rel);
    vm_compute; congruence.
Defined.

(** A Thumb call or jump whose target lies in another 256 MiB region than
    the call site needs a symbol named [__<name>_veneer] in the linked symbol
    table; without one the loop body raises [ValueError]. *)
Theorem convert_missing_veneer sec target st rel symbols :
  st_shndx (struct (rel_symbol rel)) ≠ elf32.STN_UNDEF →
  is_thm (Rel.r_type (rel_struct rel)) = true →
  Z.shiftr (st_value (struct (rel_symbol rel))) 28
    ≠ Z.shiftr (Rel.r_offset (rel_struct rel)) 28 →
  link_symbols sec = Some symbols →
  Forall (fun x => name x ≠ Some (veneer_name (rel_symbol rel))) symbols →
  convert sec target st rel = Raise ValueError.
Proof.
  intros Hs Ht Hn Hl Hv. unfold convert.
  apply Z.eqb_neq in Hs, Hn. rewrite Hs, Ht, Hn, Hl. cbn [andb negb].
  assert (filter (fun x => name x = Some (veneer_name (rel_symbol rel))) symbols = [])
    as ->; [|done].
  clear Hl. induction Hv as [|x l Hx _ IH]; [done|].
  rewrite filter_cons_False by done. exact IH.
Qed.

Definition far_target : Symbol :=
  mkSymbol (Loaded 1) (Some (lit "target")) (Some scenario2_text)
    (mkSym 1 0x20001001 0 0x12 0 1).

Definition far_call : Relocation :=
  mkRelocation far_target (Rel.mk 0x10000000 (elf32.R_INFO 1 elf32.R_ARM_THM_PC22)).

Lemma convert_missing_veneer_witness :
  convert (mkRelIn (Some scenario2_text) (Some [far_target]) [far_call])
    scenario2_text init far_call = Raise ValueError.
Proof.
  apply (convert_missing_veneer _ scenario2_text init far_call [far_target]);
    try (vm_compute; congruence).
  repeat constructor. vm_compute. congruence.
Defined.

(** ** [get_first_symbol] *)

(** [get_first_symbol] returns the earliest symbol of the list with the
    given name, and [None] exactly when no symbol has it. *)
Theorem get_first_symbol_spec symbols n :
  match get_first_symbol symbols n with
  | Some s =>
    ∃ pre post, symbols = pre ++ s :: post ∧ name s = Some n
                ∧ Forall (fun x => name x ≠ Some n) pre
  | None => Forall (fun x => name x ≠ Some n) symbols
  end.
Proof.
  unfold get_first_symbol, get_all_symbols.
  induction symbols as [|x l IH]; [by constructor|].
  destruct (decide (name x = Some n)) as [Hx|Hx].
  - rewrite filter_cons_True by done. cbn. by exists [], l.
  - rewrite filter_cons_False by done.
    destruct (head (filter _ l)) as [s|].
    + destruct IH as (pre & post & -> & Hs & Hpre).
      exists (x :: pre), post. split; [done|]. split; [done|]. by constructor.
    + by constructor.
Qed.

End mkextmod_errors.

(** ** The footer of the module *)

Lemma le_bytes_length n x : length (le_bytes n x) = n.
Proof. revert x. induction n as [|n IH]; intros x; cbn; [done|]. by rewrite IH. Qed.

Lemma from_bytes_le_bytes n x :
  from_bytes_little (le_bytes n x) = x mod 256 ^ Z.of_nat n.
Proof.
  revert x. induction n as [|n IH]; intros x.
  - cbn. by rewrite Z.mod_1_r.
  - cbn [le_bytes from_bytes_little]. rewrite IH.
    rewrite Nat2Z.inj_succ, Z.pow_succ_r by lia.
    pose proof (Z.pow_pos_nonneg 256 (Z.of_nat n) ltac:(lia) ltac:(lia)) as Hp.
    rewrite (Z.mul_comm 256), Z.rem_mul_r by lia. lia.
Qed.

(** For a 32-bit address the footer has 8 bytes: the first word reads back
    as the address and the second as its complement, so the two words add
    up to [0xFFFFFFFF].  An address outside 32 bits makes [to_bytes] raise. *)
Theorem footer_data_words phdr_addr :
  0 ≤ phdr_addr < 2 ^ 32 →
  ∃ bs, footer_data phdr_addr = Some bs
        ∧ len bs = 8
        ∧ from_bytes_little (take 4 bs) = phdr_addr
        ∧ from_bytes_little (drop 4 bs) = 0xFFFFFFFF - phdr_addr.
Proof.
  intros Ha. unfold footer_data, to_bytes_little.
  change (256 ^ Z.of_nat 4) with (2 ^ 32).
  assert (Z.land (Z.lnot phdr_addr) 0xFFFFFFFF = 0xFFFFFFFF - phdr_addr) as ->.
  { change (Z.land (Z.lnot phdr_addr) (Z.ones 32) = 2 ^ 32 - 1 - phdr_addr).
    rewrite Z.land_ones by lia. unfold Z.lnot.
    replace (Z.pred (- phdr_addr)) with (2 ^ 32 - 1 - phdr_addr + (-1) * 2 ^ 32) by lia.
    rewrite Z.mod_add by lia. apply Z.mod_small. lia. }
  destruct (Z.ltb_spec phdr_addr 0); [lia|].
  destruct (Z.leb_spec (2 ^ 32) phdr_addr); [lia|].
  destruct (Z.ltb_spec (0xFFFFFFFF - phdr_addr) 0); [lia|].
  destruct (Z.leb_spec (2 ^ 32) (0xFFFFFFFF - phdr_addr)); [lia|].
  cbn [orb mbind option_bind]. eexists. split; [reflexivity|].
  split.
  - unfold len. rewrite length_app, !le_bytes_length. done.
  - rewrite take_app_length' by (by rewrite le_bytes_length).
    rewrite drop_app_length' by (by rewrite le_bytes_length).
    rewrite !from_bytes_le_bytes. change (256 ^ Z.of_nat 4) with (2 ^ 32).
    rewrite !Z.mod_small by lia. done.
Qed.

Lemma footer_data_words_witness :
  ∃ bs, footer_data 0x10000040 = Some bs
        ∧ len bs = 8
        ∧ from_bytes_little (take 4 bs) = 0x10000040
        ∧ from_bytes_little (drop 4 bs) = 0xFFFFFFFF - 0x10000040.
Proof. apply (footer_data_words 0x10000040). lia. Defined.


(** ** [PurgeDeleted] only removes *)

Section purge_shrinks.
Import PurgeDeleted.
Context (refs : Refs).

(** From [s] to [s'] nodes were only marked deleted and lists only lost
    elements, the rest staying in order. *)
Record shrinks (s s' : State) : Prop := mkShrinks {
  shrinks_deleted : deleted_nodes s ⊆ deleted_nodes s';
  shrinks_sections : elf_sections s' `sublist_of` elf_sections s;
  shrinks_segments : elf_segments s' `sublist_of` elf_segments s;
  shrinks_entries : ∀ n, entries_of s' n `sublist_of` entries_of s n;
  shrinks_members : ∀ p, members_of s' p `sublist_of` members_of s p
}.

Lemma shrinks_refl s : shrinks s s.
Proof. by constructor. Qed.

Lemma shrinks_trans a b c : shrinks a b → shrinks b c → shrinks a c.
Proof.
  intros [A1 A2 A3 A4 A5] [B1 B2 B3 B4 B5]. constructor.
  - by transitivity (deleted_nodes b).
  - by transitivity (elf_sections b).
  - by transitivity (elf_segments b).
  - intros n. by transitivity (entries_of b n).
  - intros p. by transitivity (members_of b p).
Qed.

Lemma node_delete_members x s : seg_members (node_delete refs x s) = seg_members s.
Proof.
  destruct x as [k n]. unfold node_delete.
  destruct k; try done. by destruct (entry_kind (sec_cls refs n)).
Qed.

Lemma shrinks_delete x s : shrinks s (delete refs x s).
Proof.
  destruct (node_delete_deleted refs x s) as [Hsub _].
  destruct (node_delete_fields refs x s) as (Hs & Hg & He).
  pose proof (node_delete_members x s) as Hm.
  unfold delete. constructor; cbn [set_again deleted_nodes elf_sections elf_segments].
  - done.
  - by rewrite Hs.
  - by rewrite Hg.
  - intros n. unfold entries_of. cbn [sec_entries set_again]. by rewrite He.
  - intros p. unfold members_of. cbn [seg_members set_again]. by rewrite Hm.
Qed.

Lemma shrinks_visit_entry ek e s : shrinks s (visit_entry refs ek e s).
Proof.
  destruct ek; cbn [visit_entry]; try apply shrinks_refl.
  - unfold visit_Symbol. destruct (ref_deleted _ _ _);
      [apply shrinks_delete|apply shrinks_refl].
  - unfold visit_Relocation. destruct (ref_deleted _ _ _);
      [apply shrinks_delete|apply shrinks_refl].
Qed.

Lemma shrinks_visit_Section n s : shrinks s (visit_Section refs n s).
Proof.
  unfold visit_Section. destruct (_ || _); [apply shrinks_delete|apply shrinks_refl].
Qed.

Lemma shrinks_visit_nodes k f l :
  (∀ n s, shrinks s (f n s)) → ∀ st, shrinks st (visit_nodes k f l st).
Proof.
  intros Hf. unfold visit_nodes. induction l as [|a l IH]; intros st; cbn [foldl].
  - apply shrinks_refl.
  - eapply shrinks_trans; [|apply IH].
    destruct (is_deleted st (k, a)); [apply shrinks_refl|apply Hf].
Qed.

Lemma live_sublist s k l : live s k l `sublist_of` l.
Proof. unfold live. apply sublist_filter. Qed.

Lemma shrinks_set_entries n k s :
  shrinks s (set_entries n (live s k (entries_of s n)) s).
Proof.
  constructor; try done. intros m. rewrite entries_of_set_entries.
  destruct (decide (m = n)) as [->|]; [apply live_sublist|done].
Qed.

Lemma shrinks_set_members p s :
  shrinks s (set_members p (live s KSection (members_of s p)) s).
Proof.
  constructor; try done. intros q. rewrite members_of_set_members.
  destruct (decide (q = p)) as [->|]; [apply live_sublist|done].
Qed.

Lemma shrinks_visit_EntrySection ek n s : shrinks s (visit_EntrySection refs ek n s).
Proof.
  unfold visit_EntrySection.
  eapply shrinks_trans; [apply shrinks_visit_Section|].
  eapply shrinks_trans; [apply shrinks_visit_nodes; intros; apply shrinks_visit_entry|].
  apply shrinks_set_entries.
Qed.

Lemma shrinks_visit_section_node n s : shrinks s (visit_section_node refs n s).
Proof.
  unfold visit_section_node.
  destruct (sec_cls refs n); cbn [entry_kind];
    first [apply shrinks_refl|apply shrinks_visit_EntrySection|apply shrinks_visit_Section].
Qed.

Lemma shrinks_visit_Segment p s : shrinks s (visit_Segment refs p s).
Proof.
  unfold visit_Segment.
  destruct (members_of _ p); [|apply shrinks_set_members].
  eapply shrinks_trans; [apply shrinks_set_members|apply shrinks_delete].
Qed.

Lemma shrinks_round s : shrinks s (round refs s).
Proof.
  unfold round.
  set (s0 := set_again false s).
  set (s1 := visit_nodes KSection (visit_section_node refs) (elf_sections s0) s0).
  set (s2 := visit_nodes KSegment (visit_Segment refs) (elf_segments s1) s1).
  assert (shrinks s s2) as [A1 A2 A3 A4 A5].
  { apply (shrinks_trans _ s0); [by constructor|].
    apply (shrinks_trans _ s1).
    - apply shrinks_visit_nodes. intros. apply shrinks_visit_section_node.
    - apply shrinks_visit_nodes. intros. apply shrinks_visit_Segment. }
  constructor; cbn [deleted_nodes elf_sections elf_segments]; try done.
  - etransitivity; [apply live_sublist|done].
  - etransitivity; [apply live_sublist|done].
Qed.

Lemma shrinks_loop fuel : ∀ s s', loop refs fuel s = Some s' → shrinks s s'.
Proof.
  induction fuel as [|f IH]; intros s s' H; [done|].
  cbn [loop] in H. pose proof (shrinks_round s) as Hr.
  destruct (again (round refs s)).
  - eapply shrinks_trans; [exact Hr|by apply IH].
  - by injection H as <-.
Qed.

(** The pass never undeletes a node, never adds a node to a list and
    never reorders one: the sections and segments of the [Elf], the entries
    of every section and the members of every segment are what they were
    with some elements removed. *)
Theorem purge_only_removes st st' :
  visit_Elf refs st = Some st' →
  deleted_nodes st ⊆ deleted_nodes st'
  ∧ elf_sections st' `sublist_of` elf_sections st
  ∧ elf_segments st' `sublist_of` elf_segments st
  ∧ (∀ n, entries_of st' n `sublist_of` entries_of st n)
  ∧ (∀ p, members_of st' p `sublist_of` members_of st p).
Proof.
  intros H. apply shrinks_loop in H as [A1 A2 A3 A4 A5]. done.
Qed.

End purge_shrinks.

Lemma purge_only_removes_witness :
  ∃ st', PurgeDeleted.visit_Elf cascade_refs cascade_graph = Some st'
  ∧ PurgeDeleted.deleted_nodes cascade_graph ⊆ PurgeDeleted.deleted_nodes st'
  ∧ PurgeDeleted.elf_sections st' `sublist_of` PurgeDeleted.elf_sections cascade_graph
  ∧ PurgeDeleted.elf_segments st' `sublist_of` PurgeDeleted.elf_segments cascade_graph
  ∧ (∀ n, PurgeDeleted.entries_of st' n `sublist_of` PurgeDeleted.entries_of cascade_graph n)
  ∧ (∀ p, PurgeDeleted.members_of st' p `sublist_of` PurgeDeleted.members_of cascade_graph p).
Proof.
  eexists. split; [vm_compute; reflexivity|].
  apply (purge_only_removes cascade_refs cascade_graph). vm_compute. reflexivity.
Defined.


(** ** [PurgeDeleted] run twice *)

Section purge_settled.
Import PurgeDeleted.
Context (refs : Refs).

(** The two states show the same graph. *)
Record same_graph (s s' : State) : Prop := mkSameGraph {
  same_deleted : deleted_nodes s' = deleted_nodes s;
  same_sections : elf_sections s' = elf_sections s;
  same_segments : elf_segments s' = elf_segments s;
  same_entries : ∀ n, entries_of s' n = entries_of s n;
  same_members : ∀ p, members_of s' p = members_of s p;
  same_again : again s' = again s
}.

Lemma same_graph_refl s : same_graph s s.
Proof. by constructor. Qed.

Lemma same_graph_trans a b c : same_graph a b → same_graph b c → same_graph a c.
Proof.
  intros [A1 A2 A3 A4 A5 A6] [B1 B2 B3 B4 B5 B6]. constructor; congruence.
Qed.

(** What a section and a segment need for their visit to change nothing. *)
Definition settled_section (s : State) (n : nat) : Prop :=
  (pseudo_class (sec_cls refs n) = false →
   ref_deleted s KSection (sec_link refs n) = false
   ∧ ref_deleted s KSection (sec_info refs n) = false)
  ∧ (∀ ek e, entry_kind (sec_cls refs n) = Some ek → e ∈ entries_of s n →
       is_deleted s (ek, e) = false ∧ entry_ok refs s ek e).

Definition settled_segment (s : State) (p : nat) : Prop :=
  members_of s p ≠ [] ∧ ∀ m, m ∈ members_of s p → is_deleted s (KSection, m) = false.

Lemma settled_section_same s s' n :
  same_graph s s' → settled_section s n → settled_section s' n.
Proof.
  intros [D _ _ E _ _] [H1 H2]. split.
  - intros Hp. rewrite !(ref_deleted_ext s s') by done. auto.
  - intros ek e Hek He. rewrite E in He. destruct (H2 ek e Hek He) as [Hd Ho].
    split; [by rewrite (is_deleted_ext s s')|].
    destruct ek; cbn in *; try done; by rewrite (ref_deleted_ext s s').
Qed.

Lemma settled_segment_same s s' p :
  same_graph s s' → settled_segment s p → settled_segment s' p.
Proof.
  intros [D _ _ _ M _] [H1 H2]. split; [by rewrite M|].
  intros m Hm. rewrite M in Hm. rewrite (is_deleted_ext s s') by done. auto.
Qed.

Lemma visit_entry_settled ek e s : entry_ok refs s ek e → visit_entry refs ek e s = s.
Proof.
  destruct ek; cbn; try done.
  - unfold visit_Symbol. by intros ->.
  - unfold visit_Relocation. by intros ->.
Qed.

Lemma visit_entries_settled ek l s :
  (∀ e, e ∈ l → entry_ok refs s ek e) →
  visit_nodes ek (visit_entry refs ek) l s = s.
Proof.
  unfold visit_nodes. induction l as [|e l IH]; intros H; cbn [foldl]; [done|].
  rewrite visit_entry_settled by (apply H; left).
  destruct (is_deleted s (ek, e)); apply IH; intros x Hx; apply H; by right.
Qed.

Lemma visit_Section_settled n s :
  ref_deleted s KSection (sec_link refs n) = false →
  ref_deleted s KSection (sec_info refs n) = false →
  visit_Section refs n s = s.
Proof. intros H1 H2. unfold visit_Section. by rewrite H1, H2. Qed.

Lemma visit_section_node_settled n s :
  settled_section s n → same_graph s (visit_section_node refs n s).
Proof.
  intros [H1 H2]. unfold visit_section_node.
  destruct (sec_cls refs n) eqn:Ec; cbn [entry_kind pseudo_class] in *;
    try apply same_graph_refl;
    destruct (H1 eq_refl) as [Hl Hi];
    try (rewrite visit_Section_settled by done; apply same_graph_refl).
  all: unfold visit_EntrySection; rewrite visit_Section_settled by done.
  all: rewrite visit_entries_settled by (intros e He; by apply (H2 _ e eq_refl)).
  all: constructor; try done; intros m; rewrite entries_of_set_entries.
  all: destruct (decide (m = n)) as [->|]; [|done].
  all: apply live_all; intros e He; by apply (H2 _ e eq_refl).
Qed.

Lemma visit_Segment_settled p s :
  settled_segment s p → same_graph s (visit_Segment refs p s).
Proof.
  intros [H1 H2]. unfold visit_Segment.
  rewrite (live_all s KSection (members_of s p)) by done.
  rewrite members_of_set_members. destruct (decide (p = p)); [|done].
  destruct (members_of s p) as [|m ms] eqn:E; [done|].
  constructor; try done. intros q. rewrite members_of_set_members.
  by destruct (decide (q = p)) as [->|].
Qed.

Lemma visit_nodes_settled k f (P : State → nat → Prop) l :
  (∀ s s' n, same_graph s s' → P s n → P s' n) →
  (∀ n s, P s n → same_graph s (f n s)) →
  ∀ st, (∀ n, n ∈ l → P st n) → same_graph st (visit_nodes k f l st).
Proof.
  intros Hsame Hf. unfold visit_nodes.
  induction l as [|a l IH]; intros st HP; cbn [foldl]; [apply same_graph_refl|].
  set (s1 := if is_deleted st (k, a) then st else f a st).
  assert (same_graph st s1) as H1.
  { subst s1. destruct (is_deleted st (k, a)); [apply same_graph_refl|].
    apply Hf, HP. left. }
  apply (same_graph_trans _ s1); [done|]. apply IH.
  intros n Hn. apply (Hsame st); [done|]. apply HP. by right.
Qed.

(** On a graph the pass has left, one more round changes nothing. *)
Lemma round_settled st :
  purged refs st → again st = false →
  same_graph st (round refs st) .
Proof.
  intros [P1 P2 P3 P4 P5 P6 P7 P8 P9] Hag. unfold round.
  set (s0 := set_again false st).
  set (s1 := visit_nodes KSection (visit_section_node refs) (elf_sections s0) s0).
  set (s2 := visit_nodes KSegment (visit_Segment refs) (elf_segments s1) s1).
  assert (same_graph st s0) as H0 by (by constructor).
  assert (same_graph s0 s1) as H01.
  { apply (visit_nodes_settled KSection _ settled_section).
    - intros s s' n. apply settled_section_same.
    - intros n s. apply visit_section_node_settled.
    - intros n Hn. apply (settled_section_same st); [done|].
      change (elf_sections s0) with (elf_sections st) in Hn. split.
      + intros Hp. split; [by apply P5|by apply P6].
      + intros ek e Hek He. split; [by apply (P3 n)|].
        destruct ek; cbn; try done; [by apply (P7 n)|by apply (P8 n)]. }
  assert (same_graph st s1) as H1 by (by apply (same_graph_trans _ s0)).
  assert (same_graph s1 s2) as H12.
  { apply (visit_nodes_settled KSegment _ settled_segment).
    - intros s s' n. apply settled_segment_same.
    - intros p s. apply visit_Segment_settled.
    - intros p Hp. apply (settled_segment_same st); [done|].
      rewrite (same_segments _ _ H1) in Hp. split; [by apply P9|].
      intros m Hm. by apply (P4 p). }
  assert (same_graph st s2) as [A1 A2 A3 A4 A5 A6] by (by apply (same_graph_trans _ s1)).
  constructor; cbn [deleted_nodes elf_sections elf_segments again]; try done.
  - rewrite A2. apply live_all. intros n Hn.
    rewrite (is_deleted_ext st s2) by done. by apply P1.
  - rewrite A3. apply live_all. intros p Hp.
    rewrite (is_deleted_ext st s2) by done. by apply P2.
Qed.

(** Running the pass on its own result returns at once, with the same
    graph: the same deleted nodes, lists, entries and members. *)
Theorem purge_idempotent st st' :
  visit_Elf refs st = Some st' →
  ∃ st'', visit_Elf refs st' = Some st''
          ∧ deleted_nodes st'' = deleted_nodes st'
          ∧ elf_sections st'' = elf_sections st'
          ∧ elf_segments st'' = elf_segments st'
          ∧ (∀ n, entries_of st'' n = entries_of st' n)
          ∧ (∀ p, members_of st'' p = members_of st' p).
Proof.
  intros H. pose proof (visit_Elf_purged refs st st' H) as Hp.
  apply loop_Some in H as (s & Hs & Hag).
  destruct (round_settled st' Hp Hag) as [A1 A2 A3 A4 A5 A6].
  exists (round refs st'). split; [|done].
  unfold visit_Elf, rounds. cbn [loop]. by rewrite A6, Hag.
Qed.

End purge_settled.

Lemma purge_idempotent_witness :
  ∃ st' st'',
    PurgeDeleted.visit_Elf cascade_refs cascade_graph = Some st'
    ∧ PurgeDeleted.visit_Elf cascade_refs st' = Some st''
    ∧ PurgeDeleted.deleted_nodes st'' = PurgeDeleted.deleted_nodes st'
    ∧ PurgeDeleted.elf_sections st'' = PurgeDeleted.elf_sections st'
    ∧ PurgeDeleted.elf_segments st'' = PurgeDeleted.elf_segments st'
    ∧ (∀ n, PurgeDeleted.entries_of st'' n = PurgeDeleted.entries_of st' n)
    ∧ (∀ p, PurgeDeleted.members_of st'' p = PurgeDeleted.members_of st' p).
Proof.
  assert (∃ st', PurgeDeleted.visit_Elf cascade_refs cascade_graph = Some st')
    as [st' H1] by (eexists; vm_compute; reflexivity).
  destruct (purge_idempotent cascade_refs cascade_graph st' H1) as (st'' & H & Hrest).
  exists st', st''. split; [exact H1|]. split; [exact H|exact Hrest].
Defined.


(** ** [IndexNodes] *)

(** The sort *)

Section sort_facts.
Context {A : Type} (key : A → Z).

Definition key_le (x y : A) : Prop := key x ≤ key y.

Lemma insert_perm x l : IndexNodes.insert key x l ≡ₚ x :: l.
Proof.
  induction l as [|y l IH]; cbn; [done|].
  destruct (key x <=? key y); [done|]. rewrite IH. apply Permutation_swap.
Qed.

Lemma sort_perm l : IndexNodes.sort key l ≡ₚ l.
Proof.
  induction l as [|x l IH]; cbn; [done|]. by rewrite insert_perm, IH.
Qed.

Lemma insert_sorted x l :
  StronglySorted key_le l → StronglySorted key_le (IndexNodes.insert key x l).
Proof.
  induction 1 as [|y l Hs IH Hf]; cbn.
  - constructor; [constructor|constructor].
  - destruct (Z.leb_spec (key x) (key y)) as [Hle|Hgt].
    + constructor; [by constructor|]. constructor; [done|].
      eapply Forall_impl; [exact Hf|]. intros z Hz. unfold key_le in *. lia.
    + constructor; [done|]. rewrite insert_perm. constructor; [|done].
      unfold key_le. lia.
Qed.

Lemma sort_sorted l : StronglySorted key_le (IndexNodes.sort key l).
Proof.
  induction l as [|x l IH]; cbn; [constructor|]. by apply insert_sorted.
Qed.

(** Stability: the elements that satisfy a predicate on the key keep their
    order. *)
Lemma insert_filter (P : A → Prop) `{∀ x, Decision (P x)} x l :
  (∀ y, y ∈ l → P y → P x → key x ≤ key y) →
  filter P (IndexNodes.insert key x l) = filter P (x :: l).
Proof.
  induction l as [|y l IH]; intros Hle; cbn [IndexNodes.insert]; [done|].
  destruct (Z.leb_spec (key x) (key y)) as [Hxy|Hxy]; [done|].
  rewrite filter_cons. rewrite IH by (intros z Hz; apply Hle; by right).
  rewrite (filter_cons _ x (y :: l)), (filter_cons _ y l), (filter_cons _ x l).
  destruct (decide (P y)) as [Hy|Hy]; [|done].
  destruct (decide (P x)) as [Hx|Hx]; [|done].
  specialize (Hle y ltac:(left) Hy Hx). lia.
Qed.

Lemma sort_stable (v : Z) l :
  filter (fun x => key x = v) (IndexNodes.sort key l) = filter (fun x => key x = v) l.
Proof.
  induction l as [|x l IH]; [done|]. cbn [IndexNodes.sort foldr].
  rewrite insert_filter.
  - rewrite !filter_cons. fold (IndexNodes.sort key l). by rewrite IH.
  - intros y _ Hy Hx. lia.
Qed.

Lemma sort_head x l :
  Forall (fun y => key x ≤ key y) l →
  IndexNodes.sort key (x :: l) = x :: IndexNodes.sort key l.
Proof.
  intros Hl. cbn [IndexNodes.sort foldr]. fold (IndexNodes.sort key l).
  assert (Forall (fun y => key x ≤ key y) (IndexNodes.sort key l)) as Hs
    by (by rewrite sort_perm).
  destruct (IndexNodes.sort key l) as [|y r]; [done|]. cbn.
  apply Forall_cons in Hs as [Hy _].
  by destruct (Z.leb_spec (key x) (key y)); [|lia].
Qed.

End sort_facts.


Lemma strongly_sorted_lookup {A} (R : A → A → Prop) (l : list A) i j x y :
  StronglySorted R l → l !! i = Some x → l !! j = Some y → (i < j)%nat → R x y.
Proof.
  intros Hs Hi Hj Hlt. rewrite <- (take_drop j l) in Hs.
  apply StronglySorted_app_iff in Hs as (Hs & _ & _). apply Hs.
  - apply list_elem_of_lookup. exists i. by rewrite lookup_take_lt.
  - apply list_elem_of_lookup. exists 0%nat. rewrite lookup_drop.
    by rewrite Nat.add_0_r.
Qed.

Lemma filter_split_perm {A} (P : A → Prop) `{∀ x, Decision (P x)} (l : list A) :
  filter P l ++ filter (fun x => ¬ P x) l ≡ₚ l.
Proof.
  induction l as [|x l IH]; [done|].
  rewrite !filter_cons. destruct (decide (P x)) as [Hx|Hx].
  - rewrite decide_False by tauto. cbn. by rewrite IH.
  - rewrite decide_True by done. rewrite <- Permutation_middle. by rewrite IH.
Qed.

Section index_symbols.
Import IndexNodes.

(** The symbol with its [index] attribute set. *)
Definition numbered_as (c : Z) (st : Symbol) : Symbol :=
  mkSymbol (sym_deleted st) (st_info st) (st_value st) (Some c).

Lemma visit_symbols_lookup l : ∀ c i,
  Forall (fun st => sym_deleted st = false) l →
  visit_symbols c l !! i = numbered_as (c + Z.of_nat i) <$> l !! i.
Proof.
  induction l as [|st l IH]; intros c i Hl; [done|].
  apply Forall_cons in Hl as [Hst Hl]. cbn [visit_symbols]. rewrite Hst.
  destruct i as [|i]; cbn.
  - unfold numbered_as. by rewrite Hst, Z.add_0_r.
  - rewrite IH by done. replace (c + 1 + Z.of_nat i) with (c + Z.of_nat (S i)) by lia.
    done.
Qed.

Definition is_local (st : Symbol) : Prop := st_bind st = elf32.STB_LOCAL.

(** The symbols of a table after the pass, when none is deleted: they are
    the symbols it had (as far as [st_info] and [st_value] go), the local
    ones first; [sh_info] is the number of local symbols, which is the index
    of the first non-local one; each of the two groups is in ascending
    [st_value] order; and every symbol's [index] is its position. *)
Theorem index_symtab c s :
  Forall (fun st => sym_deleted st = false) (symbols s) →
  let s' := (visit_SymtabSection c s).2 in
  let n := length (filter is_local (symbols s)) in
  (visit_SymtabSection c s).1 = c + 1
  ∧ index s' = Some c
  ∧ sh_info s' = c_uint32 (Z.of_nat n)
  ∧ (fun st => (st_info st, st_value st)) <$> symbols s'
    ≡ₚ (fun st => (st_info st, st_value st)) <$> symbols s
  ∧ (∀ i st, symbols s' !! i = Some st →
       sym_index st = Some (Z.of_nat i) ∧ ((i < n)%nat ↔ is_local st))
  ∧ (∀ i j a b, (i < j)%nat → symbols s' !! i = Some a → symbols s' !! j = Some b →
       (is_local a ↔ is_local b) → st_value a ≤ st_value b).
Proof.
  intros Hnd s' n. subst s'. unfold visit_SymtabSection, visit_Section. cbn [fst snd symbols index sh_info].
  set (L := sort st_value (filter (fun st => st_bind st = elf32.STB_LOCAL) (symbols s))).
  set (N := sort st_value (filter (fun st => st_bind st ≠ elf32.STB_LOCAL) (symbols s))).
  assert (L ≡ₚ filter is_local (symbols s)) as HL by apply sort_perm.
  assert (N ≡ₚ filter (fun st => ¬ is_local st) (symbols s)) as HN by apply sort_perm.
  assert (length L = n) as HnL by (subst n; by rewrite HL).
  assert (L ++ N ≡ₚ symbols s) as Hperm.
  { rewrite HL, HN. apply filter_split_perm. }
  assert (Forall (fun st => sym_deleted st = false) (L ++ N)) as Hnd'
    by (by rewrite Hperm).
  assert (Forall is_local L) as HLl.
  { rewrite HL. apply Forall_forall. intros x Hx.
    by apply list_elem_of_filter in Hx as [Hx _]. }
  assert (Forall (fun st => ¬ is_local st) N) as HNl.
  { rewrite HN. apply Forall_forall. intros x Hx.
    by apply list_elem_of_filter in Hx as [Hx _]. }
  assert (∀ i st, visit_symbols 0 (L ++ N) !! i = Some st →
            ∃ st0, (L ++ N) !! i = Some st0 ∧ st = numbered_as (Z.of_nat i) st0) as Hlk.
  { intros i st. rewrite visit_symbols_lookup by done.
    destruct ((L ++ N) !! i) as [st0|]; [|done]. cbn. intros [= <-]. eauto. }
  assert (∀ i st0, (L ++ N) !! i = Some st0 → (i < n)%nat ↔ is_local st0) as Hloc.
  { intros i st0 Hi. rewrite <- HnL. split.
    - intros Hlt. rewrite lookup_app_l in Hi by done.
      rewrite Forall_forall in HLl. apply HLl. by eapply list_elem_of_lookup_2.
    - intros Hl. destruct (Nat.lt_ge_cases i (length L)) as [|Hge]; [done|].
      rewrite lookup_app_r in Hi by done.
      rewrite Forall_forall in HNl. destruct (HNl st0); [|done].
      by eapply list_elem_of_lookup_2. }
  split; [done|]. split; [done|]. split.
  { unfold len. by rewrite HnL. }
  split.
  { assert ((fun st => (st_info st, st_value st)) <$> visit_symbols 0 (L ++ N)
            = (fun st => (st_info st, st_value st)) <$> (L ++ N)) as ->.
    { apply list_eq. intros i. rewrite !list_lookup_fmap.
      rewrite visit_symbols_lookup by done. by destruct ((L ++ N) !! i). }
    by rewrite Hperm. }
  split.
  - intros i st Hi. destruct (Hlk i st Hi) as (st0 & H0 & ->). split; [done|].
    apply (Hloc i st0 H0).
  - intros i j a b Hij Hi Hj Hab.
    destruct (Hlk i a Hi) as (a0 & Ha0 & ->). destruct (Hlk j b Hj) as (b0 & Hb0 & ->).
    change (st_value a0 ≤ st_value b0).
    change (is_local a0 ↔ is_local b0) in Hab.
    pose proof (Hloc i a0 Ha0) as Hla. pose proof (Hloc j b0 Hb0) as Hlb.
    rewrite <- HnL in Hla, Hlb.
    destruct (Nat.lt_ge_cases j (length L)) as [Hj'|Hj'].
    + rewrite lookup_app_l in Ha0, Hb0 by lia.
      apply (strongly_sorted_lookup (key_le st_value) L i j); try done.
      apply sort_sorted.
    + assert (length L ≤ i)%nat as Hi'.
      { destruct (Nat.lt_ge_cases i (length L)) as [Hlt|]; [|done].
        apply Hla, Hab, Hlb in Hlt. lia. }
      rewrite lookup_app_r in Ha0, Hb0 by lia.
      apply (strongly_sorted_lookup (key_le st_value) N
               (i - length L) (j - length L)); try done; [apply sort_sorted|lia].
Qed.

End index_symbols.


Section index_examples.
Import IndexNodes.

(** A symbol table: the null symbol, a global function, two local
    symbols. *)
Definition example_symtab : Section :=
  mkSection SymtabSection_ false None 0
    [ mkSymbol false 0 0 None;
      mkSymbol false 0x12 0x10000101 None;
      mkSymbol false 0x02 0x10000201 None;
      mkSymbol false 0x03 0x10000000 None ]
    [].

Lemma index_symtab_witness :
  (visit_SymtabSection 5 example_symtab).1 = 5 + 1
  ∧ index (visit_SymtabSection 5 example_symtab).2 = Some 5
  ∧ sh_info (visit_SymtabSection 5 example_symtab).2
    = c_uint32 (Z.of_nat (length (filter is_local (symbols example_symtab))))
  ∧ (fun st => (st_info st, st_value st)) <$> symbols (visit_SymtabSection 5 example_symtab).2
    ≡ₚ (fun st => (st_info st, st_value st)) <$> symbols example_symtab
  ∧ (∀ i st, symbols (visit_SymtabSection 5 example_symtab).2 !! i = Some st →
       sym_index st = Some (Z.of_nat i)
       ∧ ((i < length (filter is_local (symbols example_symtab)))%nat ↔ is_local st))
  ∧ (∀ i j a b, (i < j)%nat →
       symbols (visit_SymtabSection 5 example_symtab).2 !! i = Some a →
       symbols (visit_SymtabSection 5 example_symtab).2 !! j = Some b →
       (is_local a ↔ is_local b) → st_value a ≤ st_value b).
Proof.
  apply (index_symtab 5 example_symtab). repeat constructor.
Defined.

(** The null symbol stays first: a local symbol at the head of the table
    whose value is not above any other keeps position and gets index 0. *)
Theorem index_symtab_head c s z r :
  symbols s = z :: r →
  sym_deleted z = false → is_local z →
  Forall (fun y => st_value z ≤ st_value y) r →
  head (symbols (visit_SymtabSection c s).2) = Some (numbered_as 0 z).
Proof.
  intros Hs Hd Hl Hmin. unfold visit_SymtabSection, visit_Section.
  cbn [snd symbols]. rewrite Hs.
  rewrite (filter_cons_True (fun st => st_bind st = elf32.STB_LOCAL)) by done.
  rewrite sort_head.
  - cbn [app visit_symbols head]. unfold numbered_as. by rewrite Hd.
  - apply Forall_forall. intros y Hy. apply list_elem_of_filter in Hy as [_ Hy].
    rewrite Forall_forall in Hmin. by apply Hmin.
Qed.

Lemma index_symtab_head_witness :
  head (symbols (visit_SymtabSection 5 example_symtab).2)
  = Some (numbered_as 0 (mkSymbol false 0 0 None)).
Proof.
  apply (index_symtab_head 5 example_symtab (mkSymbol false 0 0 None)
           [ mkSymbol false 0x12 0x10000101 None;
             mkSymbol false 0x02 0x10000201 None;
             mkSymbol false 0x03 0x10000000 None ]); try reflexivity.
  repeat constructor; cbn; lia.
Defined.

(** ** Section numbers *)

(** The sections that get a number: not deleted and not one of the two
    pseudo-sections. *)
Definition counted (s : Section) : bool :=
  negb (deleted s) && negb (pseudo_class (cls s)).

Lemma visit_counted c s :
  counted s = true →
  (visit c s).1 = c + 1 ∧ index (visit c s).2 = Some c
  ∧ cls (visit c s).2 = cls s ∧ deleted (visit c s).2 = deleted s.
Proof.
  unfold counted, visit. intros H. apply andb_true_iff in H as [_ H].
  destruct (cls s) eqn:E; cbn in H; try done; cbn; by rewrite ?E.
Qed.

Lemma visit_pseudo c s : pseudo_class (cls s) = true → visit c s = (c, s).
Proof. unfold visit. by destruct (cls s). Qed.

Lemma visit_sections_spec l : ∀ c,
  (visit_sections c l).1 = c + Z.of_nat (length (filter (fun s => counted s = true) l))
  ∧ length (visit_sections c l).2 = length l
  ∧ ∀ i s', (visit_sections c l).2 !! i = Some s' →
      ∃ s, l !! i = Some s ∧ cls s' = cls s ∧ deleted s' = deleted s
        ∧ (if counted s
           then index s' = Some (c + Z.of_nat (length (filter (fun s => counted s = true)
                                                         (take i l))))
           else s' = s).
Proof.
  induction l as [|s l IH]; intros c.
  { cbn. split; [lia|]. split; [done|]. by intros i s'. }
  cbn [visit_sections]. rewrite filter_cons.
  destruct (deleted s) eqn:Ed.
  - assert (counted s = false) as Hc by (unfold counted; by rewrite Ed).
    destruct (IH c) as (H1 & H2 & H3).
    destruct (visit_sections c l) as [c' r'] eqn:E. cbn [fst snd] in *.
    rewrite decide_False by (by rewrite Hc).
    split; [done|]. split; [cbn; by rewrite H2|].
    intros [|i] s' Hi; cbn in Hi.
    + injection Hi as <-. exists s. by rewrite Hc.
    + destruct (H3 i s' Hi) as (s0 & Hs0 & A & B & C). exists s0.
      split; [done|]. split; [done|]. split; [done|].
      cbn [take]. rewrite filter_cons, decide_False by (by rewrite Hc). done.
  - destruct (pseudo_class (cls s)) eqn:Ep.
    + assert (counted s = false) as Hc by (unfold counted; by rewrite Ed, Ep).
      rewrite visit_pseudo by done.
      destruct (IH c) as (H1 & H2 & H3).
      destruct (visit_sections c l) as [c' r'] eqn:E. cbn [fst snd] in *.
      rewrite decide_False by (by rewrite Hc).
      split; [done|]. split; [cbn; by rewrite H2|].
      intros [|i] s' Hi; cbn in Hi.
      * injection Hi as <-. exists s. by rewrite Hc.
      * destruct (H3 i s' Hi) as (s0 & Hs0 & A & B & C). exists s0.
        split; [done|]. split; [done|]. split; [done|].
        cbn [take]. rewrite filter_cons, decide_False by (by rewrite Hc). done.
    + assert (counted s = true) as Hc by (unfold counted; by rewrite Ed, Ep).
      destruct (visit_counted c s Hc) as (V1 & V2 & V3 & V4).
      destruct (visit c s) as [c1 s1] eqn:Ev. cbn [fst snd] in *. subst c1.
      destruct (IH (c + 1)) as (H1 & H2 & H3).
      destruct (visit_sections (c + 1) l) as [c' r'] eqn:E. cbn [fst snd] in *.
      rewrite decide_True by done.
      split; [cbn [length]; lia|]. split; [cbn; by rewrite H2|].
      intros [|i] s' Hi; cbn in Hi.
      * injection Hi as <-. exists s. rewrite Hc. cbn. by rewrite Z.add_0_r.
      * destruct (H3 i s' Hi) as (s0 & Hs0 & A & B & C). exists s0.
        split; [done|]. split; [done|]. split; [done|].
        cbn [take]. rewrite filter_cons, decide_True by done.
        destruct (counted s0); [|done]. rewrite C. f_equal. cbn [length]. lia.
Qed.

(** The pass numbers the sections that are neither deleted nor
    pseudo-sections 0, 1, 2, ... in list order and leaves the others as they
    are; [e_shnum] is the count of numbered sections and [e_phnum] the
    length of the segment list (deleted segments included), both stored in
    16 bits. *)
Theorem index_sections elffile :
  let out := visit_Elf elffile in
  let count l := Z.of_nat (length (filter (fun s => counted s = true) l)) in
  e_shnum out = c_uint16 (count (sections elffile))
  ∧ e_phnum out = c_uint16 (Z.of_nat (segments elffile))
  ∧ length (sections out) = length (sections elffile)
  ∧ ∀ i s', sections out !! i = Some s' →
      ∃ s, sections elffile !! i = Some s ∧ cls s' = cls s ∧ deleted s' = deleted s
        ∧ (if counted s then index s' = Some (count (take i (sections elffile)))
           else s' = s).
Proof.
  intros out count. subst out. unfold visit_Elf.
  destruct (visit_sections_spec (sections elffile) 0) as (H1 & H2 & H3).
  destruct (visit_sections 0 (sections elffile)) as [c secs]. cbn [fst snd] in *.
  cbn [e_shnum e_phnum sections]. rewrite H1, Z.add_0_l.
  split; [done|]. split; [done|]. split; [done|].
  intros i s' Hi. destruct (H3 i s' Hi) as (s & Hs & A & B & C).
  exists s. split; [done|]. split; [done|]. split; [done|].
  destruct (counted s); [|done]. by rewrite C, Z.add_0_l.
Qed.

End index_examples.


(** ** [ComputeSegments] *)

Section compute_segments.
Import ComputeSegments.

(** A section whose file and memory intervals lie within 32 bits. *)
Definition in_range (m : Section) : Prop :=
  0 ≤ sh_offset m ∧ 0 ≤ size m ∧ sh_offset m + psize m < 2 ^ 32
  ∧ 0 ≤ sh_addr m ∧ sh_addr m + size m < 2 ^ 32
  ∧ 0 ≤ sh_addralign m < 2 ^ 32.

(** [a] ends before [b] starts, in the file and in memory. *)
Definition before (a b : Section) : Prop :=
  sh_offset a + psize a ≤ sh_offset b ∧ sh_addr a + size a ≤ sh_addr b.

Definition any_flag (bit : Z) (l : list Section) : bool :=
  existsb (fun m => has_flag (sh_flags m) bit) l.

Definition flags_of (w x : bool) : Z :=
  PF_R + (if w then PF_W else 0) + (if x then PF_X else 0).

Lemma flags_of_step w x (fw fx : bool) :
  (let flags := flags_of w x in
   let flags := if fw then c_uint32 (Z.lor flags PF_W) else flags in
   if fx then c_uint32 (Z.lor flags PF_X) else flags)
  = flags_of (w || fw) (x || fx).
Proof. by destruct w, x, fw, fx. Qed.

Lemma foldr_max_shift a m r :
  foldr Z.max (Z.max a m) r = Z.max m (foldr Z.max a r).
Proof. induction r as [|y r IH]; cbn; [lia|]. rewrite IH. lia. Qed.

Lemma foldr_max_range a l :
  0 ≤ a < 2 ^ 32 → Forall (fun y => 0 ≤ y < 2 ^ 32) l → 0 ≤ foldr Z.max a l < 2 ^ 32.
Proof. intros Ha. induction 1; cbn; lia. Qed.

(** One turn of the loop on a segment that is not fixed. *)
Lemma visit_member_step seg m seg' :
  visit_member seg m = Ok seg' → fixed seg = false →
  0 ≤ p_offset seg → 0 ≤ p_vaddr seg → 0 ≤ p_filesz seg → 0 ≤ p_memsz seg →
  0 ≤ p_align seg < 2 ^ 32 → in_range m →
  fixed seg' = false ∧ p_offset seg' = p_offset seg ∧ p_vaddr seg' = p_vaddr seg
  ∧ p_paddr seg' = p_paddr seg ∧ sections seg' = sections seg
  ∧ p_offset seg + p_filesz seg ≤ sh_offset m
  ∧ p_offset seg + p_filesz seg' = sh_offset m + psize m
  ∧ p_vaddr seg + p_memsz seg ≤ sh_addr m
  ∧ p_vaddr seg + p_memsz seg' = sh_addr m + size m
  ∧ (∃ p, paddr m = Some p ∧ p_paddr seg + p_memsz seg ≤ p)
  ∧ p_align seg' = Z.max (p_align seg) (sh_addralign m)
  ∧ ∀ w x, p_flags seg = flags_of w x →
      p_flags seg' = flags_of (w || has_flag (sh_flags m) elf32.SHF_WRITE)
                       (x || has_flag (sh_flags m) SHF_EXECINSTR).
Proof.
  intros H Hf HP HV HF HM HA (Ho & Hs & Hoe & Ha & Hae & Hal).
  pose proof (psize_bounds m Hs) as Hps.
  unfold visit_member in H. rewrite Hf in H. cbn [negb] in H.
  destruct (Z.leb_spec (p_offset seg + p_filesz seg) (sh_offset m)) as [L1|];
    cbn in H; [|done].
  unfold get_paddr in H. destruct (paddr m) as [p|] eqn:Ep; cbn in H; [|done].
  destruct (Z.leb_spec (p_paddr seg + p_memsz seg) p) as [L2|]; cbn in H; [|done].
  destruct (Z.leb_spec (p_vaddr seg + p_memsz seg) (sh_addr m)) as [L3|];
    cbn in H; [|done].
  injection H as <-. cbn.
  rewrite !c_uint32_in_range by lia.
  repeat split; try done; try lia.
  - by exists p.
  - intros w x ->. apply flags_of_step.
Qed.

(** The loop on a segment that is not fixed. *)
Lemma visit_members_spec l : ∀ seg seg',
  visit_members seg l = Ok seg' → fixed seg = false →
  0 ≤ p_offset seg → 0 ≤ p_vaddr seg → 0 ≤ p_filesz seg → 0 ≤ p_memsz seg →
  0 ≤ p_align seg < 2 ^ 32 → Forall in_range l →
  p_offset seg' = p_offset seg ∧ p_vaddr seg' = p_vaddr seg
  ∧ p_paddr seg' = p_paddr seg ∧ sections seg' = sections seg
  ∧ p_filesz seg ≤ p_filesz seg' ∧ p_memsz seg ≤ p_memsz seg'
  ∧ (∀ m, m ∈ l →
       p_offset seg + p_filesz seg ≤ sh_offset m
       ∧ sh_offset m + psize m ≤ p_offset seg + p_filesz seg'
       ∧ p_vaddr seg + p_memsz seg ≤ sh_addr m
       ∧ sh_addr m + size m ≤ p_vaddr seg + p_memsz seg'
       ∧ ∃ p, paddr m = Some p ∧ p_paddr seg + p_memsz seg ≤ p)
  ∧ StronglySorted before l
  ∧ (∀ m, last l = Some m →
       p_offset seg + p_filesz seg' = sh_offset m + psize m
       ∧ p_vaddr seg + p_memsz seg' = sh_addr m + size m)
  ∧ p_align seg' = foldr Z.max (p_align seg) (sh_addralign <$> l)
  ∧ ∀ w x, p_flags seg = flags_of w x →
      p_flags seg' = flags_of (w || any_flag elf32.SHF_WRITE l)
                       (x || any_flag SHF_EXECINSTR l).
Proof.
  induction l as [|m r IH]; intros seg seg' H Hf HP HV HF HM HA Hl.
  { cbn in H. injection H as <-.
    split; [done|]. split; [done|]. split; [done|]. split; [done|].
    split; [lia|]. split; [lia|].
    split; [intros m Hm; by apply elem_of_nil in Hm|].
    split; [constructor|]. split; [done|]. split; [done|].
    intros w x ->. cbn. by rewrite !orb_false_r. }
  apply Forall_cons in Hl as [Hm Hl].
  cbn [visit_members] in H.
  destruct (visit_member seg m) as [seg1|] eqn:E1; cbn [mbind result_bind] in H; [|done].
  destruct (visit_member_step seg m seg1 E1 Hf HP HV HF HM HA Hm)
    as (Hf1 & EP & EV & EPa & ES & L1 & F1 & L3 & M1 & Hp & A1 & Fl1).
  pose proof Hm as (Ho & Hs & Hoe & Ha & Hae & Hal).
  pose proof (psize_bounds m Hs) as Hps.
  assert (0 ≤ p_align seg1 < 2 ^ 32) as HA1 by (rewrite A1; lia).
  destruct (IH seg1 seg' H Hf1 ltac:(lia) ltac:(lia) ltac:(lia) ltac:(lia) HA1 Hl)
    as (EP' & EV' & EPa' & ES' & F' & M' & Hall & Hsort & Hlast & A' & Fl').
  split; [congruence|]. split; [congruence|]. split; [congruence|].
  split; [congruence|]. split; [lia|]. split; [lia|].
  split; [|split; [|split; [|split]]].
  - intros y Hy. apply elem_of_cons in Hy as [->|Hy].
    + split; [lia|]. split; [lia|]. split; [lia|]. split; [lia|]. done.
    + destruct (Hall y Hy) as (a & b & c & d & p & Ep & Lp).
      split; [lia|]. split; [lia|]. split; [lia|]. split; [lia|].
      exists p. split; [done|]. lia.
  - constructor; [done|]. apply Forall_forall. intros y Hy.
    destruct (Hall y Hy) as (a & _ & c & _). unfold before. lia.
  - intros y Hy. destruct r as [|m' r'].
    + cbn in Hy. injection Hy as <-. cbn in H. injection H as <-. lia.
    + cbn [last] in Hy. specialize (Hlast y Hy). lia.
  - rewrite A', A1. cbn. apply foldr_max_shift.
  - intros w x Hwx. rewrite (Fl' _ _ (Fl1 w x Hwx)). cbn. by rewrite !orb_assoc.
Qed.

(** After the pass, a segment that is not fixed starts where its first
    section starts and ends where its last section ends, in the file and in
    memory; its sections lie in it in list order without overlap; it is
    readable, writable when a section is writable and executable when a
    section is executable; its alignment is the largest of its sections'
    (at least 1).  The pass fails on a segment without sections. *)
Theorem compute_segments_cover seg seg' :
  visit_Segment seg = Ok seg' → fixed seg = false →
  Forall in_range (sections seg) →
  ∃ first_ last_ p,
    head (sections seg) = Some first_ ∧ last (sections seg) = Some last_
    ∧ p_offset seg' = sh_offset first_ ∧ p_vaddr seg' = sh_addr first_
    ∧ paddr first_ = Some p ∧ p_paddr seg' = c_uint32 p
    ∧ p_offset seg' + p_filesz seg' = sh_offset last_ + psize last_
    ∧ p_vaddr seg' + p_memsz seg' = sh_addr last_ + size last_
    ∧ StronglySorted before (sections seg)
    ∧ (∀ m, m ∈ sections seg →
         p_offset seg' ≤ sh_offset m
         ∧ sh_offset m + psize m ≤ p_offset seg' + p_filesz seg'
         ∧ p_vaddr seg' ≤ sh_addr m
         ∧ sh_addr m + size m ≤ p_vaddr seg' + p_memsz seg')
    ∧ p_flags seg' = flags_of (any_flag elf32.SHF_WRITE (sections seg))
                       (any_flag SHF_EXECINSTR (sections seg))
    ∧ p_align seg' = foldr Z.max 1 (sh_addralign <$> sections seg).
Proof.
  intros H Hf Hl. unfold visit_Segment, py_index in H.
  destruct (sections seg) as [|m0 r] eqn:Es; cbn [lookup list_lookup] in H; [done|].
  cbn [mbind result_bind fixed] in H. rewrite Hf in H. cbn [negb] in H.
  unfold get_paddr in H. destruct (paddr m0) as [p|] eqn:Ep;
    cbn [mbind result_bind fixed p_offset sections] in H; [|done].
  pose proof Hl as Hl0. apply Forall_cons in Hl0 as [(Ho & Hs & Hoe & Ha & Hae & Hal) _].
  pose proof (psize_bounds m0 Hs) as Hps.
  apply visit_members_spec in H; cbn; try done;
    rewrite ?c_uint32_in_range by lia; try lia.
  cbn in H. rewrite !c_uint32_in_range in H by lia.
  destruct H as (EP & EV & EPa & ES & F & M & Hall & Hsort & Hlast & A & Fl).
  assert (is_Some (last (m0 :: r))) as [ml Hml].
  { rewrite last_is_Some. done. }
  exists m0, ml, p. rewrite EP, EV, EPa.
  destruct (Hlast ml Hml) as [L1 L2].
  do 9 (split; [done|]). split; [|split; [by apply (Fl false false)|done]].
  intros m Hm. destruct (Hall m Hm) as (a & b & c & d & _). lia.
Qed.

(** A load segment of a text section and a read-only data section. *)
Definition example_segment : Segment :=
  mkSegment false 0 0 0 0 0 0 0
    [ mkSection Section_ false false elf32.SHT_PROGBITS 6 0x10000000 0x1000 0 4
        (Some [1; 2; 3; 4; 5; 6]) 0 (Some 0x10000000);
      mkSection Section_ false false elf32.SHT_PROGBITS 2 0x10000008 0x1008 0 8
        (Some [7; 8]) 0 (Some 0x10000008) ].

Definition example_segment_done : Segment :=
  mkSegment false 0x1000 0x10000000 0x10000000 10 10 5 8 (sections example_segment).

Lemma compute_segments_cover_witness :
  ∃ first_ last_ p,
    head (sections example_segment) = Some first_
    ∧ last (sections example_segment) = Some last_
    ∧ p_offset example_segment_done = sh_offset first_
    ∧ p_vaddr example_segment_done = sh_addr first_
    ∧ paddr first_ = Some p ∧ p_paddr example_segment_done = c_uint32 p
    ∧ p_offset example_segment_done + p_filesz example_segment_done
      = sh_offset last_ + psize last_
    ∧ p_vaddr example_segment_done + p_memsz example_segment_done
      = sh_addr last_ + size last_
    ∧ StronglySorted before (sections example_segment)
    ∧ (∀ m, m ∈ sections example_segment →
         p_offset example_segment_done ≤ sh_offset m
         ∧ sh_offset m + psize m
           ≤ p_offset example_segment_done + p_filesz example_segment_done
         ∧ p_vaddr example_segment_done ≤ sh_addr m
         ∧ sh_addr m + size m
           ≤ p_vaddr example_segment_done + p_memsz example_segment_done)
    ∧ p_flags example_segment_done
      = flags_of (any_flag elf32.SHF_WRITE (sections example_segment))
          (any_flag SHF_EXECINSTR (sections example_segment))
    ∧ p_align example_segment_done
      = foldr Z.max 1 (sh_addralign <$> sections example_segment).
Proof.
  apply (compute_segments_cover example_segment example_segment_done).
  - vm_compute. reflexivity.
  - reflexivity.
  - repeat constructor; vm_compute; congruence.
Defined.

(** On a fixed segment the pass sets [p_offset] to the offset of the first
    section and changes nothing else; it fails when the segment has no
    section or holds a section that is not fixed. *)
Theorem compute_segments_fixed seg :
  fixed seg = true →
  visit_Segment seg =
    match head (sections seg) with
    | None => Raise IndexError
    | Some first_ =>
      if forallb section_fixed (sections seg)
      then Ok (mkSegment true (c_uint32 (sh_offset first_)) (p_vaddr seg) (p_paddr seg)
                 (p_filesz seg) (p_memsz seg) (p_flags seg) (p_align seg) (sections seg))
      else Raise AssertionError
    end.
Proof.
  intros Hf. unfold visit_Segment, py_index.
  destruct (sections seg) as [|m0 r] eqn:Es; [done|].
  cbn [lookup list_lookup head mbind result_bind fixed negb]. rewrite Hf.
  cbn [negb mbind result_bind sections].
  set (seg1 := mkSegment _ _ _ _ _ _ _ _ _).
  assert (fixed seg1 = true) as Hf1 by done.
  clearbody seg1. generalize (m0 :: r). intros l.
  induction l as [|m l IH]; [done|].
  cbn [visit_members forallb]. unfold visit_member. rewrite Hf1. cbn [negb].
  destruct (section_fixed m); cbn; [|done]. exact IH.
Qed.

(** A segment read from a file, holding one section read from the file. *)
Definition example_fixed_segment : Segment :=
  mkSegment true 0 0x10000000 0x10000000 10 10 5 8
    [ mkSection Section_ true false elf32.SHT_PROGBITS 6 0x10000000 0x1000 10 4
        None 0 None ].

Lemma compute_segments_fixed_witness :
  visit_Segment example_fixed_segment =
    match head (sections example_fixed_segment) with
    | None => Raise IndexError
    | Some first_ =>
      if forallb section_fixed (sections example_fixed_segment)
      then Ok (mkSegment true (c_uint32 (sh_offset first_))
                 (p_vaddr example_fixed_segment) (p_paddr example_fixed_segment)
                 (p_filesz example_fixed_segment) (p_memsz example_fixed_segment)
                 (p_flags example_fixed_segment) (p_align example_fixed_segment)
                 (sections example_fixed_segment))
      else Raise AssertionError
    end.
Proof.
  apply (compute_segments_fixed example_fixed_segment). reflexivity.
Defined.

End compute_segments.


(** ** [ComputeAddresses]: fixed sections *)

Section compute_addresses_keep.
Import ComputeAddresses.

(** [visit_Section] moves neither a fixed section nor a section that is
    not allocated. *)
Lemma visit_Section_keeps st m st' m' :
  visit_Section st m = Ok (st', m') →
  fixed m = true ∨ alloc m = false →
  sh_addr m' = sh_addr m ∧ paddr m' = paddr m.
Proof.
  intros H Hk. unfold visit_Section, get_paddr in H.
  set (m0 := set_sh_size (size m) m) in *.
  change (sh_flags m0) with (sh_flags m) in H.
  change (sh_type m0) with (sh_type m) in H.
  change (fixed m0) with (fixed m) in H.
  unfold alloc in Hk.
  destruct (has_flag (sh_flags m) elf32.SHF_ALLOC) eqn:Ea; cbn [negb] in H.
  2:{ by injection H as <- <-. }
  destruct Hk as [Ef|]; [|done]. rewrite Ef in H. cbn [negb] in H.
  destruct (has_flag (sh_flags m) elf32.SHF_WRITE) eqn:Ew;
    destruct (sh_type m =? elf32.SHT_NOBITS) eqn:En;
    cbn [negb orb andb mbind result_bind] in H;
    repeat match type of H with
    | context [align ?x ?y] =>
      destruct (align x y) eqn:?;
      cbn [mbind result_bind fixed paddr set_paddr set_sh_addr sh_addralign sh_addr
           sh_type sh_flags negb] in H;
      change (fixed m0) with (fixed m) in H;
      rewrite ?Ef in H; cbn [negb] in H
    | context [match paddr m0 with _ => _ end] =>
      destruct (paddr m0) eqn:?; cbn [mbind result_bind] in H
    | _ => progress cbn [mbind result_bind fixed paddr set_paddr set_sh_addr
                         sh_addralign sh_addr sh_type sh_flags negb] in H
    | _ => progress (change (fixed m0) with (fixed m) in H; rewrite ?Ef in H;
                     cbn [negb] in H)
    end;
    change (fixed m0) with (fixed m) in H; rewrite ?Ef in H; cbn [negb] in H;
    try discriminate; by injection H as <- <-.
Qed.

Lemma visit_keeps elffile st m st' m' :
  visit elffile st m = Ok (st', m') →
  fixed m = true ∨ alloc m = false →
  sh_addr m' = sh_addr m ∧ paddr m' = paddr m.
Proof.
  unfold visit, visit_PhdrsSection, visit_EhdrSection.
  assert (∀ v, visit_Section st (set_sh_size v m) = Ok (st', m') →
               fixed m = true ∨ alloc m = false →
               sh_addr m' = sh_addr m ∧ paddr m' = paddr m) as Hv.
  { intros v H Hk. by apply visit_Section_keeps in H. }
  destruct (cls m); first [apply Hv | apply visit_Section_keeps].
Qed.

(** The segment decides the [paddr] of section [i]: it is visited (not
    deleted), fixed, and lists the section. *)
Definition places (i : nat) (p : Segment) : Prop :=
  seg_deleted p = false ∧ seg_fixed p = true ∧ i ∈ seg_sections p.

#[local] Instance places_dec i p : Decision (places i p).
Proof. unfold places. apply _. Defined.

Definition placed_by (p : Segment) (sh : Section) : Section :=
  set_paddr (sh_addr sh + (p_paddr p - p_vaddr p)) sh.

Lemma members_lookup (g : Section → Section) (l : list nat) : ∀ (secs : list Section) (i : nat),
  (∀ sh, g (g sh) = g sh) →
  foldl (fun acc j => alter g j acc) secs l !! i
  = (if decide (i ∈ l) then g else id) <$> secs !! i.
Proof.
  induction l as [|j l IH]; intros secs i Hg; cbn [foldl].
  { rewrite decide_False by apply not_elem_of_nil. by destruct (secs !! i). }
  rewrite IH by done. destruct (decide (i = j)) as [->|Hij].
  - rewrite list_lookup_alter_eq. rewrite (decide_True (P := j ∈ j :: l)) by left.
    destruct (secs !! j) as [sh|]; cbn; [|done].
    destruct (decide (j ∈ l)); cbn; by rewrite ?Hg.
  - rewrite list_lookup_alter_ne by done.
    destruct (decide (i ∈ l)) as [Hl|Hl].
    + rewrite decide_True by (by right). done.
    + rewrite decide_False; [done|]. intros [?|?]%elem_of_cons; done.
Qed.

Lemma visit_Segment_lookup secs p i :
  visit_Segment secs p !! i
  = (if decide (seg_fixed p = true ∧ i ∈ seg_sections p) then placed_by p else id)
    <$> secs !! i.
Proof.
  unfold visit_Segment. destruct (seg_fixed p); cbn [negb].
  - rewrite (members_lookup (placed_by p)) by done.
    destruct (decide (i ∈ seg_sections p)).
    + by rewrite decide_True.
    + rewrite decide_False by tauto. done.
  - rewrite decide_False by (by intros [? _]). by destruct (secs !! i).
Qed.

(** The last segment that places the section wins. *)
Lemma visit_segments_lookup segs : ∀ secs i,
  visit_segments secs segs !! i
  = (match last (filter (places i) segs) with
     | Some p => placed_by p
     | None => id
     end) <$> secs !! i.
Proof.
  induction segs as [|p segs IH] using rev_ind; intros secs i.
  { cbn. by destruct (secs !! i). }
  unfold visit_segments in *. rewrite foldl_app. cbn [foldl].
  rewrite filter_app, filter_cons, filter_nil.
  destruct (decide (places i p)) as [(Hd & Hf & Hi)|Hn].
  - rewrite last_snoc, Hd, visit_Segment_lookup, decide_True by done.
    rewrite IH. destruct (secs !! i) as [sh|]; [|done]. cbn.
    by destruct (last (filter (places i) segs)).
  - rewrite app_nil_r. destruct (seg_deleted p) eqn:Ed; [apply IH|].
    rewrite visit_Segment_lookup, decide_False; [|unfold places in Hn; tauto].
    rewrite IH. by destruct (secs !! i), (last _).
Qed.

(** The pass never moves a fixed section: its [sh_addr] stays, and its
    [paddr] is the one it had unless a fixed segment lists it; then the last
    such segment in [elffile.segments] sets it to the address shifted by
    the segment's [p_paddr - p_vaddr]. *)
Theorem compute_addresses_fixed st0 elffile st' elffile' i s :
  visit_Elf st0 elffile = Ok (st', elffile') →
  sections elffile !! i = Some s → fixed s = true →
  ∃ s', sections elffile' !! i = Some s'
    ∧ sh_addr s' = sh_addr s
    ∧ paddr s' = match last (filter (places i) (segments elffile)) with
                 | Some p => Some (sh_addr s + (p_paddr p - p_vaddr p))
                 | None => paddr s
                 end.
Proof.
  intros Hrun Hi Hf. unfold visit_Elf in Hrun.
  destruct (visit_sections _ _ _) as [[st1 L']|] eqn:E; cbn [mbind result_bind] in Hrun;
    [|done].
  injection Hrun as <- <-. cbn [sections]. unfold visit_sections in E.
  pose proof (visit_segments_lookup (segments elffile) (sections elffile) i) as Hseg.
  rewrite Hi in Hseg. cbn in Hseg.
  set (s1 := match last (filter (places i) (segments elffile)) with
             | Some p => placed_by p | None => id end s) in *.
  assert (fixed s1 = true ∧ sh_addr s1 = sh_addr s
          ∧ paddr s1 = match last (filter (places i) (segments elffile)) with
                       | Some p => Some (sh_addr s + (p_paddr p - p_vaddr p))
                       | None => paddr s
                       end) as (Hf1 & Ha1 & Hp1).
  { subst s1. by destruct (last _). }
  clearbody s1.
  assert (is_Some (L' !! i)) as [s' Hs'].
  { apply lookup_lt_is_Some. rewrite (visit_list_length _ _ _ _ _ _ E).
    by eapply lookup_lt_Some. }
  exists s'. split; [done|].
  destruct (visit_list_split _ _ _ _ _ _ i s' E Hs') as (sa & sb & n & Hn & _ & Hv & _).
  rewrite Hseg in Hn. injection Hn as <-.
  unfold visit_one in Hv. destruct (deleted s1).
  - destruct Hv as [_ ->]. by rewrite Ha1, Hp1.
  - apply visit_keeps in Hv as [-> ->]; [|by left]. by rewrite Ha1, Hp1.
Qed.

(** A file with one section read from the input, listed by a load segment
    read from the input that maps address 0x20000000 to flash at
    0x10001000. *)
Definition fixed_data : Section :=
  mkSection Section_ true false elf32.SHT_PROGBITS 3 0x20000000 0x1000 8 4
    None 0 None.

Definition fixed_load : Segment := mkSegment true false 0x20000000 0x10001000 [0%nat].

Definition fixed_elf : Elf := mkElf example_header [fixed_data] [fixed_load].

Lemma compute_addresses_fixed_witness :
  ∃ st' elffile',
    visit_Elf init fixed_elf = Ok (st', elffile')
    ∧ ∃ s', sections elffile' !! 0%nat = Some s'
        ∧ sh_addr s' = sh_addr fixed_data
        ∧ paddr s' = match last (filter (places 0) (segments fixed_elf)) with
                     | Some p => Some (sh_addr fixed_data + (p_paddr p - p_vaddr p))
                     | None => paddr fixed_data
                     end.
Proof.
  eexists _, _. split; [vm_compute; reflexivity|].
  eapply (compute_addresses_fixed init fixed_elf _ _ 0 fixed_data).
  - vm_compute. reflexivity.
  - reflexivity.
  - reflexivity.
Defined.

End compute_addresses_keep.
